(** * x_transformers: attention, relative-position bias and layer stacks

    A shallow embedding of [x_transformers/x_transformers.py].

    Numeric conventions used throughout.
    - Tensors are nested lists, outermost axis first.  A nested list does
      not record the sizes of the axes inside an empty axis: the sizes of
      the inner axes are read off the first element, and read as 0 for an
      empty batch.
    - Integer ([torch.long]) tensors hold int64 values, written as
      integers of [Z].  Negation and absolute value are exact on every
      int64 value except [-2^63], where they wrap around; this is written
      out where the source negates a tensor it is given.  Positions come
      from [torch.arange] over sequence lengths.
    - Floating-point tensors are modelled in exact arithmetic over the reals
      ([R]): no rounding, no overflow.  Two special values of the IEEE
      algebra are kept where the code itself introduces them:
      [float('-inf')] (written by [masked_fill_]) and the NaN that the
      softmax of an all-[-inf] row yields. *)

From Stdlib Require Import Reals Lra Lia ZArith List Bool FunctionalExtensionality.
From ExtLib Require Import Structures.Monad Structures.MonadState
  Data.Monads.IdentityMonad Data.Monads.StateMonad.
Import ListNotations.
Import MonadNotation.
Local Open Scope monad_scope.

Local Open Scope Z_scope.

(** ** Helpers *)

(** [default(val, d)]: [val] when it exists, otherwise [d] (a thunk in the
    source where [d] is a lambda). *)
Definition default {A : Type} (val : option A) (d : unit -> A) : A :=
  match val with
  | Some v => v
  | None => d tt
  end.

(** [exists(val)]. *)
Definition exists_ {A : Type} (val : option A) : bool :=
  match val with
  | Some _ => true
  | None => false
  end.

(** Elementwise binary operation on two tensors of the same shape. *)
Definition zipWith {A B C : Type} (f : A -> B -> C)
           (l1 : list A) (l2 : list B) : list C :=
  map (fun p => f (fst p) (snd p)) (combine l1 l2).

(** Sequencing of a fallible elementwise operation: the first failure
    (a raised exception) aborts the whole tensor operation. *)
Fixpoint mapM {A B : Type} (f : A -> option B) (l : list A) : option (list B) :=
  match l with
  | [] => Some []
  | a :: l' =>
      match f a with
      | None => None
      | Some b =>
          match mapM f l' with
          | None => None
          | Some bs => Some (b :: bs)
          end
      end
  end.

(** [torch.arange(n, dtype = torch.long)]. *)
Definition arange (n : nat) : list Z := map Z.of_nat (seq 0 n).

(** ** Scalars

    [fnum] is a real number or NaN ([None]); NaN is absorbing for [+] and
    [*], as in IEEE arithmetic.  [logit] is a real number or
    [float('-inf')]. *)

Definition fnum : Type := option R.

Inductive logit : Type :=
| NegInf : logit
| Fin (r : R) : logit.

Class Scalar (A : Type) : Type :=
  { of_R : R -> A
  ; sadd : A -> A -> A
  ; smul : A -> A -> A
  }.

#[export] Instance Scalar_R : Scalar R :=
  {| of_R := fun r => r; sadd := Rplus; smul := Rmult |}.

Definition fadd (a b : fnum) : fnum :=
  match a, b with
  | Some x, Some y => Some (x + y)%R
  | _, _ => None
  end.

Definition fmul (a b : fnum) : fnum :=
  match a, b with
  | Some x, Some y => Some (x * y)%R
  | _, _ => None
  end.

#[export] Instance Scalar_fnum : Scalar fnum :=
  {| of_R := Some; sadd := fadd; smul := fmul |}.

(** Sum of the products of an activation vector with a parameter vector
    of the same length (one output feature of a matrix product). *)
Definition dot {A : Type} `{Scalar A} (x : list A) (w : list R) : A :=
  fold_right sadd (of_R 0%R) (zipWith (fun a c => smul a (of_R c)) x w).

(** [Tensor.long()] on a floating-point value: truncation toward zero. *)
Definition long (r : R) : Z :=
  if Rlt_dec r 0 then Zceil r else Zfloor r.

(** ** Relative position bias *)

Module RelativePositionBias.

Record t : Type := mk
  { causal : bool
  ; num_buckets : Z
  ; max_distance : Z
  ; relative_attention_bias : list (list R)   (* num_buckets x heads *)
  }.

(** The scalar prologue of [_relative_position_bucket]: the bucket count
    after the causal halving ([num_buckets //= 2]). *)
Definition half_buckets (causal : bool) (num_buckets : Z) : Z :=
  if causal then num_buckets / 2 else num_buckets.

(** The least int64 value, the only one whose negation and absolute
    value overflow: both wrap around to [-2^63] itself. *)
Definition int64_min : Z := - 2 ^ 63.

(** One element of the tensor computation of [_relative_position_bucket]
    on an int64 offset; [nb] is the bucket count after the causal halving.
    [n = -relative_position] and [torch.abs(n)] wrap around exactly when
    the offset is [-2^63]. *)
Definition bucket_elt (causal : bool) (nb max_distance : Z)
           (relative_position : Z) : Z :=
  let ret := 0 in
  let wraps := relative_position =? int64_min in
  let n := if wraps then int64_min else - relative_position in
  let '(ret, n) :=
    if causal
    then (ret + (if n <? 0 then 1 else 0) * nb,
          if wraps then int64_min else Z.abs n)
    else (ret, Z.max n 0) in
  let max_exact := nb / 2 in
  let is_small := n <? max_exact in
  let val_if_large :=
    max_exact +
    long (ln (IZR n / IZR max_exact)
          / ln (IZR max_distance / IZR max_exact)
          * IZR (nb - max_exact))%R in
  let val_if_large := Z.min val_if_large (nb - 1) in
  ret + (if is_small then n else val_if_large).

(** [_relative_position_bucket(relative_position, causal, num_buckets,
    max_distance)] on a 2-d integer tensor.  [None] stands for the two
    Python exceptions of the scalar sub-expression
    [math.log(max_distance / max_exact)]: [ZeroDivisionError] when
    [max_exact = 0] and [ValueError] when the quotient is not positive.
    (Outside these, when [max_distance = max_exact], torch divides by a
    zero float and converts a non-finite value to [long]; the model then
    follows [/ 0 = 0] of the reals and says nothing about torch.) *)
Definition _relative_position_bucket (relative_position : list (list Z))
           (causal : bool) (num_buckets max_distance : Z)
  : option (list (list Z)) :=
  let nb := half_buckets causal num_buckets in
  let max_exact := nb / 2 in
  if max_exact =? 0 then None
  else if max_distance * max_exact <=? 0 then None
  else Some (map (map (bucket_elt causal nb max_distance)) relative_position).

(** The default of the keyword argument [max_distance = 128]. *)
Definition default_max_distance : Z := 128.

(** [nn.Embedding] lookup of one index; an index outside the table raises
    [IndexError]. *)
Definition embedding (table : list (list R)) (idx : Z) : option (list R) :=
  if idx <? 0 then None else nth_error table (Z.to_nat idx).

(** [qk_dots.shape[-2:]] of a tensor of shape (b, h, i, j). *)
Definition shape_ij (qk_dots : list (list (list (list R)))) : nat * nat :=
  let m := hd [] (hd [] qk_dots) in
  (length m, length (hd [] m)).

(** [rearrange(values, 'i j h -> () h i j')], without the leading unit
    axis; [heads] is the embedding dimension of the table. *)
Definition rearrange_bias (heads : nat) (values : list (list (list R)))
  : list (list (list R)) :=
  map (fun h => map (map (fun v => nth h v 0%R)) values) (seq 0 heads).

(** [RelativePositionBias.forward(qk_dots)], for logits with as many
    heads as the table has columns.  The bias is broadcast over the batch
    axis and added head by head. *)
Definition forward (self : t) (qk_dots : list (list (list (list R))))
  : option (list (list (list (list R)))) :=
  let '(i, j) := shape_ij qk_dots in
  let q_pos := arange i in
  let k_pos := arange j in
  let rel_pos := map (fun q => map (fun k => k - q) k_pos) q_pos in
  match _relative_position_bucket rel_pos (causal self) (num_buckets self)
                                  default_max_distance with
  | None => None
  | Some rp_bucket =>
      match mapM (mapM (embedding (relative_attention_bias self))) rp_bucket with
      | None => None
      | Some values =>
          let heads := length (hd [] (relative_attention_bias self)) in
          let bias := rearrange_bias heads values in
          Some (map (fun dots_b => zipWith (zipWith (zipWith Rplus)) dots_b bias)
                    qk_dots)
      end
  end.

End RelativePositionBias.

(** ** Linear layers *)

Module Linear.

(** [nn.Linear]: [weight] has shape (out_features, in_features). *)
Record t : Type := mk
  { weight : list (list R)
  ; bias : option (list R)
  }.

(** [nn.Linear(in_features, out_features, bias)]; [w] and [b] give the
    values of the parameters (their initial or trained values). *)
Definition init (in_features out_features : nat)
           (w : nat -> nat -> R) (b : option (nat -> R)) : t :=
  {| weight := map (fun k => map (w k) (seq 0 in_features)) (seq 0 out_features)
   ; bias := option_map (fun b => map b (seq 0 out_features)) b |}.

Definition out_features (self : t) : nat := length (weight self).

(** [x @ weight.T + bias] on one feature vector (the last axis). *)
Definition forward {A : Type} `{Scalar A} (self : t) (x : list A) : list A :=
  match bias self with
  | None => map (dot x) (weight self)
  | Some b => zipWith (fun w bk => sadd (dot x w) (of_R bk)) (weight self) b
  end.

End Linear.

(** [Tensor.chunk(2, dim = -1)] on one feature vector: the first chunk has
    ceil(len / 2) elements. *)
Definition chunk2 {A : Type} (x : list A) : list A * list A :=
  let c := Nat.div (length x + 1) 2 in
  (firstn c x, skipn c x).

(** ** Feed-forward network *)

Module GEGLU.

Record t : Type := mk { proj : Linear.t }.

(** [GEGLU(dim_in, dim_out)]. *)
Definition init (dim_in dim_out : nat) (w : nat -> nat -> R) (b : nat -> R) : t :=
  {| proj := Linear.init dim_in (dim_out * 2) w (Some b) |}.

(** [GEGLU.forward] on one feature vector; [gelu] is [F.gelu]. *)
Definition forward {A : Type} `{Scalar A} (gelu : A -> A) (self : t) (x : list A)
  : list A :=
  let '(x, gate) := chunk2 (Linear.forward (proj self) x) in
  map (fun xi => smul xi (gelu xi)) x.

End GEGLU.

Module FeedForward.

Inductive project_in_t : Type :=
| LinearGELU (lin : Linear.t)      (* nn.Sequential(nn.Linear, nn.GELU()) *)
| Gated (g : GEGLU.t).             (* GEGLU *)

(** [net = nn.Sequential(project_in, nn.Dropout(dropout), nn.Linear)]. *)
Record t : Type := mk
  { project_in : project_in_t
  ; dropout : R
  ; project_out : Linear.t
  }.

(** [FeedForward(dim, dim_out, mult, glu, dropout)]; [w1], [b1] are the
    parameters of the input projection and [w2], [b2] those of the output
    projection. *)
Definition init (dim : nat) (dim_out : option nat) (mult : nat) (glu : bool)
           (dropout : R) (w1 : nat -> nat -> R) (b1 : nat -> R)
           (w2 : nat -> nat -> R) (b2 : nat -> R) : t :=
  let dim_out := default dim_out (fun _ => dim) in
  let project_in :=
    if negb glu
    then LinearGELU (Linear.init dim (dim * mult) w1 (Some b1))
    else Gated (GEGLU.init dim (dim * mult) w1 b1) in
  {| project_in := project_in
   ; dropout := dropout
   ; project_out := Linear.init (dim * mult) dim_out w2 (Some b2) |}.

(** The first stage of [net] on one feature vector. *)
Definition project_in_forward {A : Type} `{Scalar A} (gelu : A -> A)
           (p : project_in_t) (x : list A) : list A :=
  match p with
  | LinearGELU lin => map gelu (Linear.forward lin x)
  | Gated g => GEGLU.forward gelu g x
  end.

(** [FeedForward.forward] on one feature vector, in inference mode:
    [nn.Dropout] is then the identity. *)
Definition forward {A : Type} `{Scalar A} (gelu : A -> A) (self : t) (x : list A)
  : list A :=
  Linear.forward (project_out self) (project_in_forward gelu (project_in self) x).

End FeedForward.

(** ** Attention *)

(** The exponential of a logit: [exp(-inf) = 0]. *)
Definition expl (l : logit) : R :=
  match l with
  | NegInf => 0%R
  | Fin r => exp r
  end.

Definition is_neginf (l : logit) : bool :=
  match l with
  | NegInf => true
  | Fin _ => false
  end.

(** Sum of a vector of reals. *)
Definition rsum (l : list R) : R := fold_right Rplus 0%R l.

(** [softmax] along one row of logits.  A row whose maximum is [-inf]
    (every logit is [-inf]) subtracts [-inf] from [-inf]: every weight of
    that row is NaN.  Otherwise the weights are [exp l / sum (exp l)]. *)
Definition softmax (row : list logit) : list fnum :=
  if forallb is_neginf row
  then map (fun _ => None) row
  else let e := map expl row in
       map (fun ei => Some (ei / rsum e)%R) e.

(** [Tensor.masked_fill_(mask, float('-inf'))] on a matrix, for a mask
    that has been brought to the shape of the matrix; the callers do the
    broadcasting, or raise when the mask does not fit. *)
Definition masked_fill_ (dots : list (list logit)) (mask : list (list bool))
  : list (list logit) :=
  zipWith (zipWith (fun d (m : bool) => if m then NegInf else d)) dots mask.

(** Broadcasting of one axis of a mask to [n] entries: an axis of [n]
    entries is kept, an axis of one entry is repeated; any other size does
    not fit ([RuntimeError]). *)
Definition expand {A : Type} (n : nat) (l : list A) : option (list A) :=
  if Nat.eqb (length l) n then Some l
  else match l with
       | [a] => Some (repeat a n)
       | _ => None
       end.

(** Broadcasting of a mask of two axes to the shape (b, n). *)
Definition expand2 {A : Type} (b n : nat) (m : list (list A))
  : option (list (list A)) :=
  match expand b m with
  | Some m => mapM (expand n) m
  | None => None
  end.

(** [torch.ones((n, n)).triu_(1).bool()]: true strictly above the
    diagonal. *)
Definition triu1 (n : nat) : list (list bool) :=
  map (fun i => map (fun j => Nat.leb (i + 1) j) (seq 0 n)) (seq 0 n).

Module Attention.

Record t : Type := mk
  { scale : R
  ; heads : nat
  ; causal : bool
  ; self_mask : option (list (list bool))   (* stored, never read *)
  ; to_q : Linear.t
  ; to_kv : Linear.t
  ; to_out : Linear.t
  }.

(** [Attention(dim, dim_head, heads, causal, mask)].  [None] is the
    [ZeroDivisionError] of [dim_head ** -0.5] at [dim_head = 0]. *)
Definition init (dim dim_head heads : nat) (causal : bool)
           (mask : option (list (list bool)))
           (wq wkv wout : nat -> nat -> R) (bout : nat -> R) : option t :=
  if Nat.eqb dim_head 0 then None
  else
    let inner_dim := (dim_head * heads)%nat in
    Some {| scale := Rpower (INR dim_head) (- (1 / 2))
          ; heads := heads
          ; causal := causal
          ; self_mask := mask
          ; to_q := Linear.init dim inner_dim wq None
          ; to_kv := Linear.init dim (inner_dim * 2) wkv None
          ; to_out := Linear.init inner_dim dim wout (Some bout) |}.

(** [rearrange(t, 'b n (h d) -> b h n d', h = h)], for a last axis of
    size [h * d]. *)
Definition split_heads {A : Type} (h d : nat) (t : list (list (list A)))
  : list (list (list (list A))) :=
  map (fun rows =>
         map (fun hh => map (fun row => firstn d (skipn (hh * d) row)) rows)
             (seq 0 h))
      t.

(** [rearrange(out, 'b h n d -> b n (h d)')], for [n] positions. *)
Definition merge_heads {A : Type} (n : nat) (t : list (list (list (list A))))
  : list (list (list A)) :=
  map (fun out_b => map (fun i => concat (map (fun out_h => nth i out_h []) out_b))
                        (seq 0 n))
      t.

(** The queries, keys and values, split into heads (lines 127-132). *)
Definition qkv (self : t) (x : list (list (list R)))
           (context : option (list (list (list R))))
  : list (list (list (list R))) * list (list (list (list R)))
    * list (list (list (list R))) :=
  let h := heads self in
  let kv_input := default context (fun _ => x) in
  let q := map (map (Linear.forward (to_q self))) x in
  let kv := map (map (fun r => chunk2 (Linear.forward (to_kv self) r))) kv_input in
  let k := map (map fst) kv in
  let v := map (map snd) kv in
  let lq := Linear.out_features (to_q self) in
  let lk := Nat.div (Linear.out_features (to_kv self) + 1) 2 in
  let lv := (Linear.out_features (to_kv self) - lk)%nat in
  (split_heads h (Nat.div lq h) q,
   split_heads h (Nat.div lk h) k,
   split_heads h (Nat.div lv h) v).

(** [einsum('b h i d, b h j d -> b h i j', q, k) * self.scale], followed by
    the optional relative position bias (lines 133-136). *)
Definition dots (self : t) (q k : list (list (list (list R))))
           (rel_pos : option RelativePositionBias.t)
  : option (list (list (list (list R)))) :=
  let dots :=
    zipWith (zipWith (fun qh kh =>
                        map (fun qi => map (fun kj => (dot qi kj * scale self)%R) kh)
                            qh))
            q k in
  match rel_pos with
  | Some rel_pos => RelativePositionBias.forward rel_pos dots
  | None => Some dots
  end.

(** The padding mask stage (lines 138-145) on logits of shape
    (b, h, i, j).  The product [q_mask * k_mask] and [masked_fill_]
    broadcast: a query mask fits when it has shape (b, i) up to axes of
    size one, a key mask when it has shape (b, j) up to axes of size one;
    [None] is the [RuntimeError] of a mask that does not fit. *)
Definition pad_mask_stage (b i j : nat)
           (mask context_mask : option (list (list bool)))
           (dots : list (list (list (list logit))))
  : option (list (list (list (list logit)))) :=
  if exists_ mask || exists_ context_mask then
    let q_mask := default mask (fun _ => repeat (repeat true i) b) in
    let k_mask := default context_mask (fun _ => repeat (repeat true j) b) in
    match expand2 b i q_mask, expand2 b j k_mask with
    | Some q_mask, Some k_mask =>
        let mask :=
          zipWith (fun qm km => map (fun qv => map (fun kv => qv && kv) km) qm)
                  q_mask k_mask in
        Some (zipWith (fun dots_b mask_b => map (fun d => masked_fill_ d mask_b) dots_b)
                      dots mask)
    | _, _ => None
    end
  else Some dots.

(** The causal mask stage (lines 147-150) on logits of shape (b, h, n, j).
    [masked_fill_] broadcasts the (n, n) mask to the logits: the mask fits
    when [j = n]; for [n = 1] its single column is repeated over the [j]
    keys; for any other [j] the call raises [RuntimeError] ([None]). *)
Definition causal_stage (self : t) (n j : nat)
           (dots : list (list (list (list logit))))
  : option (list (list (list (list logit)))) :=
  if causal self then
    let mask := triu1 n in
    if Nat.eqb n j
    then Some (map (map (fun d => masked_fill_ d mask)) dots)
    else if Nat.eqb n 1
    then let mask := map (fun row => repeat (hd false row) j) mask in
         Some (map (map (fun d => masked_fill_ d mask)) dots)
    else None
  else Some dots.

(** The logits that reach the softmax: scaled dot products, relative
    position bias, padding mask and causal mask (lines 126-150). *)
Definition logits (self : t) (x : list (list (list R)))
           (context : option (list (list (list R))))
           (mask context_mask : option (list (list bool)))
           (rel_pos : option RelativePositionBias.t)
  : option (list (list (list (list logit)))) :=
  let b := length x in
  let n := length (hd [] x) in
  let kv_input := default context (fun _ => x) in
  let '(q, k, v) := qkv self x context in
  let j := length (hd [] kv_input) in
  match dots self q k rel_pos with
  | None => None
  | Some dots =>
      let dots := map (map (map (map Fin))) dots in
      match pad_mask_stage b n j mask context_mask dots with
      | None => None
      | Some dots => causal_stage self n j dots
      end
  end.

(** The attention weights [attn = dots.softmax(dim = -1)] (line 152). *)
Definition attn (self : t) (x : list (list (list R)))
           (context : option (list (list (list R))))
           (mask context_mask : option (list (list bool)))
           (rel_pos : option RelativePositionBias.t)
  : option (list (list (list (list fnum)))) :=
  match logits self x context mask context_mask rel_pos with
  | None => None
  | Some dots => Some (map (map (map softmax)) dots)
  end.

(** [einsum('b h i j, b h j d -> b h i d', attn, v)], for values of
    width [d]. *)
Definition weighted_values (d : nat) (attn : list (list (list (list fnum))))
           (v : list (list (list (list R))))
  : list (list (list (list fnum))) :=
  zipWith (zipWith (fun ah vh =>
                      map (fun arow =>
                             map (fun dd => dot arow (map (fun vj => nth dd vj 0%R) vh))
                                 (seq 0 d))
                          ah))
          attn v.

(** [Attention.forward(x, context, mask, context_mask, rel_pos)]. *)
Definition forward (self : t) (x : list (list (list R)))
           (context : option (list (list (list R))))
           (mask context_mask : option (list (list bool)))
           (rel_pos : option RelativePositionBias.t)
  : option (list (list (list fnum))) :=
  let n := length (hd [] x) in
  let '(q, k, v) := qkv self x context in
  let lk := Nat.div (Linear.out_features (to_kv self) + 1) 2 in
  let lv := (Linear.out_features (to_kv self) - lk)%nat in
  match attn self x context mask context_mask rel_pos with
  | None => None
  | Some attn =>
      let out := weighted_values (Nat.div lv (heads self)) attn v in
      let out := merge_heads n out in
      Some (map (map (Linear.forward (to_out self))) out)
  end.

End Attention.

(** ** Sublayers and pre-normalisation

    The stacks hold their sublayers as module objects and call them with
    keyword arguments.  A sublayer is modelled as a function of the input
    and of the keyword arguments it is called with, in a monad [m] that
    carries the effects of a call: the identity monad for the plain forward
    pass, a state monad for a call recorder. *)

Record kwargs (T Mask RelPos : Type) : Type := mk_kwargs
  { kw_context : option T
  ; kw_mask : option Mask
  ; kw_context_mask : option Mask
  ; kw_rel_pos : option RelPos
  }.

Arguments mk_kwargs {T Mask RelPos}.
Arguments kw_context {T Mask RelPos}.
Arguments kw_mask {T Mask RelPos}.
Arguments kw_context_mask {T Mask RelPos}.
Arguments kw_rel_pos {T Mask RelPos}.

Definition sublayer (m : Type -> Type) (T Mask RelPos : Type) : Type :=
  T -> kwargs T Mask RelPos -> m T.

(** A call with no keyword argument. *)
Definition no_kwargs {T Mask RelPos : Type} : kwargs T Mask RelPos :=
  mk_kwargs None None None None.

Module PreNorm.

Record t (m : Type -> Type) (T Mask RelPos : Type) : Type := mk
  { fn : sublayer m T Mask RelPos
  ; norm : T -> T
  }.

Arguments mk {m T Mask RelPos}.
Arguments fn {m T Mask RelPos}.
Arguments norm {m T Mask RelPos}.

(** [PreNorm(dim, fn, norm_class)]. *)
Definition init {m : Type -> Type} {T Mask RelPos : Type} (dim : nat)
           (fn : sublayer m T Mask RelPos) (norm_class : nat -> T -> T)
  : t m T Mask RelPos :=
  {| fn := fn; norm := norm_class dim |}.

(** [PreNorm.forward(x, **kwargs)]. *)
Definition forward {m : Type -> Type} {T Mask RelPos : Type}
           (self : t m T Mask RelPos) (x : T) (kw : kwargs T Mask RelPos) : m T :=
  let x := norm self x in
  fn self x kw.

End PreNorm.

(** ** Encoder *)

Module Encoder.

Record t (m : Type -> Type) (T Mask RelPos : Type) : Type := mk
  { dim : nat
  ; layers : list (PreNorm.t m T Mask RelPos * PreNorm.t m T Mask RelPos)
  ; rel_pos : option RelPos
  }.

Arguments mk {m T Mask RelPos}.
Arguments dim {m T Mask RelPos}.
Arguments layers {m T Mask RelPos}.
Arguments rel_pos {m T Mask RelPos}.

(** [Encoder(dim, depth, ..., rel_pos_bias)].  [attention l] and
    [feed_forward l] are the [Attention] and [FeedForward] modules built in
    iteration [l] of the constructor's loop, [norm_class] the chosen
    normalisation and [relative_position_bias] the module
    [RelativePositionBias(causal = True)]. *)
Definition init {m : Type -> Type} {T Mask RelPos : Type} (dim depth : nat)
           (rel_pos_bias : bool) (relative_position_bias : RelPos)
           (norm_class : nat -> T -> T)
           (attention feed_forward : nat -> sublayer m T Mask RelPos)
  : t m T Mask RelPos :=
  let prenorm_fn := fun fn => PreNorm.init dim fn norm_class in
  {| dim := dim
   ; layers := map (fun l => (prenorm_fn (attention l), prenorm_fn (feed_forward l)))
                   (seq 0 depth)
   ; rel_pos := if rel_pos_bias then Some relative_position_bias else None |}.

(** The loop of [Encoder.forward] over the remaining layers. *)
Fixpoint forward_loop {m : Type -> Type} `{Monad m} {T Mask RelPos : Type}
         (add : T -> T -> T)
         (layers : list (PreNorm.t m T Mask RelPos * PreNorm.t m T Mask RelPos))
         (rel_pos : option RelPos) (mask : option Mask) (x : T) : m T :=
  match layers with
  | [] => ret x
  | (self_attn, ff) :: layers' =>
      a <- PreNorm.forward self_attn x (mk_kwargs None mask None rel_pos) ;;
      let x := add a x in
      f <- PreNorm.forward ff x no_kwargs ;;
      let x := add f x in
      forward_loop add layers' rel_pos mask x
  end.

(** [Encoder.forward(x, context, mask)]; [add] is the addition of
    tensors. *)
Definition forward {m : Type -> Type} `{Monad m} {T Mask RelPos : Type}
           (add : T -> T -> T) (self : t m T Mask RelPos)
           (x : T) (context : option T) (mask : option Mask) : m T :=
  forward_loop add (layers self) (rel_pos self) mask x.

End Encoder.

(** ** Decoder *)

Module Decoder.

Record t (m : Type -> Type) (T Mask RelPos : Type) : Type := mk
  { dim : nat
  ; layers : list (PreNorm.t m T Mask RelPos
                   * option (PreNorm.t m T Mask RelPos)
                   * PreNorm.t m T Mask RelPos)
  ; rel_pos : option RelPos
  }.

Arguments mk {m T Mask RelPos}.
Arguments dim {m T Mask RelPos}.
Arguments layers {m T Mask RelPos}.
Arguments rel_pos {m T Mask RelPos}.

(** [Decoder(dim, depth, ..., cross_attend, ..., rel_pos_bias)].
    [self_attention l] is the module [Attention(..., causal = True)] of
    iteration [l], [cross_attention l] the module [Attention(...)] built
    when [cross_attend] holds. *)
Definition init {m : Type -> Type} {T Mask RelPos : Type} (dim depth : nat)
           (cross_attend : bool)
           (rel_pos_bias : bool) (relative_position_bias : RelPos)
           (norm_class : nat -> T -> T)
           (self_attention cross_attention feed_forward
            : nat -> sublayer m T Mask RelPos)
  : t m T Mask RelPos :=
  let prenorm_fn := fun fn => PreNorm.init dim fn norm_class in
  {| dim := dim
   ; layers := map (fun l => (prenorm_fn (self_attention l),
                              if cross_attend
                              then Some (prenorm_fn (cross_attention l))
                              else None,
                              prenorm_fn (feed_forward l)))
                   (seq 0 depth)
   ; rel_pos := if rel_pos_bias then Some relative_position_bias else None |}.

(** The loop of [Decoder.forward] over the remaining layers. *)
Fixpoint forward_loop {m : Type -> Type} `{Monad m} {T Mask RelPos : Type}
         (add : T -> T -> T)
         (layers : list (PreNorm.t m T Mask RelPos
                         * option (PreNorm.t m T Mask RelPos)
                         * PreNorm.t m T Mask RelPos))
         (rel_pos : option RelPos)
         (context : option T) (mask context_mask : option Mask) (x : T) : m T :=
  match layers with
  | [] => ret x
  | (self_attn, cross_attn, ff) :: layers' =>
      a <- PreNorm.forward self_attn x (mk_kwargs None None None rel_pos) ;;
      let x := add a x in
      let rest := fun x =>
        f <- PreNorm.forward ff x no_kwargs ;;
        let x := add f x in
        forward_loop add layers' rel_pos context mask context_mask x in
      match cross_attn with
      | Some cross_attn =>
          c <- PreNorm.forward cross_attn x
                 (mk_kwargs context mask context_mask None) ;;
          rest (add c x)
      | None => rest x
      end
  end.

(** [Decoder.forward(x, context, mask, context_mask)]. *)
Definition forward {m : Type -> Type} `{Monad m} {T Mask RelPos : Type}
           (add : T -> T -> T) (self : t m T Mask RelPos)
           (x : T) (context : option T) (mask context_mask : option Mask) : m T :=
  forward_loop add (layers self) (rel_pos self) context mask context_mask x.

End Decoder.

(** ** Recording sublayer calls *)

Inductive call_tag : Type := SelfAttn | CrossAttn | FF.

(** A recorded call: which sublayer, and the keyword arguments it got. *)
Definition call (T Mask RelPos : Type) : Type :=
  (call_tag * kwargs T Mask RelPos)%type.

(** A sublayer of the plain forward pass. *)
Definition pure_sublayer {T Mask RelPos : Type} (f : T -> kwargs T Mask RelPos -> T)
  : sublayer ident T Mask RelPos :=
  fun x kw => ret (f x kw).

(** The same sublayer with a recorder in front: each call appends its tag
    and keyword arguments to the log, then computes what [f] computes. *)
Definition recorded {T Mask RelPos : Type} (tag : call_tag)
           (f : T -> kwargs T Mask RelPos -> T)
  : sublayer (state (list (call T Mask RelPos))) T Mask RelPos :=
  fun x kw =>
    log <- get ;;
    put (log ++ [(tag, kw)]) ;;
    ret (f x kw).

(** ** Notions used by the statements *)

(** The real number that [_relative_position_bucket] converts with
    [.long()], for a magnitude [n] ([nb] is the bucket count after the
    causal halving). *)
Definition log_ratio (nb max_distance n : Z) : R :=
  (ln (IZR n / IZR (nb / 2)) / ln (IZR max_distance / IZR (nb / 2))
   * IZR (nb - nb / 2))%R.

(** The part of a bucket index that depends on the magnitude [n]. *)
Definition magnitude_bucket (nb max_distance n : Z) : Z :=
  if n <? nb / 2 then n
  else Z.min (nb / 2 + long (log_ratio nb max_distance n)) (nb - 1).

(** Valid bucketing parameters: at least one exact bucket per half
    ([max_exact >= 1]) and a maximal distance beyond the exact range
    ([max_distance > max_exact]), so that the logarithmic scale
    [log(max_distance / max_exact)] is positive. *)
Definition valid_buckets (causal : bool) (num_buckets max_distance : Z) : Prop :=
  let nb := RelativePositionBias.half_buckets causal num_buckets in
  1 <= nb / 2 /\ nb / 2 < max_distance.


(** The calls one encoder layer makes, in order. *)
Definition encoder_layer_tags : list call_tag := [SelfAttn; FF].

(** The calls one decoder layer makes, in order. *)
Definition decoder_layer_tags (cross_attend : bool) : list call_tag :=
  if cross_attend then [SelfAttn; CrossAttn; FF] else [SelfAttn; FF].

(** What a recorded decoder call was given, by kind of sublayer. *)
Definition decoder_call_ok {T Mask RelPos : Type} (rel_pos : option RelPos)
           (context : option T) (mask context_mask : option Mask)
           (c : call T Mask RelPos) : Prop :=
  snd c = match fst c with
          | SelfAttn => mk_kwargs None None None rel_pos
          | CrossAttn => mk_kwargs context mask context_mask None
          | FF => no_kwargs
          end.

Definition call_tag_eq_dec (a b : call_tag) : {a = b} + {a <> b}.
Proof. decide equality. Defined.

(** A smooth stand-in for [F.gelu] on the reals (the sigmoid form), used to
    instantiate statements that are generic in the activation. *)
Definition gelu_sigmoid (x : R) : R := (x / (1 + exp (- (1702 / 1000) * x)))%R.

(** A tensor of shape (b, n): [b] rows of [n] entries. *)
Definition has_shape2 {A : Type} (b n : nat) (t : list (list A)) : Prop :=
  length t = b /\ Forall (fun r => length r = n) t.

(** A tensor of shape (b, n, d). *)
Definition has_shape3 {A : Type} (b n d : nat) (t : list (list (list A))) : Prop :=
  length t = b /\ Forall (has_shape2 n d) t.

(** Well-shaped arguments of [Attention.forward]: [x] of shape (b, n, dim),
    a context of shape (b, j, dim) (or none, and then [j = n]), a query mask
    of shape (b, n) and a key mask of shape (b, j). *)
Definition valid_call (b n j dim : nat) (x : list (list (list R)))
           (context : option (list (list (list R))))
           (mask context_mask : option (list (list bool))) : Prop :=
  has_shape3 b n dim x
  /\ match context with
     | Some c => has_shape3 b j dim c
     | None => j = n
     end
  /\ match mask with
     | Some m => has_shape2 b n m
     | None => True
     end
  /\ match context_mask with
     | Some m => has_shape2 b j m
     | None => True
     end.

(** The causal mask stage when the mask fits the logits as it is
    ([j = n]). *)
Definition fitting_causal_stage (self : Attention.t) (n : nat)
           (dots : list (list (list (list logit))))
  : list (list (list (list logit))) :=
  if Attention.causal self
  then map (map (fun d => masked_fill_ d (triu1 n))) dots
  else dots.

(** The padding mask stage for masks that fit the logits as they are: a
    query mask of shape (b, i) and a key mask of shape (b, j). *)
Definition fitting_pad_mask_stage (b i j : nat)
           (mask context_mask : option (list (list bool)))
           (dots : list (list (list (list logit))))
  : list (list (list (list logit))) :=
  if exists_ mask || exists_ context_mask then
    let q_mask := default mask (fun _ => repeat (repeat true i) b) in
    let k_mask := default context_mask (fun _ => repeat (repeat true j) b) in
    let mask :=
      zipWith (fun qm km => map (fun qv => map (fun kv => qv && kv) km) qm)
              q_mask k_mask in
    zipWith (fun dots_b mask_b => map (fun d => masked_fill_ d mask_b) dots_b)
            dots mask
  else dots.

(** A relative position bias that fits an attention module with [heads]
    heads: none, or a table of [num_buckets] rows with one entry per head
    and valid bucketing parameters at the default [max_distance]. *)
Definition bias_fits (heads : nat) (rel_pos : option RelativePositionBias.t) : Prop :=
  match rel_pos with
  | None => True
  | Some rp =>
      valid_buckets (RelativePositionBias.causal rp) (RelativePositionBias.num_buckets rp)
                    RelativePositionBias.default_max_distance
      /\ Z.of_nat (length (RelativePositionBias.relative_attention_bias rp))
         = RelativePositionBias.num_buckets rp
      /\ Forall (fun row => length row = heads)
                (RelativePositionBias.relative_attention_bias rp)
  end.






(** The calls one encoder layer makes, with their keyword arguments. *)
Definition encoder_layer_calls {T Mask RelPos : Type}
           (rel_pos : option RelPos) (mask : option Mask)
  : list (call T Mask RelPos) :=
  [(SelfAttn, mk_kwargs None mask None rel_pos); (FF, no_kwargs)].

(** The calls one decoder layer makes, with their keyword arguments. *)
Definition decoder_layer_calls {T Mask RelPos : Type} (cross_attend : bool)
           (rel_pos : option RelPos) (context : option T)
           (mask context_mask : option Mask)
  : list (call T Mask RelPos) :=
  (SelfAttn, mk_kwargs None None None rel_pos)
  :: (if cross_attend
      then [(CrossAttn, mk_kwargs context mask context_mask None)]
      else [])
  ++ [(FF, no_kwargs)].

(** A tensor of shape (b, h, i, j). *)
Definition has_shape4 {A : Type} (b h i j : nat) (t : list (list (list (list A))))
  : Prop :=
  length t = b /\ Forall (has_shape3 h i j) t.

(** A row of logits whose first key, if there is one, is not masked. *)
Definition first_key_open (row : list logit) : Prop :=
  row = [] \/ exists r rest, row = Fin r :: rest.

(** A tensor with [b] batch elements of [h] heads of [n] rows each (rows of
    any width). *)
Definition heads_shape {A : Type} (b h n : nat) (t : list (list (list (list A))))
  : Prop :=
  length t = b
  /\ Forall (fun tb => length tb = h /\ Forall (fun th => length th = n) tb) t.

(** ** Sequence wrappers *)

(** Elementwise sum of two tensors of shape (b, n, d). *)
Definition tensor3_add (s t : list (list (list R))) : list (list (list R)) :=
  zipWith (zipWith (zipWith Rplus)) s t.

(** An [Encoder] as the [attn_layers] of a wrapper: called with the
    keyword arguments [Encoder.forward] accepts, [context] and [mask]. *)
Definition encoder_layers {m : Type -> Type} `{Monad m} {Mask RelPos : Type}
           (enc : Encoder.t m (list (list (list R))) Mask RelPos)
  : sublayer m (list (list (list R))) Mask RelPos :=
  fun x kw => Encoder.forward tensor3_add enc x (kw_context kw) (kw_mask kw).

(** A [Decoder] as the [attn_layers] of a wrapper. *)
Definition decoder_layers {m : Type -> Type} `{Monad m} {Mask RelPos : Type}
           (dec : Decoder.t m (list (list (list R))) Mask RelPos)
  : sublayer m (list (list (list R))) Mask RelPos :=
  fun x kw => Decoder.forward tensor3_add dec x (kw_context kw) (kw_mask kw)
                              (kw_context_mask kw).

Module TransformerWrapper.

Record t (m : Type -> Type) (Mask RelPos : Type) : Type := mk
  { max_seq_len : nat
  ; token_emb : list (list R)          (* num_tokens x dim *)
  ; pos_emb : list (list R)            (* max_seq_len x dim *)
  ; attn_layers : sublayer m (list (list (list R))) Mask RelPos
  ; norm : list R -> list R            (* nn.LayerNorm(dim), on the last axis *)
  }.

Arguments mk {m Mask RelPos}.
Arguments max_seq_len {m Mask RelPos}.
Arguments token_emb {m Mask RelPos}.
Arguments pos_emb {m Mask RelPos}.
Arguments attn_layers {m Mask RelPos}.
Arguments norm {m Mask RelPos}.

(** [TransformerWrapper(num_tokens, max_seq_len, attn_layers)]; [dim] is
    [attn_layers.dim], [tok] and [pos] give the values of the two embedding
    tables and [layer_norm] is [nn.LayerNorm]. *)
Definition init {m : Type -> Type} {Mask RelPos : Type}
           (num_tokens max_seq_len dim : nat)
           (attn_layers : sublayer m (list (list (list R))) Mask RelPos)
           (layer_norm : nat -> list R -> list R)
           (tok pos : nat -> nat -> R) : t m Mask RelPos :=
  {| max_seq_len := max_seq_len
   ; token_emb := map (fun k => map (tok k) (seq 0 dim)) (seq 0 num_tokens)
   ; pos_emb := map (fun k => map (pos k) (seq 0 dim)) (seq 0 max_seq_len)
   ; attn_layers := attn_layers
   ; norm := layer_norm dim |}.

(** [to_logits = lambda t: t @ self.token_emb.weight.t()]. *)
Definition to_logits {m : Type -> Type} {Mask RelPos : Type}
           (self : t m Mask RelPos) (x : list (list (list R)))
  : list (list (list R)) :=
  map (map (fun r => map (dot r) (token_emb self))) x.

(** The embedded input of [forward] (lines 274-276): token embeddings plus
    position embeddings.  [None] is the [IndexError] of a lookup outside a
    table. *)
Definition embed {m : Type -> Type} {Mask RelPos : Type}
           (self : t m Mask RelPos) (x : list (list Z))
  : option (list (list (list R))) :=
  let n := length (hd [] x) in
  match mapM (mapM (RelativePositionBias.embedding (token_emb self))) x with
  | None => None
  | Some e =>
      match mapM (RelativePositionBias.embedding (pos_emb self)) (arange n) with
      | None => None
      | Some p => Some (map (fun e_b => zipWith (zipWith Rplus) e_b p) e)
      end
  end.

(** [TransformerWrapper.forward(x, return_embeddings, **kwargs)]. *)
Definition forward {m : Type -> Type} `{Monad m} {Mask RelPos : Type}
           (self : t m Mask RelPos) (x : list (list Z)) (return_embeddings : bool)
           (kw : kwargs (list (list (list R))) Mask RelPos)
  : m (option (list (list (list R)))) :=
  match embed self x with
  | None => ret None
  | Some x =>
      x <- attn_layers self x kw ;;
      let x := map (map (norm self)) x in
      if return_embeddings then ret (Some x)
      else ret (Some (to_logits self x))
  end.

End TransformerWrapper.

Module XTransformer.

Record t (m : Type -> Type) (Mask RelPos : Type) : Type := mk
  { encoder : TransformerWrapper.t m Mask RelPos
  ; decoder : TransformerWrapper.t m Mask RelPos
  }.

Arguments mk {m Mask RelPos}.
Arguments encoder {m Mask RelPos}.
Arguments decoder {m Mask RelPos}.

(** [XTransformer(num_tokens, dim, depth, max_seq_len, heads)] without
    [return_tgt_loss].  [Encoder(dim, depth, heads)] and
    [Decoder(dim, depth, heads, cross_attend = True)] bind their third
    positional argument, [dim_head], to [heads] and keep the default of 8
    heads; [attention dim dim_head heads causal l] is the module
    [Attention(dim, dim_head, heads, causal)] of layer [l], [feed_forward
    dim l] the module [FeedForward(dim)].  The stacks use [nn.LayerNorm]
    and no relative position bias; [no_rel_pos] is never read. *)
Definition init {m : Type -> Type} `{Monad m} {Mask RelPos : Type}
           (num_tokens dim depth max_seq_len heads : nat)
           (no_rel_pos : RelPos)
           (layer_norm : nat -> list R -> list R)
           (enc_attention dec_attention cross_attention
            : nat -> nat -> nat -> bool -> nat
              -> sublayer m (list (list (list R))) Mask RelPos)
           (enc_feed_forward dec_feed_forward
            : nat -> nat -> sublayer m (list (list (list R))) Mask RelPos)
           (enc_tok enc_pos dec_tok dec_pos : nat -> nat -> R) : t m Mask RelPos :=
  let norm_class := fun d x => map (map (layer_norm d)) x in
  {| encoder :=
       TransformerWrapper.init num_tokens max_seq_len dim
         (encoder_layers
            (Encoder.init dim depth false no_rel_pos norm_class
               (enc_attention dim heads 8%nat false) (enc_feed_forward dim)))
         layer_norm enc_tok enc_pos
   ; decoder :=
       TransformerWrapper.init num_tokens max_seq_len dim
         (decoder_layers
            (Decoder.init dim depth true false no_rel_pos norm_class
               (dec_attention dim heads 8%nat true) (cross_attention dim heads 8%nat false)
               (dec_feed_forward dim)))
         layer_norm dec_tok dec_pos |}.

(** [XTransformer.forward(src, tgt, src_mask, tgt_mask)]. *)
Definition forward {m : Type -> Type} `{Monad m} {Mask RelPos : Type}
           (self : t m Mask RelPos) (src tgt : list (list Z))
           (src_mask tgt_mask : option Mask)
  : m (option (list (list (list R)))) :=
  enc <- TransformerWrapper.forward (encoder self) src true
           (mk_kwargs None src_mask None None) ;;
  match enc with
  | None => ret None
  | Some enc =>
      TransformerWrapper.forward (decoder self) tgt false
        (mk_kwargs (Some enc) tgt_mask src_mask None)
  end.

End XTransformer.

(** Token ids a wrapper can embed: every id inside the token table and a
    sequence no longer than the position table. *)
Definition embeddable (num_tokens max_seq_len : nat) (x : list (list Z)) : Prop :=
  Forall (Forall (fun t => (0 <= t < Z.of_nat num_tokens)%Z)) x
  /\ (length (hd [] x) <= max_seq_len)%nat.



(** ** The image wrapper *)

(** [rearrange(img, 'b c (h p1) (w p2) -> b (h w) (p1 p2 c)', p1 = p, p2 = p)]
    for an image batch of shape (b, c, H, W).  [None] is the error einops
    raises when [p] does not divide both [H] and [W]. *)
Definition patches (p : nat) (img : list (list (list (list R))))
  : option (list (list (list R))) :=
  let c := length (hd [] img) in
  let H := length (hd [] (hd [] img)) in
  let W := length (hd [] (hd [] (hd [] img))) in
  if Nat.eqb p 0 || negb (Nat.eqb (Nat.modulo H p) 0)
     || negb (Nat.eqb (Nat.modulo W p) 0)
  then None
  else
    Some (map (fun img_b =>
                 flat_map (fun hi =>
                   map (fun wi =>
                     flat_map (fun p1 =>
                       flat_map (fun p2 =>
                         map (fun ch =>
                                nth (wi * p + p2)
                                    (nth (hi * p + p1) (nth ch img_b []) []) 0%R)
                             (seq 0 c))
                         (seq 0 p))
                       (seq 0 p))
                     (seq 0 (Nat.div W p)))
                   (seq 0 (Nat.div H p)))
              img).

Module ViTransformerWrapper.

Record t (m : Type -> Type) (Mask RelPos : Type) : Type := mk
  { patch_size : nat
  ; pos_embedding : list (list R)      (* (num_patches + 1) x dim *)
  ; patch_to_embedding : Linear.t
  ; cls_token : list R                 (* dim *)
  ; attn_layers : sublayer m (list (list (list R))) Mask RelPos
  ; norm : list R -> list R            (* nn.LayerNorm(dim), on the last axis *)
  ; mlp_head : option FeedForward.t
  }.

Arguments mk {m Mask RelPos}.
Arguments patch_size {m Mask RelPos}.
Arguments pos_embedding {m Mask RelPos}.
Arguments patch_to_embedding {m Mask RelPos}.
Arguments cls_token {m Mask RelPos}.
Arguments attn_layers {m Mask RelPos}.
Arguments norm {m Mask RelPos}.
Arguments mlp_head {m Mask RelPos}.

(** [ViTransformerWrapper(image_size, patch_size, attn_layers, num_classes,
    dropout)]; [dim] is [attn_layers.dim].  [None] is the
    [ZeroDivisionError] of [image_size % patch_size] at [patch_size = 0] or
    the [AssertionError] of line 214.  [pos], [w], [bias] and [cls] give the
    values of the parameters, [w1] to [b2] those of the classification
    head. *)
Definition init {m : Type -> Type} {Mask RelPos : Type}
           (image_size patch_size dim : nat)
           (attn_layers : sublayer m (list (list (list R))) Mask RelPos)
           (num_classes : option nat) (dropout : R)
           (layer_norm : nat -> list R -> list R)
           (pos : nat -> nat -> R) (w : nat -> nat -> R) (bias : nat -> R)
           (cls : nat -> R)
           (w1 : nat -> nat -> R) (b1 : nat -> R) (w2 : nat -> nat -> R) (b2 : nat -> R)
  : option (t m Mask RelPos) :=
  if Nat.eqb patch_size 0 then None
  else if negb (Nat.eqb (Nat.modulo image_size patch_size) 0) then None
  else
    let num_patches := Nat.pow (Nat.div image_size patch_size) 2 in
    let patch_dim := (3 * Nat.pow patch_size 2)%nat in
    Some {| patch_size := patch_size
          ; pos_embedding :=
              map (fun k => map (pos k) (seq 0 dim)) (seq 0 (num_patches + 1))
          ; patch_to_embedding := Linear.init patch_dim dim w (Some bias)
          ; cls_token := map cls (seq 0 dim)
          ; attn_layers := attn_layers
          ; norm := layer_norm dim
          ; mlp_head :=
              match num_classes with
              | Some _ =>
                  Some (FeedForward.init dim num_classes 4 false dropout w1 b1 w2 b2)
              | None => None
              end |}.

(** The input of the layers (lines 231-239): the embedded patches behind
    the class token, plus the position embeddings. *)
Definition embed {m : Type -> Type} {Mask RelPos : Type}
           (self : t m Mask RelPos) (img : list (list (list (list R))))
  : option (list (list (list R))) :=
  let p := patch_size self in
  match patches p img with
  | None => None
  | Some x =>
      let x := map (map (Linear.forward (patch_to_embedding self))) x in
      let b := length x in
      let n := length (hd [] x) in
      let cls_tokens := repeat [cls_token self] b in
      let x := zipWith (@app (list R)) cls_tokens x in
      Some (map (fun x_b =>
                   zipWith (zipWith Rplus) x_b (firstn (n + 1) (pos_embedding self)))
                x)
  end.

(** [x[:, 0]]: position 0 of every sequence; [None] is the [IndexError]
    on sequences without positions. *)
Definition first_position (x : list (list (list R))) : option (list (list R)) :=
  mapM (fun x_b => match x_b with
                   | [] => None
                   | r :: _ => Some r
                   end) x.

(** [ViTransformerWrapper.forward(img)], in inference mode: the sequence
    of shape (b, n + 1, dim), or with a classification head its value on
    position 0 of every sequence. *)
Definition forward {m : Type -> Type} `{Monad m} {Mask RelPos : Type}
           (gelu : R -> R) (self : t m Mask RelPos)
           (img : list (list (list (list R))))
  : m (option (list (list (list R)) + list (list R))) :=
  match embed self img with
  | None => ret None
  | Some x =>
      x <- attn_layers self x no_kwargs ;;
      let x := map (map (norm self)) x in
      match mlp_head self with
      | None => ret (Some (inl x))
      | Some head =>
          match first_position x with
          | None => ret None
          | Some x0 => ret (Some (inr (map (FeedForward.forward gelu head) x0)))
          end
      end
  end.

End ViTransformerWrapper.

(** ** The stacks as the specification describes them

    The reference the loops of [Encoder.forward] and [Decoder.forward] are
    compared with: layers [0] to [depth - 1], applied in this order, each a
    sequence of residual applications of pre-normalised sublayers. *)

(** One residual application of a pre-normalised sublayer:
    [fn(norm(x)) + x]. *)
Definition spec_residual {T : Type} (add : T -> T -> T) (norm : T -> T)
           (fn : T -> T) (x : T) : T :=
  add (fn (norm x)) x.

(** An encoder layer: residual self-attention, then residual
    feed-forward. *)
Definition spec_encoder_layer {T Mask RelPos : Type} (add : T -> T -> T) (norm : T -> T)
           (attention feed_forward : nat -> T -> kwargs T Mask RelPos -> T)
           (rel_pos : option RelPos) (mask : option Mask) (l : nat) (x : T) : T :=
  let x := spec_residual add norm
             (fun y => attention l y (mk_kwargs None mask None rel_pos)) x in
  spec_residual add norm (fun y => feed_forward l y no_kwargs) x.

(** A decoder layer: residual self-attention, residual cross-attention
    when the decoder cross-attends, then residual feed-forward. *)
Definition spec_decoder_layer {T Mask RelPos : Type} (add : T -> T -> T) (norm : T -> T)
           (cross_attend : bool)
           (attention cross_attention feed_forward : nat -> T -> kwargs T Mask RelPos -> T)
           (rel_pos : option RelPos) (context : option T)
           (mask context_mask : option Mask) (l : nat) (x : T) : T :=
  let x := spec_residual add norm
             (fun y => attention l y (mk_kwargs None None None rel_pos)) x in
  let x := if cross_attend
           then spec_residual add norm
                  (fun y => cross_attention l y
                              (mk_kwargs context mask context_mask None)) x
           else x in
  spec_residual add norm (fun y => feed_forward l y no_kwargs) x.

(** The layers [0] to [d - 1] applied in this order: layer [d - 1] is the
    last one. *)
Fixpoint spec_stack {T : Type} (layer : nat -> T -> T) (d : nat) (x : T) : T :=
  match d with
  | O => x
  | S d' => layer d' (spec_stack layer d' x)
  end.

(** * Properties *)

(** ** Relative position buckets *)

Section BucketFacts.

Import RelativePositionBias.

Lemma long_nonneg (r : R) : (0 <= r)%R -> 0 <= long r.
Proof.
  intros Hr. unfold long.
  destruct (Rlt_dec r 0) as [Hlt | _]; [lra |].
  apply Zfloor_lub. simpl. exact Hr.
Qed.


Lemma ln_le_mono (x y : R) : (0 < x)%R -> (x <= y)%R -> (ln x <= ln y)%R.
Proof.
  intros Hx [Hlt | ->]; [| lra].
  left. now apply ln_increasing.
Qed.

(** Beyond the exact range the converted value is non-negative and grows
    with the magnitude. *)
Lemma log_ratio_mono nb md n1 n2 :
  1 <= nb / 2 -> nb / 2 < md -> nb / 2 <= n1 -> n1 <= n2 ->
  (0 <= log_ratio nb md n1 <= log_ratio nb md n2)%R.
Proof.
  intros Hme Hmd Hn1 Hn12. unfold log_ratio.
  set (me := nb / 2) in *.
  assert (Hme' : (1 <= IZR me)%R) by now apply IZR_le.
  assert (Hmd' : (IZR me < IZR md)%R) by now apply IZR_lt.
  assert (Hn1' : (IZR me <= IZR n1)%R) by now apply IZR_le.
  assert (Hn12' : (IZR n1 <= IZR n2)%R) by now apply IZR_le.
  assert (Hnb : (0 <= IZR (nb - me))%R).
  { apply IZR_le. subst me. pose proof (Z.mul_div_le nb 2). lia. }
  assert (Hq1 : (1 <= IZR n1 / IZR me)%R).
  { apply (Rmult_le_reg_r (IZR me)); [lra |]. field_simplify; lra. }
  assert (Hq12 : (IZR n1 / IZR me <= IZR n2 / IZR me)%R).
  { unfold Rdiv. apply Rmult_le_compat_r; [| lra].
    left. apply Rinv_0_lt_compat. lra. }
  assert (Hd : (0 < ln (IZR md / IZR me))%R).
  { rewrite <- ln_1. apply ln_increasing; [lra |].
    apply (Rmult_lt_reg_r (IZR me)); [lra |]. field_simplify; lra. }
  assert (Hl1 : (0 <= ln (IZR n1 / IZR me))%R).
  { rewrite <- ln_1. apply ln_le_mono; lra. }
  assert (Hl12 : (ln (IZR n1 / IZR me) <= ln (IZR n2 / IZR me))%R).
  { apply ln_le_mono; lra. }
  assert (Hi : (0 < / ln (IZR md / IZR me))%R) by now apply Rinv_0_lt_compat.
  unfold Rdiv at 1 3 5. split.
  - apply Rmult_le_pos; [apply Rmult_le_pos |]; lra.
  - apply Rmult_le_compat_r; [lra |].
    apply Rmult_le_compat_r; lra.
Qed.

(** Away from [-2^63], [bucket_elt] is the half offset plus the magnitude
    bucket. *)
Lemma bucket_elt_unfold causal nb md rel :
  rel <> int64_min ->
  bucket_elt causal nb md rel =
  (if causal then (if - rel <? 0 then nb else 0) else 0)
  + magnitude_bucket nb md (if causal then Z.abs (- rel) else Z.max (- rel) 0).
Proof.
  intros Hrel. unfold bucket_elt, magnitude_bucket, log_ratio.
  destruct (Z.eqb_spec rel int64_min) as [E | _]; [contradiction |].
  destruct causal; cbn [fst snd]; [destruct (- rel <? 0) |]; f_equal; lia.
Qed.

(** At [-2^63] the negation wraps around: the causal mode adds the wrapped
    value to the future half, the non-causal mode clamps it to 0. *)
Lemma bucket_elt_int64_min causal nb md :
  1 <= nb / 2 ->
  bucket_elt causal nb md int64_min = if causal then nb + int64_min else 0.
Proof.
  intros Hme. unfold bucket_elt. rewrite Z.eqb_refl.
  destruct causal; cbn [fst snd].
  - change (int64_min <? 0) with true.
    destruct (Z.ltb_spec int64_min (nb / 2)) as [_ | H];
      [lia | unfold int64_min in H; lia].
  - change (Z.max int64_min 0) with 0.
    destruct (Z.ltb_spec 0 (nb / 2)) as [_ | H]; lia.
Qed.

Lemma magnitude_bucket_range nb md n :
  1 <= nb / 2 -> nb / 2 < md -> 0 <= n ->
  0 <= magnitude_bucket nb md n < nb.
Proof.
  intros Hme Hmd Hn. unfold magnitude_bucket.
  pose proof (Z.mul_div_le nb 2 ltac:(lia)) as Hhalf.
  destruct (Z.ltb_spec n (nb / 2)) as [Hs | Hl]; [lia |].
  pose proof (log_ratio_mono nb md n n Hme Hmd Hl (Z.le_refl n)) as [H0 _].
  apply long_nonneg in H0. lia.
Qed.


(** Every element lands in [[0, num_buckets)], except the offset [-2^63]
    in causal mode. *)
Lemma bucket_elt_range causal num_buckets md rel :
  valid_buckets causal num_buckets md ->
  (causal = true -> rel <> int64_min) ->
  0 <= bucket_elt causal (half_buckets causal num_buckets) md rel < num_buckets.
Proof.
  intros [Hme Hmd] Hrel.
  destruct (Z.eq_dec rel int64_min) as [-> | Hne].
  { rewrite bucket_elt_int64_min by exact Hme.
    destruct causal; [now specialize (Hrel eq_refl) |].
    cbn [half_buckets] in *.
    pose proof (Z.mul_div_le num_buckets 2 ltac:(lia)). lia. }
  rewrite bucket_elt_unfold by exact Hne.
  set (nb := half_buckets causal num_buckets) in *.
  assert (Hnb : (if causal then 2 * nb else nb) <= num_buckets).
  { subst nb. unfold half_buckets. destruct causal; [| lia].
    apply Z.mul_div_le. lia. }
  pose proof (Z.mul_div_le nb 2 ltac:(lia)) as Hhalf.
  match goal with
  | |- context [magnitude_bucket nb md ?n] =>
      assert (Hn : 0 <= n) by (destruct causal; lia);
      pose proof (magnitude_bucket_range nb md n Hme Hmd Hn)
  end.
  destruct causal; [destruct (- rel <? 0) |]; lia.
Qed.

(** On valid parameters the bucketing function raises no exception. *)
Lemma bucket_defined rel causal num_buckets md :
  valid_buckets causal num_buckets md ->
  _relative_position_bucket rel causal num_buckets md =
  Some (map (map (bucket_elt causal (half_buckets causal num_buckets) md)) rel).
Proof.
  intros [Hme Hmd]. unfold _relative_position_bucket.
  destruct (Z.eqb_spec (half_buckets causal num_buckets / 2) 0) as [E | _]; [lia |].
  destruct (Z.leb_spec (md * (half_buckets causal num_buckets / 2)) 0) as [E | _];
    [nia | reflexivity].
Qed.







End BucketFacts.

(** ** The configured [max_distance] *)

Section MaxDistanceFacts.

Import RelativePositionBias.

Lemma ln_16 : (ln 16 = 2 * ln 4)%R.
Proof.
  replace 16%R with (4 * 4)%R by lra.
  rewrite ln_mult by lra. lra.
Qed.

Lemma ln_4_pos : (0 < ln 4)%R.
Proof. rewrite <- ln_1. apply ln_increasing; lra. Qed.

(** The bucketing function itself does depend on [max_distance]: the
    offset [-32] falls in bucket 12 at the default 128 and in bucket 15 at
    32. *)
Lemma bucket_depends_on_max_distance :
  _relative_position_bucket [[-32]] true 32 128 = Some [[12]]
  /\ _relative_position_bucket [[-32]] true 32 32 = Some [[15]].
Proof.
  pose proof ln_4_pos as H4.
  split.
  - rewrite bucket_defined by (vm_compute; split; [discriminate | reflexivity]).
    cbn [map]. rewrite bucket_elt_unfold by discriminate.
    change (half_buckets true 32) with 16.
    change (- -32 <? 0) with false. change (Z.abs (- -32)) with 32.
    unfold magnitude_bucket, log_ratio.
    change (16 / 2) with 8. change (32 <? 8) with false. change (16 - 8) with 8.
    replace (32 / 8)%R with 4%R by lra.
    replace (128 / 8)%R with 16%R by lra.
    rewrite ln_16.
    replace (ln 4 / (2 * ln 4) * 8)%R with (IZR 4) by (field; lra).
    unfold long. destruct (Rlt_dec (IZR 4) 0) as [Hneg | _]; [lra |].
    rewrite ZfloorZ. reflexivity.
  - rewrite bucket_defined by (vm_compute; split; [discriminate | reflexivity]).
    cbn [map]. rewrite bucket_elt_unfold by discriminate.
    change (half_buckets true 32) with 16.
    change (- -32 <? 0) with false. change (Z.abs (- -32)) with 32.
    unfold magnitude_bucket, log_ratio.
    change (16 / 2) with 8. change (32 <? 8) with false. change (16 - 8) with 8.
    replace (32 / 8)%R with 4%R by lra.
    replace (ln 4 / ln 4 * 8)%R with (IZR 8) by (field; lra).
    unfold long. destruct (Rlt_dec (IZR 8) 0) as [Hneg | _]; [lra |].
    rewrite ZfloorZ. reflexivity.
Qed.

(** The validity condition cannot be dropped: with [max_exact = 0] the
    function raises, and with [max_distance] below [max_exact] the
    logarithmic scale is negative and a far offset falls below bucket 0. *)
Lemma bucket_needs_valid_parameters :
  _relative_position_bucket [[0]] true 3 128 = None
  /\ _relative_position_bucket [[-256]] false 32 4 = Some [[-16]].
Proof.
  split; [reflexivity |].
  pose proof ln_4_pos as H4.
  unfold _relative_position_bucket.
  change (half_buckets false 32) with 32.
  change (32 / 2 =? 0) with false. change (4 * (32 / 2) <=? 0) with false.
  cbn [map]. rewrite bucket_elt_unfold by discriminate.
  change (Z.max (- -256) 0) with 256.
  unfold magnitude_bucket, log_ratio.
  change (32 / 2) with 16. change (256 <? 16) with false. change (32 - 16) with 16.
  replace (256 / 16)%R with 16%R by lra.
  replace (4 / 16)%R with (/ 4)%R by lra.
  rewrite ln_Rinv by lra. rewrite ln_16.
  replace (2 * ln 4 / - ln 4 * 16)%R with (IZR (-32)) by (field; lra).
  unfold long. destruct (Rlt_dec (IZR (-32)) 0) as [_ | Hge]; [| lra].
  replace (IZR (-32)) with (- IZR 32)%R by lra.
  rewrite ZceilN, ZfloorZ. reflexivity.
Qed.

Lemma mapM_map_Some {A B : Type} (f : A -> option B) (g : A -> B) (l : list A) :
  (forall a, In a l -> f a = Some (g a)) -> mapM f l = Some (map g l).
Proof.
  induction l as [| a l IH]; intros H; [reflexivity |].
  cbn [mapM map]. rewrite (H a (or_introl eq_refl)), IH; [reflexivity |].
  intros a' Ha'. apply H. now right.
Qed.

Lemma mapM_defined {A B : Type} (f : A -> option B) (l : list A) :
  Forall (fun a => exists b, f a = Some b) l -> exists bs, mapM f l = Some bs.
Proof.
  induction 1 as [| a l [b Hb] _ [bs IH]]; [now exists [] |].
  exists (b :: bs). cbn [mapM]. now rewrite Hb, IH.
Qed.

(** The offsets [k - q] between positions of a tensor with at most
    [2^63] query positions are never [-2^63]. *)
Lemma arange_offset_not_int64_min (i j : nat) (row : list Z) (o : Z) :
  Z.of_nat i <= 2 ^ 63 ->
  In row (map (fun q => map (fun k => k - q) (arange j)) (arange i)) ->
  In o row -> o <> int64_min.
Proof.
  intros Hi Hrow Ho. unfold arange in Hrow.
  rewrite map_map in Hrow. apply in_map_iff in Hrow as (q & <- & Hq).
  unfold arange in Ho. rewrite map_map in Ho. apply in_map_iff in Ho as (k & <- & Hk).
  apply in_seq in Hq. apply in_seq in Hk. unfold int64_min. lia.
Qed.

(** With a table of [num_buckets] rows and valid bucketing parameters at
    the default [max_distance], the bias lookup never leaves the table:
    [forward] raises nothing. *)
Lemma rel_pos_forward_defined (self : RelativePositionBias.t)
      (qk_dots : list (list (list (list R)))) :
  valid_buckets (causal self) (num_buckets self) default_max_distance ->
  Z.of_nat (length (relative_attention_bias self)) = num_buckets self ->
  Z.of_nat (fst (shape_ij qk_dots)) <= 2 ^ 63 ->
  exists out, forward self qk_dots = Some out.
Proof.
  intros Hv Htable Hsize. unfold forward.
  destruct (shape_ij qk_dots) as [i j]. cbn [fst] in Hsize.
  rewrite (bucket_defined _ _ _ _ Hv).
  match goal with
  | |- context [mapM ?f ?l] => destruct (mapM_defined f l) as [values ->]
  end; [| eexists; reflexivity].
  apply Forall_map, Forall_forall. intros row Hrow.
  apply mapM_defined, Forall_map, Forall_forall. intros o Ho.
  pose proof (arange_offset_not_int64_min i j row o Hsize Hrow Ho) as Hne.
  pose proof (bucket_elt_range _ _ _ o Hv (fun _ => Hne)) as [Hlo Hhi].
  unfold embedding.
  destruct (Z.ltb_spec (bucket_elt (causal self)
                          (half_buckets (causal self) (num_buckets self))
                          default_max_distance o) 0) as [Hneg | _]; [lia |].
  match goal with
  | |- exists b, nth_error ?t ?n = Some b =>
      destruct (nth_error t n) eqn:E; [eexists; reflexivity |]
  end.
  apply nth_error_None in E. lia.
Qed.

(** C9.  [RelativePositionBias.forward] does not forward
    [self.max_distance]: two instances that differ only in the configured
    [max_distance] compute the same result on every input, namely the one
    of the instance configured with the default 128. *)
Theorem forward_ignores_max_distance
        (causal : bool) (num_buckets max_distance1 max_distance2 : Z)
        (table : list (list R)) (qk_dots : list (list (list (list R)))) :
  forward (mk causal num_buckets max_distance1 table) qk_dots
  = forward (mk causal num_buckets max_distance2 table) qk_dots
  /\ forward (mk causal num_buckets max_distance1 table) qk_dots
     = forward (mk causal num_buckets default_max_distance table) qk_dots.
Proof. split; reflexivity. Qed.

End MaxDistanceFacts.

(** ** Lists and linear maps *)

Section ListFacts.

Context {A B C : Type}.

Lemma length_zipWith (f : A -> B -> C) l1 l2 :
  length (zipWith f l1 l2) = Nat.min (length l1) (length l2).
Proof. unfold zipWith. now rewrite length_map, length_combine. Qed.

Lemma zipWith_map_same {D : Type} (f : A -> B -> C) (g : D -> A) (h : D -> B) l :
  zipWith f (map g l) (map h l) = map (fun d => f (g d) (h d)) l.
Proof. unfold zipWith. induction l as [| d l IH]; simpl; [| rewrite IH]; reflexivity. Qed.

Lemma zipWith_cons (f : A -> B -> C) a l1 b l2 :
  zipWith f (a :: l1) (b :: l2) = f a b :: zipWith f l1 l2.
Proof. reflexivity. Qed.

End ListFacts.

Lemma firstn_seq_le (n s m : nat) : (n <= m)%nat -> firstn n (seq s m) = seq s n.
Proof.
  intros H. replace m with (n + (m - n))%nat by lia.
  rewrite seq_app, firstn_app, length_seq, Nat.sub_diag. simpl.
  rewrite app_nil_r. apply firstn_all2. rewrite length_seq. lia.
Qed.

Lemma chunk_size_even (m : nat) : Nat.div (m * 2 + 1) 2 = m.
Proof. symmetry. apply Nat.div_unique with (r := 1%nat); lia. Qed.

Lemma chunk2_even {A : Type} (m : nat) (x : list A) :
  length x = (m * 2)%nat -> chunk2 x = (firstn m x, skipn m x).
Proof. intros E. unfold chunk2. now rewrite E, chunk_size_even. Qed.

Section FeedForwardFacts.

Context {A : Type} `{Scalar A} (gelu : A -> A).

Lemma linear_init_forward (i o : nat) (w : nat -> nat -> R) (b : nat -> R) (x : list A) :
  Linear.forward (Linear.init i o w (Some b)) x
  = map (fun k => sadd (dot x (map (w k) (seq 0 i))) (of_R (b k))) (seq 0 o).
Proof.
  unfold Linear.forward, Linear.init. cbn [Linear.bias Linear.weight option_map].
  exact (zipWith_map_same (fun w0 bk => sadd (dot x w0) (of_R bk))
                          (fun k => map (w k) (seq 0 i)) b (seq 0 o)).
Qed.

(** The value half of the projection of a [GEGLU] module: the first
    [dim_out] output features. *)
Lemma geglu_forward_init (dim_in dim_out : nat) (w : nat -> nat -> R) (b : nat -> R)
      (x : list A) :
  GEGLU.forward gelu (GEGLU.init dim_in dim_out w b) x
  = map (fun k => let h := sadd (dot x (map (w k) (seq 0 dim_in))) (of_R (b k)) in
                  smul h (gelu h))
        (seq 0 dim_out).
Proof.
  unfold GEGLU.forward, GEGLU.init. cbn [GEGLU.proj].
  rewrite (chunk2_even dim_out)
    by (rewrite linear_init_forward, length_map, length_seq; reflexivity).
  rewrite linear_init_forward.
  rewrite firstn_map, firstn_seq_le by lia.
  now rewrite map_map.
Qed.

(** C5.  With [glu = True] the input projection of [FeedForward] is a
    [GEGLU] whose linear map has [2 * dim * mult] output features; its
    output splits into two halves [h1], [h2] of [dim * mult] features, and
    the gating stage returns [h1 * gelu(h1)].  The second half has no
    effect: two modules whose projections agree on the first [dim * mult]
    output features (and differ arbitrarily on the gate half) compute the
    same gating stage and the same [forward], for every input. *)
Theorem geglu_second_half_unused
        (dim mult : nat) (dim_out : option nat) (dropout : R)
        (w1 w1' w2 : nat -> nat -> R) (b1 b1' b2 : nat -> R) (x : list A) :
  (forall k j, (k < dim * mult)%nat -> w1 k j = w1' k j) ->
  (forall k, (k < dim * mult)%nat -> b1 k = b1' k) ->
  let ff := FeedForward.init dim dim_out mult true dropout w1 b1 w2 b2 in
  let ff' := FeedForward.init dim dim_out mult true dropout w1' b1' w2 b2 in
  exists g : GEGLU.t,
    FeedForward.project_in ff = FeedForward.Gated g
    /\ Linear.out_features (GEGLU.proj g) = (2 * dim * mult)%nat
    /\ (let '(h1, h2) := chunk2 (Linear.forward (GEGLU.proj g) x) in
        length h1 = (dim * mult)%nat /\ length h2 = (dim * mult)%nat
        /\ FeedForward.project_in_forward gelu (FeedForward.project_in ff) x
           = map (fun h => smul h (gelu h)) h1)
    /\ FeedForward.project_in_forward gelu (FeedForward.project_in ff) x
       = FeedForward.project_in_forward gelu (FeedForward.project_in ff') x
    /\ FeedForward.forward gelu ff x = FeedForward.forward gelu ff' x.
Proof.
  intros Hw Hb ff ff'.
  exists (GEGLU.init dim (dim * mult) w1 b1).
  assert (Hin : FeedForward.project_in_forward gelu (FeedForward.project_in ff) x
                = FeedForward.project_in_forward gelu (FeedForward.project_in ff') x).
  { subst ff ff'. unfold FeedForward.init.
    cbn [negb FeedForward.project_in FeedForward.project_in_forward].
    rewrite !geglu_forward_init. apply map_ext_in. intros k Hk.
    apply in_seq in Hk. rewrite (Hb k) by lia.
    replace (map (w1' k) (seq 0 dim)) with (map (w1 k) (seq 0 dim)); [reflexivity |].
    apply map_ext. intros j. apply Hw. lia. }
  split; [reflexivity |]. split.
  { unfold GEGLU.init, Linear.out_features, Linear.init. cbn.
    rewrite length_map, length_seq. lia. }
  split.
  { subst ff. unfold FeedForward.init.
    cbn [negb FeedForward.project_in FeedForward.project_in_forward].
    unfold GEGLU.forward, GEGLU.init. cbn [GEGLU.proj].
    rewrite (chunk2_even (dim * mult))
      by (rewrite linear_init_forward, length_map, length_seq; reflexivity).
    rewrite length_firstn, length_skipn, linear_init_forward, length_map, length_seq.
    repeat split; lia. }
  split; [exact Hin |].
  unfold FeedForward.forward. rewrite Hin. reflexivity.
Qed.

End FeedForwardFacts.

Lemma geglu_second_half_unused_witness :
  let w1 := fun k j : nat => INR (k + j) in
  let w1' := fun k j : nat => if Nat.ltb k 2 then INR (k + j) else 7%R in
  let b := fun k : nat => INR k in
  FeedForward.forward gelu_sigmoid
    (FeedForward.init 1 None 2 true 0%R w1 b w1 b) [3%R]
  = FeedForward.forward gelu_sigmoid
      (FeedForward.init 1 None 2 true 0%R w1' b w1 b) [3%R].
Proof.
  intros w1 w1' b.
  destruct (geglu_second_half_unused gelu_sigmoid 1 2 None 0%R w1 w1' w1 b b b [3%R])
    as (g & _ & _ & _ & _ & E).
  - intros k j Hk. unfold w1'.
    destruct (Nat.ltb_spec k 2) as [_ | Hge]; [reflexivity | simpl in Hk; lia].
  - reflexivity.
  - exact E.
Defined.

(** ** Encoder and decoder stacks *)

Section StackFacts.

Context {T Mask RelPos : Type} (add : T -> T -> T).

Abbreviation log_t := (list (call T Mask RelPos)).

Lemma run_recorded tag (f : T -> kwargs T Mask RelPos -> T) x kw (log : log_t) :
  runState (recorded tag f x kw) log = (f x kw, log ++ [(tag, kw)]).
Proof. reflexivity. Qed.

Lemma run_bind {A B : Type} (c : state log_t A) (k : A -> state log_t B) (log : log_t) :
  runState (bind c k) log = runState (k (fst (runState c log))) (snd (runState c log)).
Proof. simpl. destruct (runState c log). reflexivity. Qed.

Lemma prenorm_forward_init {m : Type -> Type} (fn : sublayer m T Mask RelPos)
      (x : T) (kw : kwargs T Mask RelPos) (nc : nat -> T -> T) (dm : nat) :
  PreNorm.forward (PreNorm.init dm fn nc) x kw = fn (nc dm x) kw.
Proof. reflexivity. Qed.

Ltac run_layer :=
  repeat (rewrite ?run_bind, ?prenorm_forward_init, ?run_recorded;
          cbn [fst snd bind ret Monad_ident unIdent pure_sublayer]).

Variables (norm_class : nat -> T -> T) (dim : nat).
Variables (attention cross_attention feed_forward : nat -> T -> kwargs T Mask RelPos -> T).

Lemma encoder_loop_recorded (rel_pos : option RelPos) (mask : option Mask) :
  forall (d s : nat) (x : T) (log : log_t),
    let mk_layers := fun (m : Type -> Type) (a f : nat -> sublayer m T Mask RelPos) =>
      map (fun l => (PreNorm.init dim (a l) norm_class, PreNorm.init dim (f l) norm_class))
          (seq s d) in
    exists calls,
      runState (Encoder.forward_loop add
                  (mk_layers _ (fun l => recorded SelfAttn (attention l))
                               (fun l => recorded FF (feed_forward l)))
                  rel_pos mask x) log
      = (unIdent (Encoder.forward_loop add
                    (mk_layers _ (fun l => pure_sublayer (attention l))
                                 (fun l => pure_sublayer (feed_forward l)))
                    rel_pos mask x),
         log ++ calls)
      /\ map fst calls = concat (repeat encoder_layer_tags d).
Proof.
  induction d as [| d IH]; intros s x log mk_layers.
  - exists []. split; [simpl; now rewrite app_nil_r | reflexivity].
  - subst mk_layers. cbn [seq map Encoder.forward_loop].
    run_layer.
    set (kw := mk_kwargs None mask None rel_pos).
    set (x1 := add (attention s (norm_class dim x) kw) x).
    set (x2 := add (feed_forward s (norm_class dim x1) no_kwargs) x1).
    destruct (IH (S s) x2 ((log ++ [(SelfAttn, kw)]) ++ [(FF, no_kwargs)]))
      as (calls & E & Htags).
    exists ((SelfAttn, kw) :: (FF, no_kwargs) :: calls).
    split.
    + rewrite E. f_equal. now rewrite <- !app_assoc.
    + cbn [map fst repeat concat encoder_layer_tags app]. now rewrite Htags.
Qed.

Lemma decoder_loop_recorded (cross_attend : bool) (rel_pos : option RelPos)
      (context : option T) (mask context_mask : option Mask) :
  forall (d s : nat) (x : T) (log : log_t),
    let mk_layers := fun (m : Type -> Type) (a c f : nat -> sublayer m T Mask RelPos) =>
      map (fun l => (PreNorm.init dim (a l) norm_class,
                     if cross_attend then Some (PreNorm.init dim (c l) norm_class)
                     else None,
                     PreNorm.init dim (f l) norm_class))
          (seq s d) in
    exists calls,
      runState (Decoder.forward_loop add
                  (mk_layers _ (fun l => recorded SelfAttn (attention l))
                               (fun l => recorded CrossAttn (cross_attention l))
                               (fun l => recorded FF (feed_forward l)))
                  rel_pos context mask context_mask x) log
      = (unIdent (Decoder.forward_loop add
                    (mk_layers _ (fun l => pure_sublayer (attention l))
                                 (fun l => pure_sublayer (cross_attention l))
                                 (fun l => pure_sublayer (feed_forward l)))
                    rel_pos context mask context_mask x),
         log ++ calls)
      /\ map fst calls = concat (repeat (decoder_layer_tags cross_attend) d)
      /\ Forall (decoder_call_ok rel_pos context mask context_mask) calls.
Proof.
  induction d as [| d IH]; intros s x log mk_layers.
  - exists []. split; [simpl; now rewrite app_nil_r |]. split; [reflexivity | constructor].
  - subst mk_layers. cbn [seq map Decoder.forward_loop].
    destruct cross_attend; run_layer.
    + set (kw := mk_kwargs None None None rel_pos).
      set (kwc := mk_kwargs context mask context_mask None).
      set (x1 := add (attention s (norm_class dim x) kw) x).
      set (x2 := add (cross_attention s (norm_class dim x1) kwc) x1).
      set (x3 := add (feed_forward s (norm_class dim x2) no_kwargs) x2).
      destruct (IH (S s) x3 (((log ++ [(SelfAttn, kw)]) ++ [(CrossAttn, kwc)])
                             ++ [(FF, no_kwargs)]))
        as (calls & E & Htags & Hok).
      exists ((SelfAttn, kw) :: (CrossAttn, kwc) :: (FF, no_kwargs) :: calls).
      split; [rewrite E; f_equal; now rewrite <- !app_assoc |]. split.
      * cbn [map fst repeat concat decoder_layer_tags app]. now rewrite Htags.
      * repeat constructor; assumption.
    + set (kw := mk_kwargs None None None rel_pos).
      set (x1 := add (attention s (norm_class dim x) kw) x).
      set (x2 := add (feed_forward s (norm_class dim x1) no_kwargs) x1).
      destruct (IH (S s) x2 ((log ++ [(SelfAttn, kw)]) ++ [(FF, no_kwargs)]))
        as (calls & E & Htags & Hok).
      exists ((SelfAttn, kw) :: (FF, no_kwargs) :: calls).
      split; [rewrite E; f_equal; now rewrite <- !app_assoc |]. split.
      * cbn [map fst repeat concat decoder_layer_tags app]. now rewrite Htags.
      * repeat constructor; assumption.
Qed.

(** Without cross-attention the decoder loop never reads [context], [mask]
    or [context_mask], whatever the sublayers and their effects are. *)
Lemma decoder_loop_no_cross {m : Type -> Type} `{Monad m}
      (sa ca ff : nat -> sublayer m T Mask RelPos) (rel_pos : option RelPos)
      (context context' : option T) (mask mask' context_mask context_mask' : option Mask) :
  forall (d s : nat) (x : T),
    let layers :=
      map (fun l => (PreNorm.init dim (sa l) norm_class,
                     @None (PreNorm.t m T Mask RelPos),
                     PreNorm.init dim (ff l) norm_class))
          (seq s d) in
    Decoder.forward_loop add layers rel_pos context mask context_mask x
    = Decoder.forward_loop add layers rel_pos context' mask' context_mask' x.
Proof.
  induction d as [| d IH]; intros s x layers; [reflexivity |].
  subst layers. cbn [seq map Decoder.forward_loop].
  f_equal. extensionality a. f_equal. extensionality f. apply IH.
Qed.

Lemma count_occ_concat_repeat (l : list call_tag) (t : call_tag) (d : nat) :
  count_occ call_tag_eq_dec (concat (repeat l d)) t
  = (d * count_occ call_tag_eq_dec l t)%nat.
Proof.
  induction d as [| d IH]; [reflexivity |].
  cbn [repeat concat]. rewrite count_occ_app, IH. lia.
Qed.

(** C10.  A [Decoder] built with [cross_attend = False] computes the same
    result for every choice of [context], [mask] and [context_mask],
    whatever its sublayers are; and every sublayer call it makes, the causal
    self-attention calls included, receives neither a context nor a mask. *)
Theorem decoder_without_cross_attention_ignores_masks
        (depth : nat) (rel_pos_bias : bool) (rp : RelPos) (x : T)
        (context context' : option T)
        (mask mask' context_mask context_mask' : option Mask) :
  (forall (m : Type -> Type) (M : Monad m) (a c f : nat -> sublayer m T Mask RelPos),
      let self := Decoder.init dim depth false rel_pos_bias rp norm_class a c f in
      Decoder.forward add self x context mask context_mask
      = Decoder.forward add self x context' mask' context_mask')
  /\ (exists calls,
         runState (Decoder.forward add
                     (Decoder.init dim depth false rel_pos_bias rp norm_class
                        (fun l => recorded SelfAttn (attention l))
                        (fun l => recorded CrossAttn (cross_attention l))
                        (fun l => recorded FF (feed_forward l)))
                     x context mask context_mask) []
         = (unIdent (Decoder.forward add
                       (Decoder.init dim depth false rel_pos_bias rp norm_class
                          (fun l => pure_sublayer (attention l))
                          (fun l => pure_sublayer (cross_attention l))
                          (fun l => pure_sublayer (feed_forward l)))
                       x context' mask' context_mask'),
            calls)
         /\ Forall (fun c => kw_context (snd c) = None
                             /\ kw_mask (snd c) = None
                             /\ kw_context_mask (snd c) = None) calls).
Proof.
  split.
  - intros m M a c f self. subst self.
    unfold Decoder.forward, Decoder.init. cbn [Decoder.layers Decoder.rel_pos].
    exact (decoder_loop_no_cross a c f _ context context' mask mask'
                                 context_mask context_mask' depth 0 x).
  - destruct (decoder_loop_recorded false
                (if rel_pos_bias then Some rp else None)
                context mask context_mask depth 0 x [])
      as (calls & E & Htags & Hok).
    exists calls. split.
    + etransitivity; [exact E |]. f_equal. f_equal.
      unfold Decoder.forward, Decoder.init. cbn [Decoder.layers Decoder.rel_pos].
      exact (decoder_loop_no_cross (m := ident) _ (fun l => pure_sublayer (cross_attention l)) _ _
               context context' mask mask' context_mask context_mask' depth 0 x).
    + assert (Hno : Forall (fun t => t <> CrossAttn) (map fst calls)).
      { rewrite Htags. clear. induction depth as [| d IH]; [constructor |].
        cbn. repeat constructor; try discriminate. exact IH. }
      apply Forall_forall. intros [tag kw] Hin.
      rewrite Forall_forall in Hok, Hno.
      specialize (Hok _ Hin). unfold decoder_call_ok in Hok. cbn [fst snd] in *.
      assert (Htag : tag <> CrossAttn) by (apply Hno, (in_map fst _ _ Hin)).
      destruct tag; [| contradiction |]; subst kw; repeat split.
Qed.

End StackFacts.

(** ** Relations between tensors *)

Local Open Scope nat_scope.

Section RelFacts.

Context {A B C : Type}.





End RelFacts.

Section RelFacts2.

Context {A B C A' B' C' : Type}.





End RelFacts2.



Section AgreeFacts.

Context {A B : Type}.




End AgreeFacts.

(** *** Causal locality *)

Section CausalFacts.

Variable j0 : nat.


















End CausalFacts.

Lemma map_map2 {A B C : Type} (f : B -> C) (g : A -> B) (l : list (list A)) :
  map (map f) (map (map g) l) = map (map (fun a => f (g a))) l.
Proof. rewrite map_map. apply map_ext. intros r. apply map_map. Qed.

Lemma causal_stage_fits (self : Attention.t) (n : nat) D :
  Attention.causal_stage self n n D = Some (fitting_causal_stage self n D).
Proof.
  unfold Attention.causal_stage, fitting_causal_stage.
  destruct (Attention.causal self); [| reflexivity].
  now rewrite Nat.eqb_refl.
Qed.

Lemma expand_fits {A : Type} (n : nat) (l : list A) :
  length l = n -> expand n l = Some l.
Proof. intros <-. unfold expand. now rewrite Nat.eqb_refl. Qed.

Lemma expand2_fits {A : Type} (b n : nat) (m : list (list A)) :
  has_shape2 b n m -> expand2 b n m = Some m.
Proof.
  intros [Hb F]. unfold expand2. rewrite (expand_fits b m Hb).
  rewrite <- (map_id m) at 2. apply mapM_map_Some.
  intros r Hr. rewrite Forall_forall in F. apply expand_fits. now apply F.
Qed.

Lemma has_shape2_repeat {A : Type} (b n : nat) (a : A) :
  has_shape2 b n (repeat (repeat a n) b).
Proof.
  split; [apply repeat_length |].
  apply Forall_forall. intros r Hr. apply repeat_spec in Hr. subst r.
  apply repeat_length.
Qed.

Lemma pad_mask_stage_fits (b i j : nat) (mask context_mask : option (list (list bool))) D :
  match mask with Some m => has_shape2 b i m | None => True end ->
  match context_mask with Some m => has_shape2 b j m | None => True end ->
  Attention.pad_mask_stage b i j mask context_mask D
  = Some (fitting_pad_mask_stage b i j mask context_mask D).
Proof.
  intros Hm Hc. unfold Attention.pad_mask_stage, fitting_pad_mask_stage.
  destruct (exists_ mask || exists_ context_mask); [| reflexivity].
  rewrite !expand2_fits; [reflexivity | |].
  - destruct context_mask; [exact Hc | apply has_shape2_repeat].
  - destruct mask; [exact Hm | apply has_shape2_repeat].
Qed.




(** ** Fully-masked rows *)

Section NanFacts.

Lemma nth_zipWith {A B C : Type} (f : A -> B -> C) l1 l2 i d1 d2 d :
  i < length l1 -> i < length l2 ->
  nth i (zipWith f l1 l2) d = f (nth i l1 d1) (nth i l2 d2).
Proof.
  revert l1 l2. induction i as [| i IH]; intros [| a l1] [| b l2] H1 H2;
    simpl in *; try lia; try reflexivity.
  apply IH; lia.
Qed.

Lemma nth_map_lt {A B : Type} (f : A -> B) l i d d' :
  i < length l -> nth i (map f l) d = f (nth i l d').
Proof.
  intros H. rewrite (nth_indep _ d (f d')) by now rewrite length_map.
  apply map_nth.
Qed.

Lemma nth_nonempty {A : Type} (l : list (list A)) i :
  nth i l [] <> [] -> i < length l.
Proof.
  intros H. destruct (Nat.lt_ge_cases i (length l)) as [Hlt | Hge]; [exact Hlt |].
  now rewrite nth_overflow in H.
Qed.

(** One NaN among the summed products makes the whole sum NaN. *)
Lemma dot_has_nan (x : list fnum) (w : list R) (p : nat) :
  p < length w -> nth_error x p = Some None -> dot x w = None.
Proof.
  unfold dot. cbn [of_R sadd smul Scalar_fnum].
  revert x w. induction p as [| p IH]; intros [| a x] [| c w] Hp Hx;
    cbn [length nth_error] in Hp, Hx; try lia; try discriminate;
    rewrite zipWith_cons; cbn [fold_right].
  - injection Hx as ->. reflexivity.
  - rewrite (IH x w) by (lia || assumption).
    destruct (fmul a (Some c)); reflexivity.
Qed.

Lemma concat_has_nan (d : nat) (ls : list (list fnum)) (hh : nat) :
  (forall l, In l ls -> length l <= d) ->
  nth_error (nth hh ls []) 0 = Some None ->
  exists p, p <= hh * d /\ nth_error (concat ls) p = Some None.
Proof.
  revert ls. induction hh as [| hh IH]; intros [| l ls] Hlen Hnan;
    try (simpl in Hnan; discriminate).
  - exists 0. split; [lia |]. cbn [nth] in Hnan. destruct l; [discriminate |].
    exact Hnan.
  - destruct (IH ls) as (p & Hp & E).
    + intros l' Hl'. apply Hlen. now right.
    + exact Hnan.
    + exists (length l + p). split.
      * specialize (Hlen l (or_introl eq_refl)). lia.
      * cbn [concat]. rewrite nth_error_app2 by lia.
        now replace (length l + p - length l) with p by lia.
Qed.

Lemma softmax_all_masked (n : nat) : softmax (repeat NegInf n) = repeat None n.
Proof.
  unfold softmax.
  assert (forallb is_neginf (repeat NegInf n) = true) as ->
    by (induction n; [reflexivity | exact IHn]).
  apply map_repeat.
Qed.

Lemma forward_from_logits (self : Attention.t) x context mask context_mask rel_pos :
  Attention.forward self x context mask context_mask rel_pos
  = match Attention.logits self x context mask context_mask rel_pos with
    | None => None
    | Some L =>
        let lk := Nat.div (Linear.out_features (Attention.to_kv self) + 1) 2 in
        let lv := Linear.out_features (Attention.to_kv self) - lk in
        let dv := Nat.div lv (Attention.heads self) in
        let v := Attention.split_heads (Attention.heads self) dv
                   (map (map (fun r => snd (chunk2 (Linear.forward (Attention.to_kv self) r))))
                        (default context (fun _ => x))) in
        Some (map (map (Linear.forward (Attention.to_out self)))
                  (Attention.merge_heads (length (hd [] x))
                     (Attention.weighted_values dv (map (map (map softmax)) L) v)))
    end.
Proof.
  unfold Attention.forward, Attention.attn, Attention.logits, Attention.qkv.
  rewrite !map_map2.
  destruct (Attention.dots _ _ _ _); [| reflexivity].
  destruct (Attention.pad_mask_stage _ _ _ _ _ _); [| reflexivity].
  destruct (Attention.causal_stage _ _ _ _); reflexivity.
Qed.

(** C8 (as amended).  [Attention.forward] has no special case for a
    fully-masked row.  For a module built by the constructor, well-shaped
    arguments with at least one key and a relative position bias that
    fits: if the call reaches the softmax and, in some head, every key
    logit of query position [i] of batch element [bi] is [-inf], then the
    softmax weights of that row are NaN and every entry of the output at
    that position is NaN. *)
Theorem fully_masked_row_gives_nan
        (dim dim_head heads : nat) (causal : bool) (self_mask : option (list (list bool)))
        (wq wkv wout : nat -> nat -> R) (bout : nat -> R) (self : Attention.t)
        (b n j : nat) (x : list (list (list R)))
        (context : option (list (list (list R))))
        (mask context_mask : option (list (list bool)))
        (rel_pos : option RelativePositionBias.t)
        (L : list (list (list (list logit)))) (bi hh i : nat) :
  Attention.init dim dim_head heads causal self_mask wq wkv wout bout = Some self ->
  valid_call b n j dim x context mask context_mask ->
  bias_fits heads rel_pos ->
  Attention.logits self x context mask context_mask rel_pos = Some L ->
  bi < b -> hh < heads -> i < n -> 0 < j ->
  nth i (nth hh (nth bi L []) []) [] = repeat NegInf j ->
  exists A out,
    Attention.attn self x context mask context_mask rel_pos = Some A
    /\ nth i (nth hh (nth bi A []) []) [] = repeat None j
    /\ Attention.forward self x context mask context_mask rel_pos = Some out
    /\ nth i (nth bi out []) [] = repeat None dim.
Proof.
  intros Hinit (Hx & Hctx & _ & _) _ HL Hbi Hhh Hi Hj Hrow.
  exists (map (map (map softmax)) L).
  rewrite forward_from_logits. unfold Attention.attn. rewrite HL. cbv zeta.
  eexists. split; [reflexivity |].
  (* the indices exist in the logits *)
  assert (Hne : repeat NegInf j <> []) by (destruct j; [lia | discriminate]).
  assert (HiL : i < length (nth hh (nth bi L []) []))
    by (apply nth_nonempty; now rewrite Hrow).
  assert (HhL : hh < length (nth bi L []))
    by (apply nth_nonempty; intros E; rewrite E in HiL; simpl in HiL; lia).
  assert (HbL : bi < length L)
    by (apply nth_nonempty; intros E; rewrite E in HhL; simpl in HhL; lia).
  split.
  { rewrite (nth_map_lt _ L bi _ []) by exact HbL.
    rewrite (nth_map_lt _ (nth bi L []) hh _ []) by exact HhL.
    rewrite (nth_map_lt _ (nth hh (nth bi L []) []) i _ []) by exact HiL.
    rewrite Hrow. apply softmax_all_masked. }
  split; [reflexivity |].
  (* the indices exist in the logits *)
  (* the module as built *)
  unfold Attention.init in Hinit.
  destruct (Nat.eqb_spec dim_head 0) as [| Hdh]; [discriminate |].
  injection Hinit as <-.
  cbn [Attention.to_out Attention.to_kv Attention.to_q Attention.heads Attention.causal].
  assert (Hdv : Nat.div (Linear.out_features (Linear.init dim (dim_head * heads * 2) wkv None)
                         - Nat.div (Linear.out_features
                                      (Linear.init dim (dim_head * heads * 2) wkv None) + 1) 2)
                        heads = dim_head).
  { unfold Linear.out_features, Linear.init. cbn [Linear.weight].
    rewrite length_map, length_seq, chunk_size_even.
    replace (dim_head * heads * 2 - dim_head * heads) with (dim_head * heads) by lia.
    apply Nat.div_mul. lia. }
  rewrite Hdv.
  (* the batch element and the sequence length *)
  set (kv_input := default context (fun _ => x)).
  assert (Hkvb : length kv_input = b)
    by (subst kv_input; destruct context; [apply Hctx | apply Hx]).
  assert (Hkvj : length (nth bi kv_input []) = j).
  { subst kv_input. destruct context as [c |]; cbn [default].
    - destruct Hctx as [Hb Hc]. rewrite Forall_forall in Hc.
      apply Hc, nth_In. lia.
    - subst j. destruct Hx as [Hb Hc]. rewrite Forall_forall in Hc.
      apply Hc, nth_In. lia. }
  assert (Hn : length (hd [] x) = n).
  { destruct Hx as [Hb Hc]. destruct x as [| xb x]; [simpl in Hb; lia |].
    inversion Hc as [| ? ? [Hn _] _]. exact Hn. }
  rewrite Hn.
  (* row [i] of the output of batch element [bi] *)
  unfold Attention.merge_heads, Attention.weighted_values.
  set (wf := fun (ah : list (list fnum)) (vh : list (list R)) =>
               map (fun arow => map (fun dd => dot arow (map (fun vj => nth dd vj 0%R) vh))
                                    (seq 0 dim_head)) ah).
  set (A := map (map (map softmax)) L).
  set (kv2 := map (map (fun r => snd (chunk2 (Linear.forward
                 (Linear.init dim (dim_head * heads * 2) wkv None) r)))) kv_input).
  set (V := Attention.split_heads heads dim_head kv2).
  set (lf := Linear.forward (Linear.init (dim_head * heads) dim wout (Some bout))).
  assert (HlA : length A = length L) by (subst A; now rewrite length_map).
  assert (HlV : length V = b)
    by (subst V kv2; unfold Attention.split_heads; now rewrite !length_map).
  assert (HAb : nth bi A [] = map (map softmax) (nth bi L []))
    by (subst A; now apply nth_map_lt).
  assert (HVb : nth bi V []
                = map (fun h0 => map (fun row => firstn dim_head (skipn (h0 * dim_head) row))
                                     (nth bi kv2 []))
                      (seq 0 heads)).
  { subst V. unfold Attention.split_heads.
    rewrite (nth_map_lt _ _ _ _ []) by (subst kv2; rewrite length_map; lia).
    reflexivity. }
  assert (HWb : nth bi (zipWith (zipWith wf) A V) []
                = zipWith wf (nth bi A []) (nth bi V []))
    by (apply nth_zipWith; lia).
  assert (HAh : nth hh (nth bi A []) [] = map softmax (nth hh (nth bi L []) []))
    by (rewrite HAb; now apply nth_map_lt).
  assert (HVh : length (nth hh (nth bi V []) []) = j).
  { rewrite HVb, (nth_map_lt _ _ _ _ 0) by (rewrite length_seq; lia).
    rewrite length_map. subst kv2.
    rewrite (nth_map_lt _ _ _ _ []) by lia. now rewrite length_map. }
  assert (HlAb : length (nth bi A []) = length (nth bi L []))
    by (rewrite HAb; now rewrite length_map).
  assert (HlVb : length (nth bi V []) = heads)
    by (rewrite HVb; now rewrite length_map, length_seq).
  assert (HWh : nth hh (nth bi (zipWith (zipWith wf) A V) []) []
                = wf (nth hh (nth bi A []) []) (nth hh (nth bi V []) []))
    by (rewrite HWb; apply nth_zipWith; lia).
  assert (HWi : nth_error (nth i (nth hh (nth bi (zipWith (zipWith wf) A V) []) []) []) 0
                = Some None).
  { rewrite HWh. unfold wf at 1.
    rewrite (nth_map_lt _ _ _ _ []) by (rewrite HAh, length_map; exact HiL).
    rewrite HAh, (nth_map_lt _ _ _ _ []) by exact HiL.
    rewrite Hrow, softmax_all_masked.
    destruct dim_head as [| dh]; [lia |]. cbn [seq map nth_error]. f_equal.
    apply (dot_has_nan _ _ 0); [| destruct j; [lia | reflexivity]].
    rewrite length_map. lia. }
  rewrite (nth_map_lt (map lf) _ bi _ [])
    by (rewrite length_map, length_zipWith; lia).
  rewrite (nth_map_lt _ (zipWith (zipWith wf) A V) bi _ [])
    by (rewrite length_zipWith; lia).
  rewrite (nth_map_lt lf _ i _ []) by (rewrite length_map, length_seq; lia).
  rewrite (nth_map_lt _ (seq 0 n) i _ 0) by (rewrite length_seq; lia).
  rewrite seq_nth by lia. cbn [Nat.add].
  match goal with
  | |- lf (concat ?ls) = _ =>
      destruct (concat_has_nan dim_head ls hh) as (p & Hp & Hnan)
  end.
  - intros l Hl. apply in_map_iff in Hl as (oh & <- & Hoh).
    rewrite HWb in Hoh. unfold zipWith in Hoh.
    apply in_map_iff in Hoh as ([ah vh] & <- & _). cbn [fst snd]. unfold wf.
    destruct (Nat.lt_ge_cases i (length ah)) as [Hlt | Hge].
    + rewrite (nth_map_lt _ _ _ _ []) by exact Hlt.
      rewrite length_map, length_seq. lia.
    + rewrite nth_overflow by (rewrite length_map; exact Hge). simpl. lia.
  - rewrite (nth_map_lt _ _ _ _ [])
      by (rewrite HWb, length_zipWith; lia).
    exact HWi.
  - subst lf. rewrite linear_init_forward.
    transitivity (map (fun _ : nat => @None R) (seq 0 dim)).
    + apply map_ext. intros k.
      rewrite (dot_has_nan _ _ p); [reflexivity | | exact Hnan].
      rewrite length_map, length_seq. nia.
    + now rewrite map_const, length_seq.
Qed.

Lemma fully_masked_row_gives_nan_witness :
  let z := fun _ _ : nat => 0%R in
  exists self A out,
    Attention.init 1 1 1 false None z z z (fun _ => 0%R) = Some self
    /\ Attention.attn self [[[1%R]]] None (Some [[true]]) None None = Some A
    /\ nth 0 (nth 0 (nth 0 A []) []) [] = repeat None 1
    /\ Attention.forward self [[[1%R]]] None (Some [[true]]) None None = Some out
    /\ nth 0 (nth 0 out []) [] = repeat None 1.
Proof.
  intros z. eexists.
  assert (Hinit : Attention.init 1 1 1 false None z z z (fun _ => 0%R) = Some _)
    by reflexivity.
  destruct (fully_masked_row_gives_nan 1 1 1 false None z z z (fun _ => 0%R) _
              1 1 1 [[[1%R]]] None (Some [[true]]) None None [[[[NegInf]]]] 0 0 0 Hinit)
    as (A & out & EA & HA & E & Hnan).
  - repeat split; repeat constructor.
  - exact I.
  - cbv -[exp Rpower Rplus Rmult Rdiv Rinv INR IZR Rminus Ropp]. reflexivity.
  - lia.
  - lia.
  - lia.
  - lia.
  - reflexivity.
  - exists A, out. split; [exact Hinit |]. repeat split; assumption.
Defined.

(** C8 (as stated) fails: with the all-valid query mask [[true]] on a
    single position, the only logit is [-inf], the row is fully masked, and
    the output is NaN. *)
Lemma fully_masked_row_is_nan :
  exists self,
    Attention.init 1 1 1 false None (fun _ _ => 0%R) (fun _ _ => 0%R)
                   (fun _ _ => 0%R) (fun _ => 0%R) = Some self
    /\ Attention.logits self [[[1%R]]] None (Some [[true]]) None None
       = Some [[[[NegInf]]]]
    /\ Attention.forward self [[[1%R]]] None (Some [[true]]) None None
       = Some [[[None]]].
Proof.
  eexists. split; [reflexivity |]. split.
  - cbv -[exp Rpower Rplus Rmult Rdiv Rinv INR IZR Rminus Ropp]. reflexivity.
  - cbv -[exp Rpower Rplus Rmult Rdiv Rinv INR IZR Rminus Ropp]. reflexivity.
Qed.

(** *** Polarity of the padding mask *)

Lemma softmax_masked_first (d : R) : softmax [NegInf; Fin d] = [Some 0%R; Some 1%R].
Proof.
  unfold softmax. cbn [forallb is_neginf andb map expl rsum fold_right].
  pose proof (exp_pos d). repeat f_equal; field; lra.
Qed.

(** C1 (evaluation of the code).  With two positions and the key mask
    [[true; false]] (key 0 valid, key 1 padding), whatever the parameters
    and the inputs are, every query puts weight 0 on the valid key and
    weight 1 on the padding key: the logits are forced to [-inf] where the
    combined mask is true, not where it is false. *)
Theorem padding_mask_masks_valid_keys
        (wq wkv wout : nat -> nat -> R) (bout : nat -> R) (a c : R) :
  exists self,
    Attention.init 1 1 1 false None wq wkv wout bout = Some self
    /\ Attention.attn self [[[a]; [c]]] None None (Some [[true; false]]) None
       = Some [[[[Some 0%R; Some 1%R]; [Some 0%R; Some 1%R]]]].
Proof.
  eexists. split; [reflexivity |].
  cbv -[softmax exp Rpower Rplus Rmult Rdiv Rinv INR IZR Rminus Ropp].
  rewrite !softmax_masked_first. reflexivity.
Qed.

End NanFacts.

(** ** Further properties of the stacks *)

Section StackExtras.

Context {T Mask RelPos : Type} (add : T -> T -> T).

Abbreviation log_t := (list (call T Mask RelPos)).

Ltac run_calls :=
  repeat (rewrite ?run_bind, ?prenorm_forward_init, ?run_recorded;
          cbn [fst snd bind ret Monad_ident unIdent pure_sublayer]).

Variables (norm_class : nat -> T -> T) (dim : nat).
Variables (attention cross_attention feed_forward : nat -> T -> kwargs T Mask RelPos -> T).

Lemma encoder_loop_calls (rel_pos : option RelPos) (mask : option Mask) :
  forall (d s : nat) (x : T) (log : log_t),
    snd (runState (Encoder.forward_loop add
                     (map (fun l => (PreNorm.init dim (recorded SelfAttn (attention l)) norm_class,
                                     PreNorm.init dim (recorded FF (feed_forward l)) norm_class))
                          (seq s d))
                     rel_pos mask x) log)
    = log ++ concat (repeat (encoder_layer_calls rel_pos mask) d).
Proof.
  induction d as [| d IH]; intros s x log.
  - simpl. now rewrite app_nil_r.
  - cbn [seq map Encoder.forward_loop]. run_calls. rewrite IH.
    cbn [repeat concat encoder_layer_calls app]. now rewrite <- !app_assoc.
Qed.

Lemma decoder_loop_calls (cross_attend : bool) (rel_pos : option RelPos)
      (context : option T) (mask context_mask : option Mask) :
  forall (d s : nat) (x : T) (log : log_t),
    snd (runState (Decoder.forward_loop add
                     (map (fun l => (PreNorm.init dim (recorded SelfAttn (attention l)) norm_class,
                                     if cross_attend
                                     then Some (PreNorm.init dim
                                                  (recorded CrossAttn (cross_attention l))
                                                  norm_class)
                                     else None,
                                     PreNorm.init dim (recorded FF (feed_forward l)) norm_class))
                          (seq s d))
                     rel_pos context mask context_mask x) log)
    = log ++ concat (repeat (decoder_layer_calls cross_attend rel_pos context mask
                                                 context_mask) d).
Proof.
  induction d as [| d IH]; intros s x log.
  - simpl. now rewrite app_nil_r.
  - cbn [seq map Decoder.forward_loop].
    destruct cross_attend; run_calls; rewrite IH;
      cbn [repeat concat decoder_layer_calls app]; now rewrite <- !app_assoc.
Qed.

(** X1.  Every self-attention call of an [Encoder] receives the caller's
    [mask] and the stack's shared relative position bias and no context;
    every feed-forward call receives no keyword argument. *)
Theorem encoder_call_arguments
        (depth : nat) (rel_pos_bias : bool) (rp : RelPos)
        (x : T) (context : option T) (mask : option Mask) :
  snd (runState (Encoder.forward add
                   (Encoder.init dim depth rel_pos_bias rp norm_class
                      (fun l => recorded SelfAttn (attention l))
                      (fun l => recorded FF (feed_forward l)))
                   x context mask) [])
  = concat (repeat (encoder_layer_calls (if rel_pos_bias then Some rp else None) mask)
                   depth).
Proof.
  unfold Encoder.forward, Encoder.init. cbn [Encoder.layers Encoder.rel_pos].
  now rewrite encoder_loop_calls.
Qed.

(** X2.  Every self-attention call of a [Decoder] receives only the shared
    relative position bias, never a mask or a context.  With
    [cross_attend] each layer then makes one cross-attention call with the
    caller's [context], [mask] and [context_mask] and no relative position
    bias.  Every feed-forward call receives no keyword argument. *)
Theorem decoder_call_arguments
        (depth : nat) (cross_attend rel_pos_bias : bool) (rp : RelPos)
        (x : T) (context : option T) (mask context_mask : option Mask) :
  snd (runState (Decoder.forward add
                   (Decoder.init dim depth cross_attend rel_pos_bias rp norm_class
                      (fun l => recorded SelfAttn (attention l))
                      (fun l => recorded CrossAttn (cross_attention l))
                      (fun l => recorded FF (feed_forward l)))
                   x context mask context_mask) [])
  = concat (repeat (decoder_layer_calls cross_attend
                      (if rel_pos_bias then Some rp else None)
                      context mask context_mask)
                   depth).
Proof.
  unfold Decoder.forward, Decoder.init. cbn [Decoder.layers Decoder.rel_pos].
  now rewrite decoder_loop_calls.
Qed.


Lemma encoder_loop_app (l1 l2 : list (PreNorm.t ident T Mask RelPos
                                      * PreNorm.t ident T Mask RelPos))
      (rel_pos : option RelPos) (mask : option Mask) (x : T) :
  Encoder.forward_loop add (l1 ++ l2) rel_pos mask x
  = Encoder.forward_loop add l2 rel_pos mask
      (unIdent (Encoder.forward_loop add l1 rel_pos mask x)).
Proof.
  revert x. induction l1 as [| [sa ff] l1 IH]; intros x; [reflexivity |].
  cbn [app Encoder.forward_loop bind Monad_ident]. apply IH.
Qed.

Lemma decoder_loop_app (l1 l2 : list (PreNorm.t ident T Mask RelPos
                                      * option (PreNorm.t ident T Mask RelPos)
                                      * PreNorm.t ident T Mask RelPos))
      (rel_pos : option RelPos) (context : option T)
      (mask context_mask : option Mask) (x : T) :
  Decoder.forward_loop add (l1 ++ l2) rel_pos context mask context_mask x
  = Decoder.forward_loop add l2 rel_pos context mask context_mask
      (unIdent (Decoder.forward_loop add l1 rel_pos context mask context_mask x)).
Proof.
  revert x. induction l1 as [| [[sa ca] ff] l1 IH]; intros x; [reflexivity |].
  cbn [app Decoder.forward_loop bind Monad_ident].
  destruct ca; cbn [bind Monad_ident]; apply IH.
Qed.

Lemma map_seq_add {A : Type} (f : nat -> A) (d1 d2 : nat) :
  map f (seq 0 (d1 + d2)) = map f (seq 0 d1) ++ map (fun l => f (d1 + l)) (seq 0 d2).
Proof.
  rewrite seq_app, map_app. f_equal. generalize 0 as s.
  induction d2 as [| d2 IH]; intros s; [reflexivity |].
  cbn [seq map]. f_equal; [f_equal; lia |]. apply (IH (S s)).
Qed.

(** X3.  Depth is additive: a stack of depth [d1 + d2] computes what the
    stack of its last [d2] layers computes on the output of the stack of
    its first [d1] layers, for the encoder and for the decoder. *)
Theorem stack_depth_additive
        (d1 d2 : nat) (cross_attend rel_pos_bias : bool) (rp : RelPos)
        (a c f : nat -> sublayer ident T Mask RelPos)
        (x : T) (context : option T) (mask context_mask : option Mask) :
  Encoder.forward add (Encoder.init dim (d1 + d2) rel_pos_bias rp norm_class a f)
                  x context mask
  = Encoder.forward add
      (Encoder.init dim d2 rel_pos_bias rp norm_class
                    (fun l => a (d1 + l)) (fun l => f (d1 + l)))
      (unIdent (Encoder.forward add
                  (Encoder.init dim d1 rel_pos_bias rp norm_class a f)
                  x context mask))
      context mask
  /\ Decoder.forward add
       (Decoder.init dim (d1 + d2) cross_attend rel_pos_bias rp norm_class a c f)
       x context mask context_mask
     = Decoder.forward add
         (Decoder.init dim d2 cross_attend rel_pos_bias rp norm_class
                       (fun l => a (d1 + l)) (fun l => c (d1 + l)) (fun l => f (d1 + l)))
         (unIdent (Decoder.forward add
                     (Decoder.init dim d1 cross_attend rel_pos_bias rp norm_class a c f)
                     x context mask context_mask))
         context mask context_mask.
Proof.
  unfold Encoder.forward, Encoder.init, Decoder.forward, Decoder.init.
  cbn [Encoder.layers Encoder.rel_pos Decoder.layers Decoder.rel_pos].
  split.
  - rewrite map_seq_add. apply encoder_loop_app.
  - rewrite map_seq_add. apply decoder_loop_app.
Qed.

Lemma encoder_loop_residual (zero : T) (rel_pos : option RelPos) (mask : option Mask) :
  (forall x, add zero x = x) ->
  forall (layers : list (PreNorm.t ident T Mask RelPos * PreNorm.t ident T Mask RelPos)),
    Forall (fun l => (forall x kw, PreNorm.forward (fst l) x kw = ret zero)
                     /\ (forall x kw, PreNorm.forward (snd l) x kw = ret zero)) layers ->
    forall x, Encoder.forward_loop add layers rel_pos mask x = ret x.
Proof.
  intros Hz layers H. induction H as [| [sa ff] layers [Hsa Hff] _ IH]; intros x;
    [reflexivity |].
  cbn [Encoder.forward_loop fst snd] in *.
  rewrite Hsa. cbn [bind ret Monad_ident unIdent]. rewrite Hz, Hff.
  cbn [bind ret Monad_ident unIdent]. rewrite Hz. apply IH.
Qed.

Lemma decoder_loop_residual (zero : T) (rel_pos : option RelPos)
      (context : option T) (mask context_mask : option Mask) :
  (forall x, add zero x = x) ->
  forall (layers : list (PreNorm.t ident T Mask RelPos
                         * option (PreNorm.t ident T Mask RelPos)
                         * PreNorm.t ident T Mask RelPos)),
    Forall (fun l => (forall x kw, PreNorm.forward (fst (fst l)) x kw = ret zero)
                     /\ (forall ca x kw, snd (fst l) = Some ca ->
                                         PreNorm.forward ca x kw = ret zero)
                     /\ (forall x kw, PreNorm.forward (snd l) x kw = ret zero)) layers ->
    forall x, Decoder.forward_loop add layers rel_pos context mask context_mask x = ret x.
Proof.
  intros Hz layers H.
  induction H as [| [[sa ca] ff] layers (Hsa & Hca & Hff) _ IH]; intros x;
    [reflexivity |].
  cbn [Decoder.forward_loop fst snd] in *.
  rewrite Hsa. cbn [bind ret Monad_ident unIdent]. rewrite Hz.
  destruct ca as [ca |].
  - rewrite (Hca ca) by reflexivity. cbn [bind ret Monad_ident unIdent].
    rewrite Hz, Hff. cbn [bind ret Monad_ident unIdent]. rewrite Hz. apply IH.
  - rewrite Hff. cbn [bind ret Monad_ident unIdent]. rewrite Hz. apply IH.
Qed.

(** X4.  Residual identity: when every sublayer returns a tensor [zero] that
    is neutral for the residual addition, an [Encoder] and a [Decoder] of
    any depth return their input unchanged. *)
Theorem stack_residual_identity
        (zero : T) (depth : nat) (cross_attend rel_pos_bias : bool) (rp : RelPos)
        (x : T) (context : option T) (mask context_mask : option Mask) :
  (forall y, add zero y = y) ->
  (forall l y kw, attention l y kw = zero) ->
  (forall l y kw, cross_attention l y kw = zero) ->
  (forall l y kw, feed_forward l y kw = zero) ->
  unIdent (Encoder.forward add
             (Encoder.init dim depth rel_pos_bias rp norm_class
                (fun l => pure_sublayer (attention l))
                (fun l => pure_sublayer (feed_forward l)))
             x context mask) = x
  /\ unIdent (Decoder.forward add
                (Decoder.init dim depth cross_attend rel_pos_bias rp norm_class
                   (fun l => pure_sublayer (attention l))
                   (fun l => pure_sublayer (cross_attention l))
                   (fun l => pure_sublayer (feed_forward l)))
                x context mask context_mask) = x.
Proof.
  intros Hz Ha Hc Hf.
  unfold Encoder.forward, Encoder.init, Decoder.forward, Decoder.init.
  cbn [Encoder.layers Encoder.rel_pos Decoder.layers Decoder.rel_pos].
  split.
  - rewrite (encoder_loop_residual zero); [reflexivity | exact Hz |].
    apply Forall_map, Forall_forall. intros l _. cbn [fst snd].
    split; intros y kw; rewrite prenorm_forward_init; unfold pure_sublayer;
      [now rewrite Ha | now rewrite Hf].
  - rewrite (decoder_loop_residual zero); [reflexivity | exact Hz |].
    apply Forall_map, Forall_forall. intros l _. cbn [fst snd].
    split; [| split].
    + intros y kw. rewrite prenorm_forward_init. unfold pure_sublayer. now rewrite Ha.
    + intros ca y kw E. destruct cross_attend; [| discriminate].
      injection E as <-. rewrite prenorm_forward_init. unfold pure_sublayer.
      now rewrite Hc.
    + intros y kw. rewrite prenorm_forward_init. unfold pure_sublayer. now rewrite Hf.
Qed.

End StackExtras.

Lemma stack_residual_identity_witness :
  unIdent (Encoder.forward (T := Z) (Mask := unit) (RelPos := unit) Z.add
             (Encoder.init 4 3 true tt (fun _ y => y)
                (fun l => pure_sublayer (fun _ _ => 0%Z))
                (fun l => pure_sublayer (fun _ _ => 0%Z)))
             7%Z None None) = 7%Z
  /\ unIdent (Decoder.forward (T := Z) (Mask := unit) (RelPos := unit) Z.add
                (Decoder.init 4 3 true true tt (fun _ y => y)
                   (fun l => pure_sublayer (fun _ _ => 0%Z))
                   (fun l => pure_sublayer (fun _ _ => 0%Z))
                   (fun l => pure_sublayer (fun _ _ => 0%Z)))
                7%Z None None None) = 7%Z.
Proof.
  apply (stack_residual_identity (T := Z) (Mask := unit) (RelPos := unit) Z.add
           (fun _ y => y) 4 (fun _ _ _ => 0%Z) (fun _ _ _ => 0%Z) (fun _ _ _ => 0%Z)
           0%Z 3 true true tt 7%Z None None None).
  - intros y. apply Z.add_0_l.
  - reflexivity.
  - reflexivity.
  - reflexivity.
Defined.

(** ** Composition of the layers *)

Section StackComposition.

Context {T Mask RelPos : Type} (add : T -> T -> T).

Variables (norm_class : nat -> T -> T) (dim : nat).
Variables (attention cross_attention feed_forward : nat -> T -> kwargs T Mask RelPos -> T).

Lemma encoder_loop_stack (rel_pos : option RelPos) (mask : option Mask) (d : nat) (x : T) :
  unIdent (Encoder.forward_loop add
             (map (fun l => (PreNorm.init dim (pure_sublayer (attention l)) norm_class,
                             PreNorm.init dim (pure_sublayer (feed_forward l)) norm_class))
                  (seq 0 d))
             rel_pos mask x)
  = spec_stack (spec_encoder_layer add (norm_class dim) attention feed_forward rel_pos mask)
               d x.
Proof.
  induction d as [| d IH]; [reflexivity |].
  rewrite seq_S, map_app, encoder_loop_app, IH. reflexivity.
Qed.

Lemma decoder_loop_stack (cross_attend : bool) (rel_pos : option RelPos)
      (context : option T) (mask context_mask : option Mask) (d : nat) (x : T) :
  unIdent (Decoder.forward_loop add
             (map (fun l => (PreNorm.init dim (pure_sublayer (attention l)) norm_class,
                             if cross_attend
                             then Some (PreNorm.init dim (pure_sublayer (cross_attention l))
                                                     norm_class)
                             else None,
                             PreNorm.init dim (pure_sublayer (feed_forward l)) norm_class))
                  (seq 0 d))
             rel_pos context mask context_mask x)
  = spec_stack (spec_decoder_layer add (norm_class dim) cross_attend
                  attention cross_attention feed_forward rel_pos context mask context_mask)
               d x.
Proof.
  induction d as [| d IH]; [reflexivity |].
  rewrite seq_S, map_app, decoder_loop_app, IH.
  destruct cross_attend; reflexivity.
Qed.

(** C6.  An [Encoder] or [Decoder] of depth 0 returns its input and calls
    nothing, whatever the sublayers and parameters are.  At depth [d] the
    forward pass computes layers [0] to [d - 1] in this order, each layer a
    residual self-attention application [fn(norm(x)) + x], (for a decoder
    with cross-attention) a residual cross-attention application, and a
    residual feed-forward application, each applied to the result of the
    one before.  With a call recorder in front of every sublayer the pass
    returns the same result and records, per layer and in this order, one
    self-attention call, (with cross-attention) one cross-attention call
    and one feed-forward call: exactly [d] self-attention and exactly [d]
    feed-forward applications. *)
Theorem stack_depth_composition
        (depth : nat) (rel_pos_bias cross_attend : bool) (rp : RelPos)
        (x : T) (context : option T) (mask context_mask : option Mask) :
  (forall (m : Type -> Type) (M : Monad m) (a f : nat -> sublayer m T Mask RelPos),
      Encoder.forward add (Encoder.init dim 0 rel_pos_bias rp norm_class a f)
                      x context mask = ret x)
  /\ (forall (m : Type -> Type) (M : Monad m) (a c f : nat -> sublayer m T Mask RelPos),
         Decoder.forward add
           (Decoder.init dim 0 cross_attend rel_pos_bias rp norm_class a c f)
           x context mask context_mask = ret x)
  /\ unIdent (Encoder.forward add
                (Encoder.init dim depth rel_pos_bias rp norm_class
                   (fun l => pure_sublayer (attention l))
                   (fun l => pure_sublayer (feed_forward l)))
                x context mask)
     = spec_stack (spec_encoder_layer add (norm_class dim) attention feed_forward
                     (if rel_pos_bias then Some rp else None) mask)
                  depth x
  /\ unIdent (Decoder.forward add
                (Decoder.init dim depth cross_attend rel_pos_bias rp norm_class
                   (fun l => pure_sublayer (attention l))
                   (fun l => pure_sublayer (cross_attention l))
                   (fun l => pure_sublayer (feed_forward l)))
                x context mask context_mask)
     = spec_stack (spec_decoder_layer add (norm_class dim) cross_attend
                     attention cross_attention feed_forward
                     (if rel_pos_bias then Some rp else None) context mask context_mask)
                  depth x
  /\ (exists calls,
         runState (Encoder.forward add
                     (Encoder.init dim depth rel_pos_bias rp norm_class
                        (fun l => recorded SelfAttn (attention l))
                        (fun l => recorded FF (feed_forward l)))
                     x context mask) []
         = (spec_stack (spec_encoder_layer add (norm_class dim) attention feed_forward
                          (if rel_pos_bias then Some rp else None) mask)
                       depth x,
            calls)
         /\ map fst calls = concat (repeat encoder_layer_tags depth)
         /\ count_occ call_tag_eq_dec (map fst calls) SelfAttn = depth
         /\ count_occ call_tag_eq_dec (map fst calls) FF = depth)
  /\ (exists calls,
         runState (Decoder.forward add
                     (Decoder.init dim depth cross_attend rel_pos_bias rp norm_class
                        (fun l => recorded SelfAttn (attention l))
                        (fun l => recorded CrossAttn (cross_attention l))
                        (fun l => recorded FF (feed_forward l)))
                     x context mask context_mask) []
         = (spec_stack (spec_decoder_layer add (norm_class dim) cross_attend
                          attention cross_attention feed_forward
                          (if rel_pos_bias then Some rp else None)
                          context mask context_mask)
                       depth x,
            calls)
         /\ map fst calls = concat (repeat (decoder_layer_tags cross_attend) depth)
         /\ count_occ call_tag_eq_dec (map fst calls) SelfAttn = depth
         /\ count_occ call_tag_eq_dec (map fst calls) FF = depth).
Proof.
  split; [reflexivity |]. split; [reflexivity |].
  split; [apply encoder_loop_stack |]. split; [apply decoder_loop_stack |]. split.
  - destruct (encoder_loop_recorded add norm_class dim attention feed_forward
                (if rel_pos_bias then Some rp else None) mask depth 0 x [])
      as (calls & E & Htags).
    exists calls. split.
    + etransitivity; [exact E |]. f_equal. apply encoder_loop_stack.
    + split; [exact Htags |].
      rewrite Htags, !count_occ_concat_repeat. cbn. lia.
  - destruct (decoder_loop_recorded add norm_class dim attention cross_attention
                feed_forward cross_attend
                (if rel_pos_bias then Some rp else None)
                context mask context_mask depth 0 x [])
      as (calls & E & Htags & _).
    exists calls. split.
    + etransitivity; [exact E |]. f_equal. apply decoder_loop_stack.
    + split; [exact Htags |].
      rewrite Htags, !count_occ_concat_repeat. destruct cross_attend; cbn; lia.
Qed.

End StackComposition.

(** ** Further properties of the relative position buckets *)

Local Open Scope Z_scope.

Section BucketExtras.

Import RelativePositionBias.

Lemma magnitude_bucket_small nb md n :
  n < nb / 2 -> magnitude_bucket nb md n = n.
Proof.
  intros H. unfold magnitude_bucket.
  destruct (Z.ltb_spec n (nb / 2)); [reflexivity | lia].
Qed.





(** X6.  In causal mode, offsets closer than [max_exact] get a bucket of
    their own: two such offsets share a bucket only if they are equal. *)
Theorem nearby_offsets_have_own_buckets
        (num_buckets max_distance offset1 offset2 : Z) :
  valid_buckets true num_buckets max_distance ->
  Z.abs offset1 < num_buckets / 2 / 2 ->
  Z.abs offset2 < num_buckets / 2 / 2 ->
  exists b1 b2,
    _relative_position_bucket [[offset1; offset2]] true num_buckets max_distance
    = Some [[b1; b2]]
    /\ (b1 = b2 <-> offset1 = offset2).
Proof.
  intros Hv H1 H2. rewrite (bucket_defined _ _ _ _ Hv). cbn [map].
  do 2 eexists. split; [reflexivity |].
  pose proof (Z.mul_div_le (num_buckets / 2) 2 ltac:(lia)) as Hhalf.
  destruct Hv as [Hme _]. change (half_buckets true num_buckets) with (num_buckets / 2) in *.
  assert (Hb : forall o, Z.abs o < num_buckets / 2 / 2 ->
                 bucket_elt true (num_buckets / 2) max_distance o
                 = if o =? int64_min then num_buckets / 2 + int64_min
                   else if 0 <? o then num_buckets / 2 + o else - o).
  { intros o Ho. destruct (Z.eqb_spec o int64_min) as [-> | Hne].
    - now rewrite bucket_elt_int64_min.
    - rewrite bucket_elt_unfold by exact Hne.
      rewrite magnitude_bucket_small by lia.
      destruct (Z.ltb_spec (- o) 0); destruct (Z.ltb_spec 0 o); lia. }
  rewrite (Hb offset1 H1), (Hb offset2 H2).
  unfold int64_min in *.
  destruct (Z.eqb_spec offset1 (- 2 ^ 63)); destruct (Z.eqb_spec offset2 (- 2 ^ 63));
    destruct (Z.ltb_spec 0 offset1); destruct (Z.ltb_spec 0 offset2); lia.
Qed.

Lemma nearby_offsets_have_own_buckets_witness :
  exists b1 b2,
    _relative_position_bucket [[-3; 3]] true 32 128 = Some [[b1; b2]]
    /\ (b1 = b2 <-> -3 = 3).
Proof.
  apply nearby_offsets_have_own_buckets.
  - vm_compute; split; [discriminate | reflexivity].
  - reflexivity.
  - reflexivity.
Defined.



End BucketExtras.

(** ** The relative position bias as a function of the positions *)

Local Open Scope nat_scope.

Section BiasExtras.

Import RelativePositionBias.

Lemma has_shape2_zipWith {A B C : Type} (f : A -> B -> C) (n d : nat) l1 l2 :
  has_shape2 n d l1 -> has_shape2 n d l2 ->
  has_shape2 n d (zipWith (zipWith f) l1 l2).
Proof.
  intros [H1 F1] [H2 F2]. split.
  - rewrite length_zipWith. lia.
  - unfold zipWith at 1. apply Forall_map, Forall_forall. intros [r1 r2] Hin.
    cbn [fst snd]. rewrite length_zipWith.
    rewrite Forall_forall in F1, F2.
    rewrite (F1 r1 (in_combine_l _ _ _ _ Hin)), (F2 r2 (in_combine_r _ _ _ _ Hin)). lia.
Qed.

Lemma has_shape3_zipWith {A B C : Type} (f : A -> B -> C) (h n d : nat) l1 l2 :
  has_shape3 h n d l1 -> has_shape3 h n d l2 ->
  has_shape3 h n d (zipWith (zipWith (zipWith f)) l1 l2).
Proof.
  intros [H1 F1] [H2 F2]. split.
  - rewrite length_zipWith. lia.
  - unfold zipWith at 1. apply Forall_map, Forall_forall. intros [r1 r2] Hin.
    cbn [fst snd]. rewrite Forall_forall in F1, F2.
    apply has_shape2_zipWith;
      [apply F1, (in_combine_l _ _ _ _ Hin) | apply F2, (in_combine_r _ _ _ _ Hin)].
Qed.

Lemma has_shape2_nth {A : Type} (n d : nat) (t : list (list A)) (q : nat) :
  has_shape2 n d t -> q < n -> length (nth q t []) = d.
Proof.
  intros [Hl F] Hq. rewrite Forall_forall in F. apply F, nth_In. lia.
Qed.

Lemma has_shape3_nth {A : Type} (h n d : nat) (t : list (list (list A))) (hi : nat) :
  has_shape3 h n d t -> hi < h -> has_shape2 n d (nth hi t []).
Proof.
  intros [Hl F] Hh. rewrite Forall_forall in F. apply F, nth_In. lia.
Qed.

Lemma has_shape4_nth {A : Type} (b h n d : nat) (t : list (list (list (list A))))
      (bi : nat) :
  has_shape4 b h n d t -> bi < b -> has_shape3 h n d (nth bi t []).
Proof.
  intros [Hl F] Hb. rewrite Forall_forall in F. apply F, nth_In. lia.
Qed.

Lemma hd_nth0 {A : Type} (d : A) (l : list A) : hd d l = nth 0 l d.
Proof. destruct l; reflexivity. Qed.

Lemma shape_ij_of_shape (b h i j : nat) (dots : list (list (list (list R)))) :
  has_shape4 b h i j dots -> 0 < b -> 0 < h ->
  shape_ij dots = (i, if Nat.eqb i 0 then 0 else j).
Proof.
  intros Hs Hb Hh. unfold shape_ij.
  pose proof (has_shape4_nth _ _ _ _ _ 0 Hs Hb) as H3.
  pose proof (has_shape3_nth _ _ _ _ 0 H3 Hh) as H2.
  rewrite !hd_nth0. destruct H2 as [Hl F]. rewrite Hl. f_equal.
  destruct (Nat.eqb_spec i 0) as [-> | Hi].
  - destruct (nth 0 (nth 0 dots []) []); [reflexivity | discriminate].
  - rewrite Forall_forall in F. apply F, nth_In. lia.
Qed.


(** The bias tensor (heads, i, j) that [forward] builds for logits of
    shape (.., i, j). *)
Lemma forward_as_bias (self : t) (dots : list (list (list (list R)))) :
  valid_buckets (causal self) (num_buckets self) default_max_distance ->
  Z.of_nat (length (relative_attention_bias self)) = num_buckets self ->
  (Z.of_nat (fst (shape_ij dots)) <= 2 ^ 63)%Z ->
  forward self dots
  = Some (map (fun dots_b =>
                 zipWith (zipWith (zipWith Rplus)) dots_b
                   (map (fun hh =>
                           map (fun q =>
                                  map (fun k =>
                                         nth hh
                                           (nth (Z.to_nat
                                                   (bucket_elt (causal self)
                                                      (half_buckets (causal self)
                                                                    (num_buckets self))
                                                      default_max_distance
                                                      (Z.of_nat k - Z.of_nat q)))
                                                (relative_attention_bias self) [])
                                           0%R)
                                      (seq 0 (snd (shape_ij dots))))
                               (seq 0 (fst (shape_ij dots))))
                        (seq 0 (length (hd [] (relative_attention_bias self))))))
              dots).
Proof.
  intros Hv Htable Hsize. unfold forward.
  destruct (shape_ij dots) as [i j]. cbn [fst snd] in *.
  rewrite (bucket_defined _ _ _ _ Hv).
  set (g := fun idx : Z => nth (Z.to_nat idx) (relative_attention_bias self) []).
  rewrite (mapM_map_Some _ (map g)).
  - f_equal. apply map_ext. intros db. f_equal.
    unfold rearrange_bias, arange. apply map_ext. intros hh.
    rewrite !map_map. apply map_ext. intros q.
    rewrite !map_map. reflexivity.
  - intros row Hrow. apply mapM_map_Some. intros idx Hidx.
    apply in_map_iff in Hrow as (r0 & <- & Hr0).
    apply in_map_iff in Hidx as (o & <- & Ho).
    pose proof (arange_offset_not_int64_min i j r0 o Hsize Hr0 Ho) as Hne.
    pose proof (bucket_elt_range _ _ _ o Hv (fun _ => Hne)) as [Hlo Hhi].
    unfold embedding, g.
    match goal with |- (if ?c then _ else _) = _ => destruct c eqn:E end;
      [apply Z.ltb_lt in E; lia |].
    apply nth_error_nth'. lia.
Qed.

(** X8.  With valid bucketing parameters at the default [max_distance] and
    a table of [num_buckets] rows of [h] entries, [forward] raises nothing
    on logits of shape (b, h, i, j), keeps their shape, and adds to the
    logit of head [hi] at query [q] and key [k] the table entry of head
    [hi] in the bucket of the offset [k - q], the same for every batch
    element.  The positions are int64 values: there are at most [2^63]
    query positions, so that no offset is [-2^63]. *)
Theorem relative_position_bias_entries
        (self : t) (b h i j : nat) (dots : list (list (list (list R)))) :
  valid_buckets (causal self) (num_buckets self) default_max_distance ->
  Z.of_nat (length (relative_attention_bias self)) = num_buckets self ->
  Forall (fun row => length row = h) (relative_attention_bias self) ->
  has_shape4 b h i j dots ->
  (Z.of_nat i <= 2 ^ 63)%Z ->
  exists out,
    forward self dots = Some out
    /\ has_shape4 b h i j out
    /\ forall bi hi q k,
        bi < b -> hi < h -> q < i -> k < j ->
        nth k (nth q (nth hi (nth bi out []) []) []) 0%R
        = (nth k (nth q (nth hi (nth bi dots []) []) []) 0
           + nth hi
               (nth (Z.to_nat
                       (bucket_elt (causal self)
                          (half_buckets (causal self) (num_buckets self))
                          default_max_distance (Z.of_nat k - Z.of_nat q)))
                    (relative_attention_bias self) [])
               0)%R.
Proof.
  intros Hv Htable Hrows Hs Hsize.
  assert (Hsize' : (Z.of_nat (fst (shape_ij dots)) <= 2 ^ 63)%Z).
  { destruct dots as [| db dots']; [cbn; lia |].
    destruct Hs as [_ F]. inversion F as [| ? ? [Hh Fh] _].
    destruct db as [| dh db']; [cbn; lia |].
    inversion Fh as [| ? ? [Hi _] _]. unfold shape_ij. cbn [hd fst]. lia. }
  rewrite (forward_as_bias self dots Hv Htable Hsize').
  eexists. split; [reflexivity |].
  assert (Hheads : length (hd [] (relative_attention_bias self)) = h).
  { destruct Hv as [Hme _].
    assert (2 <= num_buckets self)%Z.
    { unfold half_buckets in Hme. destruct (causal self).
      - pose proof (Z.mul_div_le (num_buckets self) 2 ltac:(lia)).
        pose proof (Z.mul_div_le (num_buckets self / 2) 2 ltac:(lia)). lia.
      - pose proof (Z.mul_div_le (num_buckets self) 2 ltac:(lia)). lia. }
    destruct (relative_attention_bias self) as [| row tbl]; [simpl in Htable; lia |].
    now inversion Hrows. }
  rewrite Hheads.
  set (bias := map _ (seq 0 h)).
  assert (Hbias : 0 < b -> 0 < h -> has_shape3 h i j bias).
  { intros Hb Hh. subst bias. rewrite (shape_ij_of_shape b h i j dots Hs Hb Hh).
    cbn [fst snd]. split; [now rewrite length_map, length_seq |].
    apply Forall_map, Forall_forall. intros hh _. split.
    - now rewrite length_map, length_seq.
    - apply Forall_map, Forall_forall. intros q Hq. rewrite length_map, length_seq.
      apply in_seq in Hq. destruct (Nat.eqb_spec i 0); [lia | reflexivity]. }
  split; [| ].
  - destruct Hs as [Hl F]. split; [now rewrite length_map |].
    apply Forall_map. rewrite Forall_forall in F |- *. intros db Hdb.
    specialize (F db Hdb).
    assert (Hb : 0 < b) by (destruct dots; [contradiction | simpl in Hl; lia]).
    destruct (Nat.eq_dec h 0) as [-> | Hh].
    + destruct F as [Hl0 _]. destruct db; [| discriminate].
      split; [reflexivity | constructor].
    + apply has_shape3_zipWith; [exact F | apply Hbias; lia].
  - intros bi hi q k Hbi Hhi Hq Hk.
    specialize (Hbias ltac:(lia) ltac:(lia)).
    pose proof (has_shape4_nth _ _ _ _ _ bi Hs Hbi) as H3.
    pose proof (has_shape3_nth _ _ _ _ hi H3 Hhi) as H2.
    pose proof (has_shape3_nth _ _ _ _ hi Hbias Hhi) as B2.
    rewrite (nth_map_lt _ dots bi _ []) by (destruct Hs; lia).
    rewrite (nth_zipWith _ _ _ _ [] [])
      by (destruct H3, Hbias; lia).
    rewrite (nth_zipWith _ _ _ _ [] [])
      by (destruct H2, B2; lia).
    rewrite (nth_zipWith _ _ _ _ 0%R 0%R)
      by (rewrite ?(has_shape2_nth _ _ _ q H2), ?(has_shape2_nth _ _ _ q B2); lia).
    f_equal. subst bias.
    rewrite (shape_ij_of_shape b h i j dots Hs ltac:(lia) ltac:(lia)).
    cbn [fst snd]. destruct (Nat.eqb_spec i 0); [lia |].
    rewrite (nth_map_lt _ (seq 0 h) hi _ 0) by (rewrite length_seq; lia).
    rewrite (nth_map_lt _ (seq 0 i) q _ 0) by (rewrite length_seq; lia).
    rewrite (nth_map_lt _ (seq 0 j) k _ 0) by (rewrite length_seq; lia).
    rewrite !seq_nth by lia. reflexivity.
Qed.

Lemma relative_position_bias_entries_witness :
  let self := mk true 4 128 [[1%R]; [2%R]; [3%R]; [4%R]] in
  exists out,
    forward self [[[[0%R; 0%R]; [0%R; 0%R]]]] = Some out
    /\ has_shape4 1 1 2 2 out.
Proof.
  intros self.
  destruct (relative_position_bias_entries self 1 1 2 2 [[[[0%R; 0%R]; [0%R; 0%R]]]])
    as (out & E & Hshape & _).
  - vm_compute; split; [discriminate | reflexivity].
  - reflexivity.
  - repeat constructor.
  - repeat constructor.
  - vm_compute. discriminate.
  - exists out. split; assumption.
Defined.

End BiasExtras.

(** ** Attention weights *)

Local Open Scope nat_scope.

Section SoftmaxExtras.

Lemma Forall_zipWith_in {A B C : Type} (P : C -> Prop) (f : A -> B -> C) l1 l2 :
  (forall a b, In a l1 -> In b l2 -> P (f a b)) -> Forall P (zipWith f l1 l2).
Proof.
  intros H. unfold zipWith. apply Forall_map, Forall_forall. intros [a b] Hin.
  apply H; [apply (in_combine_l _ _ _ _ Hin) | apply (in_combine_r _ _ _ _ Hin)].
Qed.

Lemma nth_map_nil {A B : Type} (f : A -> B) (l : list (list A)) (i : nat) :
  nth i (map (map f) l) [] = map f (nth i l []).
Proof. exact (map_nth (map f) l [] i). Qed.

Lemma softmax_nth_masked (row : list logit) (k : nat) :
  first_key_open row ->
  nth k row (Fin 0) = NegInf ->
  nth k (softmax row) (Some 0%R) = Some 0%R.
Proof.
  intros [-> | (r & rest & ->)] Hk; [destruct k; discriminate |].
  assert (Hlt : k < length (Fin r :: rest)).
  { destruct (Nat.lt_ge_cases k (length (Fin r :: rest))) as [H | H]; [exact H |].
    rewrite nth_overflow in Hk by exact H. discriminate. }
  unfold softmax. cbn [forallb is_neginf andb]. cbv zeta. rewrite map_map.
  rewrite (nth_map_lt _ _ _ _ (Fin 0)) by exact Hlt.
  rewrite Hk. cbn [expl]. f_equal. unfold Rdiv. apply Rmult_0_l.
Qed.

Lemma causal_row_masked (r : list R) (q k n : nat) :
  q < k ->
  let row := zipWith (fun d (m : bool) => if m then NegInf else d) (map Fin r)
                     (map (fun j => Nat.leb (q + 1) j) (seq 0 n)) in
  first_key_open row /\ (k < length row -> nth k row (Fin 0) = NegInf).
Proof.
  intros Hqk row. split.
  - subst row. destruct r as [| r0 r]; [now left |].
    destruct n as [| n]; [now left |].
    cbn [seq map]. rewrite zipWith_cons.
    destruct (Nat.leb_spec (q + 1) 0); [lia |]. right. eauto.
  - subst row. rewrite length_zipWith, !length_map, length_seq. intros Hk.
    rewrite (nth_zipWith _ _ _ _ (Fin 0) false) by (rewrite !length_map, ?length_seq; lia).
    rewrite (nth_map_lt _ (seq 0 n) _ _ 0) by (rewrite length_seq; lia).
    rewrite seq_nth by lia. cbn [Nat.add].
    destruct (Nat.leb_spec (q + 1) k); [reflexivity | lia].
Qed.

End SoftmaxExtras.

(** ** An all-valid padding mask *)

Local Open Scope nat_scope.

Section AllValidMask.

Lemma map_const_Forall {A B : Type} (f : A -> B) (c : B) (l : list A) :
  Forall (fun a => f a = c) l -> map f l = repeat c (length l).
Proof. induction 1 as [| a l Ha _ IH]; cbn; [reflexivity | now rewrite Ha, IH]. Qed.

Lemma zipWith_repeat_r {A B C : Type} (f : A -> B -> C) (l : list A) (c : B) :
  zipWith f l (repeat c (length l)) = map (fun a => f a c) l.
Proof.
  induction l as [| a l IH]; [reflexivity |].
  cbn [length repeat map]. rewrite zipWith_cons. now rewrite IH.
Qed.

Lemma zipWith_repeat_l {A B C : Type} (f : A -> B -> C) (c : A) (l : list B) :
  zipWith f (repeat c (length l)) l = map (f c) l.
Proof.
  induction l as [| a l IH]; [reflexivity |].
  cbn [length repeat map]. rewrite zipWith_cons. now rewrite IH.
Qed.

Lemma masked_fill_all_true (n j : nat) (d : list (list logit)) :
  has_shape2 n j d ->
  masked_fill_ d (repeat (repeat true j) n) = repeat (repeat NegInf j) n.
Proof.
  intros [Hl F]. unfold masked_fill_. rewrite <- Hl, zipWith_repeat_r.
  apply map_const_Forall. eapply Forall_impl; [| exact F].
  intros r Hr. cbv beta. rewrite <- Hr, zipWith_repeat_r.
  now apply map_const_Forall, Forall_forall.
Qed.

Lemma masked_fill_neginf (n j : nat) (mask : list (list bool)) :
  has_shape2 n j mask ->
  masked_fill_ (repeat (repeat NegInf j) n) mask = repeat (repeat NegInf j) n.
Proof.
  intros [Hl F]. unfold masked_fill_. rewrite <- Hl, zipWith_repeat_l.
  apply map_const_Forall. eapply Forall_impl; [| exact F].
  intros r Hr. cbv beta. rewrite <- Hr, zipWith_repeat_l.
  apply map_const_Forall, Forall_forall. intros m _. now destruct m.
Qed.

Lemma triu1_shape (n : nat) : has_shape2 n n (triu1 n).
Proof.
  unfold triu1. split; [now rewrite length_map, length_seq |].
  apply Forall_map, Forall_forall. intros i _. now rewrite length_map, length_seq.
Qed.

Lemma dot_all_nan (n : nat) (w : list R) :
  0 < n -> w <> [] -> dot (repeat (@None R) n) w = None.
Proof.
  intros Hn Hw. apply (dot_has_nan _ _ 0).
  - destruct w; [contradiction | simpl; lia].
  - destruct n; [lia | reflexivity].
Qed.

Lemma split_heads_shape {A : Type} (h d b n : nat) (t : list (list (list A))) :
  length t = b -> Forall (fun rows => length rows = n) t ->
  heads_shape b h n (Attention.split_heads h d t).
Proof.
  intros Hl F. unfold Attention.split_heads. split; [now rewrite length_map |].
  apply Forall_map. eapply Forall_impl; [| exact F]. intros rows Hrows. split.
  - now rewrite length_map, length_seq.
  - apply Forall_map, Forall_forall. intros hh _. now rewrite length_map.
Qed.

Lemma raw_dots_shape (s : R) (b h n j : nat) (q k : list (list (list (list R)))) :
  heads_shape b h n q -> heads_shape b h j k ->
  has_shape4 b h n j
    (zipWith (zipWith (fun qh kh =>
                         map (fun qi => map (fun kj => (dot qi kj * s)%R) kh) qh))
             q k).
Proof.
  intros [Hq Fq] [Hk Fk]. split; [rewrite length_zipWith; lia |].
  apply Forall_zipWith_in. intros qb kb Hqb Hkb.
  rewrite Forall_forall in Fq, Fk.
  destruct (Fq qb Hqb) as [Hqh Fqh]. destruct (Fk kb Hkb) as [Hkh Fkh].
  split; [rewrite length_zipWith; lia |].
  apply Forall_zipWith_in. intros qh kh Hqh' Hkh'.
  rewrite Forall_forall in Fqh, Fkh. split.
  - rewrite length_map. now apply Fqh.
  - apply Forall_map, Forall_forall. intros qi _. rewrite length_map. now apply Fkh.
Qed.

Lemma has_shape3_rows {A : Type} (b n d : nat) (x : list (list (list A))) :
  has_shape3 b n d x -> Forall (fun rows => length rows = n) x.
Proof. intros [_ F]. eapply Forall_impl; [| exact F]. now intros rows [H _]. Qed.

Lemma has_shape3_hd {A : Type} (b n d : nat) (x : list (list (list A))) :
  has_shape3 b n d x -> 0 < b -> length (hd [] x) = n.
Proof.
  intros [Hl F] Hb. destruct x as [| xb x]; [simpl in Hl; lia |].
  inversion F as [| ? ? [Hn _] _]. exact Hn.
Qed.

Lemma map4_Fin_shape (b h n j : nat) (D : list (list (list (list R)))) :
  has_shape4 b h n j D -> has_shape4 b h n j (map (map (map (map Fin))) D).
Proof.
  intros [Hl F]. split; [now rewrite length_map |].
  apply Forall_map. eapply Forall_impl; [| exact F]. intros Db [Hh Fh].
  split; [now rewrite length_map |].
  apply Forall_map. eapply Forall_impl; [| exact Fh]. intros Dh [Hn Fn].
  split; [now rewrite length_map |].
  apply Forall_map. eapply Forall_impl; [| exact Fn]. intros r Hr.
  now rewrite length_map.
Qed.

(** With an all-true query or key mask every logit is [-inf]. *)
Lemma logits_all_masked (self : Attention.t) (b n dim : nat)
      (x : list (list (list R))) (mask context_mask : option (list (list bool))) :
  has_shape3 b n dim x ->
  (mask = None \/ mask = Some (repeat (repeat true n) b)) ->
  (context_mask = None \/ context_mask = Some (repeat (repeat true n) b)) ->
  exists_ mask || exists_ context_mask = true ->
  Attention.logits self x None mask context_mask None
  = Some (repeat (repeat (repeat (repeat NegInf n) n) (Attention.heads self)) b).
Proof.
  intros Hx Hm Hc Hsome.
  destruct (Nat.eq_dec b 0) as [-> | Hb].
  { destruct Hx as [Hl _]. destruct x; [| discriminate].
    unfold Attention.logits, Attention.qkv, Attention.dots, Attention.pad_mask_stage,
      Attention.causal_stage.
    cbn [default map Attention.split_heads zipWith combine length hd repeat].
    rewrite Hsome.
    destruct Hm as [-> | ->], Hc as [-> | ->];
      cbn [default repeat zipWith combine map expand2 expand length Nat.eqb mapM];
      destruct (Attention.causal self); reflexivity. }
  unfold Attention.logits, Attention.qkv, Attention.dots. cbn [default].
  rewrite (has_shape3_hd b n dim x Hx) by lia.
  set (h := Attention.heads self).
  match goal with
  | |- context [zipWith (zipWith ?F) ?q ?k] =>
      assert (HD : has_shape4 (length x) h n n (zipWith (zipWith F) q k))
  end.
  { apply raw_dots_shape; apply split_heads_shape; rewrite ?length_map; try reflexivity;
      rewrite ?Forall_map;
      (eapply Forall_impl; [| apply (has_shape3_rows b n dim x Hx)]);
      intros rows Hr; cbv beta; now rewrite ?length_map. }
  apply map4_Fin_shape in HD.
  match type of HD with has_shape4 _ _ _ _ ?L => set (L0 := L) in * end.
  assert (Hlx : length x = b) by apply Hx.
  rewrite pad_mask_stage_fits;
    [| destruct Hm as [-> | ->]; [exact I | rewrite Hlx; apply has_shape2_repeat]
     | destruct Hc as [-> | ->]; [exact I | rewrite Hlx; apply has_shape2_repeat] ].
  assert (Hpad : fitting_pad_mask_stage (length x) n n mask context_mask L0
                 = repeat (repeat (repeat (repeat NegInf n) n) h) b).
  { unfold fitting_pad_mask_stage. rewrite Hsome.
    assert (Hq : default mask (fun _ => repeat (repeat true n) (length x))
                 = repeat (repeat true n) b)
      by (destruct Hx as [-> _]; destruct Hm as [-> | ->]; reflexivity).
    assert (Hk : default context_mask (fun _ => repeat (repeat true n) (length x))
                 = repeat (repeat true n) b)
      by (destruct Hx as [-> _]; destruct Hc as [-> | ->]; reflexivity).
    rewrite Hq, Hk.
    assert (Hmask : zipWith (fun qm km => map (fun qv : bool => map (fun kv => qv && kv) km) qm)
                            (repeat (repeat true n) b) (repeat (repeat true n) b)
                    = repeat (repeat (repeat true n) n) b).
    { rewrite <- (repeat_length (repeat true n) b) at 1. rewrite zipWith_repeat_l.
      rewrite map_repeat. f_equal. rewrite map_repeat. f_equal.
      rewrite map_repeat. reflexivity. }
    rewrite Hmask. destruct HD as [HlD FD].
    rewrite <- Hlx, <- HlD, zipWith_repeat_r.
    apply map_const_Forall. eapply Forall_impl; [| exact FD].
    intros Lb [Hh Fh]. cbv beta. rewrite <- Hh.
    apply map_const_Forall. eapply Forall_impl; [| exact Fh].
    intros d Hd. now apply masked_fill_all_true. }
  rewrite Hpad, causal_stage_fits. f_equal. unfold fitting_causal_stage. fold h.
  destruct (Attention.causal self); [| reflexivity].
  rewrite map_repeat. f_equal. rewrite map_repeat. f_equal.
  apply masked_fill_neginf, triu1_shape.
Qed.

Lemma concat_repeat {A : Type} (c : A) (d h : nat) :
  concat (repeat (repeat c d) h) = repeat c (h * d).
Proof.
  induction h as [| h IH]; [reflexivity |].
  cbn [repeat concat]. rewrite IH, <- repeat_app. reflexivity.
Qed.

Lemma init_value_width (dim dim_head heads : nat) (wkv : nat -> nat -> R) :
  0 < heads ->
  Nat.div (Linear.out_features (Linear.init dim (dim_head * heads * 2) wkv None)
           - Nat.div (Linear.out_features
                        (Linear.init dim (dim_head * heads * 2) wkv None) + 1) 2)
          heads = dim_head.
Proof.
  intros Hh. unfold Linear.out_features, Linear.init. cbn [Linear.weight].
  rewrite length_map, length_seq, chunk_size_even.
  replace (dim_head * heads * 2 - dim_head * heads) with (dim_head * heads) by lia.
  apply Nat.div_mul. lia.
Qed.

Lemma linear_all_nan (i o : nat) (w : nat -> nat -> R) (b : nat -> R) :
  0 < i ->
  Linear.forward (Linear.init i o w (Some b)) (repeat (@None R) i) = repeat None o.
Proof.
  intros Hi. rewrite linear_init_forward.
  rewrite (map_const_Forall _ None); [now rewrite length_seq |].
  apply Forall_forall. intros k _. cbn [sadd of_R Scalar_fnum].
  rewrite dot_all_nan; [reflexivity | exact Hi |].
  destruct i; [lia | discriminate].
Qed.

(** X11.  Self-attention with an all-true padding mask (no padding at all),
    given as [mask], as [context_mask] or as both, returns NaN at every
    entry of the output, for every input and parameters: all logits are
    forced to [-inf]. *)
Theorem all_valid_mask_gives_nan
        (dim dim_head heads : nat) (causal : bool) (self_mask : option (list (list bool)))
        (wq wkv wout : nat -> nat -> R) (bout : nat -> R) (self : Attention.t)
        (b n : nat) (x : list (list (list R)))
        (mask context_mask : option (list (list bool))) :
  Attention.init dim dim_head heads causal self_mask wq wkv wout bout = Some self ->
  0 < heads ->
  has_shape3 b n dim x ->
  (mask = None \/ mask = Some (repeat (repeat true n) b)) ->
  (context_mask = None \/ context_mask = Some (repeat (repeat true n) b)) ->
  exists_ mask || exists_ context_mask = true ->
  Attention.forward self x None mask context_mask None
  = Some (repeat (repeat (repeat None dim) n) b).
Proof.
  intros Hinit Hh Hx Hm Hc Hsome.
  rewrite forward_from_logits, (logits_all_masked self b n dim x mask context_mask)
    by assumption.
  cbv zeta. f_equal.
  unfold Attention.init in Hinit.
  destruct (Nat.eqb_spec dim_head 0) as [| Hdh]; [discriminate |].
  injection Hinit as <-.
  cbn [Attention.to_out Attention.to_kv Attention.to_q Attention.heads Attention.causal
       default].
  rewrite init_value_width by exact Hh.
  destruct (Nat.eq_dec b 0) as [-> | Hb].
  { destruct Hx as [Hl _]. destruct x; [reflexivity | discriminate]. }
  rewrite (has_shape3_hd b n dim x Hx) by lia.
  (* the attention weights *)
  rewrite !map_repeat, softmax_all_masked.
  (* the weighted values *)
  set (V := Attention.split_heads heads dim_head _).
  assert (HV : heads_shape b heads n V).
  { subst V. apply split_heads_shape; [rewrite length_map; apply Hx |].
    apply Forall_map. eapply Forall_impl; [| apply (has_shape3_rows b n dim x Hx)].
    intros rows Hr. cbv beta. now rewrite length_map. }
  match goal with
  | |- context [Attention.weighted_values dim_head ?A V] =>
      assert (HW : Attention.weighted_values dim_head A V
                   = repeat (repeat (repeat (repeat None dim_head) n) heads) b)
  end.
  { unfold Attention.weighted_values. destruct HV as [HlV FV].
    rewrite <- HlV, zipWith_repeat_l. apply map_const_Forall.
    eapply Forall_impl; [| exact FV]. intros vb [Hvb Fvb]. cbv beta.
    rewrite <- Hvb, zipWith_repeat_l. apply map_const_Forall.
    eapply Forall_impl; [| exact Fvb]. intros vh Hvh. cbv beta.
    rewrite map_repeat.
    destruct n as [| n']; [reflexivity |]. f_equal.
    rewrite (map_const_Forall (B := fnum) _ None); [now rewrite length_seq |].
    apply Forall_forall. intros dd _. apply dot_all_nan; [lia |].
    destruct vh; discriminate. }
  rewrite HW.
  (* merging the heads and projecting *)
  unfold Attention.merge_heads. rewrite !map_repeat. f_equal.
  rewrite map_map.
  rewrite (map_const_Forall (B := list fnum) _ (repeat None dim));
    [now rewrite length_seq |].
  apply Forall_forall. intros i Hi. apply in_seq in Hi.
  rewrite map_repeat, nth_repeat_lt by lia.
  rewrite concat_repeat. rewrite Nat.mul_comm. apply linear_all_nan. nia.
Qed.

Lemma all_valid_mask_gives_nan_witness :
  let w := fun k i : nat => INR (k + i) in
  exists self,
    Attention.init 2 1 1 false None w w w INR = Some self
    /\ Attention.forward self [[[1%R; 2%R]; [3%R; 4%R]]] None
                          (Some [[true; true]]) None None
       = Some [[[None; None]; [None; None]]].
Proof.
  intros w. eexists. split; [reflexivity |].
  apply (all_valid_mask_gives_nan 2 1 1 false None w w w INR _ 1 2
           [[[1%R; 2%R]; [3%R; 4%R]]] (Some [[true; true]]) None).
  - reflexivity.
  - lia.
  - repeat constructor.
  - now right.
  - now left.
  - reflexivity.
Defined.

End AllValidMask.

(** ** Width of the feed-forward network *)

Local Open Scope nat_scope.

Section FeedForwardShape.

Context {A : Type} `{Scalar A} (gelu : A -> A).

(** X14.  [FeedForward] maps a feature vector to [dim_out] features, [dim]
    when [dim_out] is not given, in the gated and in the plain variant; its
    hidden layer has [dim * mult] features in both. *)
Theorem feed_forward_width
        (dim mult : nat) (dim_out : option nat) (glu : bool) (dropout : R)
        (w1 w2 : nat -> nat -> R) (b1 b2 : nat -> R) (x : list A) :
  let ff := FeedForward.init dim dim_out mult glu dropout w1 b1 w2 b2 in
  length (FeedForward.project_in_forward gelu (FeedForward.project_in ff) x) = dim * mult
  /\ length (FeedForward.forward gelu ff x)
     = match dim_out with
       | Some d => d
       | None => dim
       end.
Proof.
  intros ff. subst ff. unfold FeedForward.forward, FeedForward.init.
  cbn [FeedForward.project_in FeedForward.project_out]. split.
  - destruct glu; cbn [negb FeedForward.project_in_forward].
    + now rewrite geglu_forward_init, length_map, length_seq.
    + now rewrite length_map, linear_init_forward, length_map, length_seq.
  - rewrite linear_init_forward, length_map, length_seq. now destruct dim_out.
Qed.

End FeedForwardShape.

(** ** Sequence wrappers *)

Local Open Scope nat_scope.

Section WrapperFacts.

Lemma mapM_defined_iff {A B : Type} (f : A -> option B) (l : list A) :
  (exists bs, mapM f l = Some bs) <-> Forall (fun a => exists b, f a = Some b) l.
Proof.
  split; [| apply mapM_defined].
  induction l as [| a l IH]; intros [bs E]; [constructor |].
  cbn [mapM] in E. destruct (f a) as [b |] eqn:Ea; [| discriminate].
  destruct (mapM f l) as [bs' |] eqn:El; [| discriminate].
  constructor; [now exists b | apply IH; now exists bs'].
Qed.

Lemma Forall_iff_ext {A : Type} (P Q : A -> Prop) (l : list A) :
  (forall a, P a <-> Q a) -> Forall P l <-> Forall Q l.
Proof.
  intros H. split; intros F; eapply Forall_impl; try exact F; intros a; apply H.
Qed.

Lemma mapM_length {A B : Type} (f : A -> option B) (l : list A) bs :
  mapM f l = Some bs -> length bs = length l.
Proof.
  revert bs. induction l as [| a l IH]; intros bs E; cbn [mapM] in E.
  - now injection E as <-.
  - destruct (f a); [| discriminate]. destruct (mapM f l) as [bs' |]; [| discriminate].
    injection E as <-. cbn. now rewrite (IH bs').
Qed.

Lemma embedding_defined_iff (table : list (list R)) (idx : Z) :
  (exists row, RelativePositionBias.embedding table idx = Some row)
  <-> (0 <= idx < Z.of_nat (length table))%Z.
Proof.
  unfold RelativePositionBias.embedding.
  destruct (Z.ltb_spec idx 0) as [Hneg | Hpos].
  - split; [intros [row E]; discriminate | lia].
  - split.
    + intros [row E]. assert (Z.to_nat idx < length table)
        by (apply nth_error_Some; rewrite E; discriminate). lia.
    + intros Hr. destruct (nth_error table (Z.to_nat idx)) eqn:E; [eauto |].
      apply nth_error_None in E. lia.
Qed.

Lemma arange_in_range (n k : nat) :
  Forall (fun p => (0 <= p < Z.of_nat k)%Z) (arange n) <-> (n = 0 \/ n <= k).
Proof.
  unfold arange. rewrite Forall_map, Forall_forall. split.
  - intros H. destruct n as [| n]; [now left | right].
    specialize (H n). rewrite in_seq in H. lia.
  - intros Hn p Hp. apply in_seq in Hp. lia.
Qed.

Context {m : Type -> Type} {M : Monad m} {Mask RelPos : Type}.

(** X15.  [TransformerWrapper.forward] can embed its input exactly when
    every token id lies inside the token table and the sequence is no
    longer than [max_seq_len]; otherwise it raises before the layers are
    called, in either output mode. *)
Theorem transformer_wrapper_index_errors
        (num_tokens max_seq_len dim : nat)
        (attn_layers : sublayer m (list (list (list R))) Mask RelPos)
        (layer_norm : nat -> list R -> list R) (tok pos : nat -> nat -> R)
        (x : list (list Z)) :
  let self := TransformerWrapper.init num_tokens max_seq_len dim attn_layers
                                      layer_norm tok pos in
  (embeddable num_tokens max_seq_len x ->
   exists e, TransformerWrapper.embed self x = Some e)
  /\ (~ embeddable num_tokens max_seq_len x ->
      forall return_embeddings kw,
        TransformerWrapper.forward self x return_embeddings kw = ret None).
Proof.
  intros self.
  assert (Htok : (exists e, mapM (mapM (RelativePositionBias.embedding
                                           (TransformerWrapper.token_emb self))) x = Some e)
                 <-> Forall (Forall (fun t => (0 <= t < Z.of_nat num_tokens)%Z)) x).
  { rewrite mapM_defined_iff. apply Forall_iff_ext. intros row.
    rewrite mapM_defined_iff. apply Forall_iff_ext. intros t.
    rewrite embedding_defined_iff. subst self. unfold TransformerWrapper.init.
    cbn [TransformerWrapper.token_emb]. now rewrite length_map, length_seq. }
  assert (Hpos : (exists p, mapM (RelativePositionBias.embedding
                                    (TransformerWrapper.pos_emb self))
                                 (arange (length (hd [] x))) = Some p)
                 <-> length (hd [] x) <= max_seq_len).
  { rewrite mapM_defined_iff.
    rewrite (Forall_iff_ext _ (fun p => (0 <= p < Z.of_nat max_seq_len)%Z)).
    - rewrite arange_in_range. lia.
    - intros p. rewrite embedding_defined_iff. subst self. unfold TransformerWrapper.init.
      cbn [TransformerWrapper.pos_emb]. now rewrite length_map, length_seq. }
  split.
  - intros [Ht Hp]. apply Htok in Ht as [e He]. apply Hpos in Hp as [p Hp'].
    unfold TransformerWrapper.embed. rewrite He, Hp'. eauto.
  - intros Hne re kw. unfold TransformerWrapper.forward, TransformerWrapper.embed.
    destruct (mapM (mapM _) x) as [e |] eqn:He; [| reflexivity].
    destruct (mapM _ (arange _)) as [p |] eqn:Hp; [| reflexivity].
    exfalso. apply Hne. split; [apply Htok | apply Hpos]; eauto.
Qed.

(** The embedded input, entry by entry. *)
Lemma embed_entries (num_tokens max_seq_len dim : nat)
      (attn_layers : sublayer m (list (list (list R))) Mask RelPos)
      (layer_norm : nat -> list R -> list R) (tok pos : nat -> nat -> R)
      (x : list (list Z)) :
  embeddable num_tokens max_seq_len x ->
  TransformerWrapper.embed
    (TransformerWrapper.init num_tokens max_seq_len dim attn_layers layer_norm tok pos) x
  = Some (map (fun xb =>
                 zipWith (zipWith Rplus)
                         (map (fun t => map (tok (Z.to_nat t)) (seq 0 dim)) xb)
                         (map (fun i => map (pos i) (seq 0 dim)) (seq 0 (length (hd [] x)))))
              x).
Proof.
  intros [Ht Hp]. unfold TransformerWrapper.embed, TransformerWrapper.init.
  cbn [TransformerWrapper.token_emb TransformerWrapper.pos_emb].
  rewrite (mapM_map_Some _ (map (fun t => map (tok (Z.to_nat t)) (seq 0 dim)))).
  - rewrite (mapM_map_Some _ (fun p => map (pos (Z.to_nat p)) (seq 0 dim))).
    + f_equal. rewrite map_map. apply map_ext. intros xb. f_equal.
      unfold arange. rewrite map_map.
      apply map_ext. intros i. now rewrite Nat2Z.id.
    + intros p Hin. unfold arange in Hin. apply in_map_iff in Hin as (i & <- & Hi).
      apply in_seq in Hi. unfold RelativePositionBias.embedding.
      destruct (Z.ltb_spec (Z.of_nat i) 0); [lia |].
      rewrite Nat2Z.id.
      rewrite (nth_error_nth' _ []) by (rewrite length_map, length_seq; lia).
      f_equal. rewrite (nth_map_lt _ _ _ _ 0) by (rewrite length_seq; lia).
      now rewrite seq_nth by lia.
  - intros row Hrow. apply mapM_map_Some. intros t Hin.
    rewrite Forall_forall in Ht. specialize (Ht row Hrow).
    rewrite Forall_forall in Ht. specialize (Ht t Hin).
    unfold RelativePositionBias.embedding.
    destruct (Z.ltb_spec t 0); [lia |].
    rewrite (nth_error_nth' _ []) by (rewrite length_map, length_seq; lia).
    f_equal. rewrite (nth_map_lt _ _ _ _ 0) by (rewrite length_seq; lia).
    now rewrite seq_nth by lia.
Qed.

Lemma embed_shape (num_tokens max_seq_len dim b n : nat)
      (attn_layers : sublayer m (list (list (list R))) Mask RelPos)
      (layer_norm : nat -> list R -> list R) (tok pos : nat -> nat -> R)
      (x : list (list Z)) :
  embeddable num_tokens max_seq_len x -> has_shape2 b n x ->
  exists e,
    TransformerWrapper.embed
      (TransformerWrapper.init num_tokens max_seq_len dim attn_layers layer_norm tok pos) x
    = Some e
    /\ has_shape3 b n dim e.
Proof.
  intros He [Hb Hrows]. rewrite (embed_entries _ _ _ _ _ _ _ _ He).
  eexists. split; [reflexivity |]. split; [now rewrite length_map |].
  apply Forall_map. rewrite Forall_forall in Hrows |- *. intros xb Hxb.
  assert (Hn : length (hd [] x) = n).
  { destruct x as [| x0 x]; [contradiction |]. apply Hrows. now left. }
  rewrite Hn. split.
  - rewrite length_zipWith, !length_map, length_seq, (Hrows xb Hxb). lia.
  - apply Forall_zipWith_in. intros r1 r2 H1 H2.
    apply in_map_iff in H1 as (t & <- & _). apply in_map_iff in H2 as (i & <- & _).
    rewrite length_zipWith, !length_map, length_seq. lia.
Qed.

End WrapperFacts.

Section WrapperRuns.

Context {Mask RelPos : Type}.

(** X16.  Weight tying: for embeddable token ids of shape (b, n), layers
    and a normalisation that keep the shape (b, n, dim), the wrapper returns
    embeddings of shape (b, n, dim) or logits of shape (b, n, num_tokens),
    and the logit of token [t] is the inner product of the returned
    embedding with row [t] of the input embedding table. *)
Theorem transformer_wrapper_tied_logits
        (num_tokens max_seq_len dim b n : nat)
        (layers : list (list (list R)) -> kwargs (list (list (list R))) Mask RelPos
                  -> list (list (list R)))
        (layer_norm : nat -> list R -> list R) (tok pos : nat -> nat -> R)
        (x : list (list Z)) (kw : kwargs (list (list (list R))) Mask RelPos) :
  let self := TransformerWrapper.init num_tokens max_seq_len dim
                (pure_sublayer layers) layer_norm tok pos in
  embeddable num_tokens max_seq_len x ->
  has_shape2 b n x ->
  (forall y, has_shape3 b n dim y -> has_shape3 b n dim (layers y kw)) ->
  (forall r, length r = dim -> length (layer_norm dim r) = dim) ->
  exists h logits,
    unIdent (TransformerWrapper.forward self x true kw) = Some h
    /\ unIdent (TransformerWrapper.forward self x false kw) = Some logits
    /\ has_shape3 b n dim h
    /\ has_shape3 b n num_tokens logits
    /\ forall bi i t,
        bi < b -> i < n -> t < num_tokens ->
        nth t (nth i (nth bi logits []) []) 0%R
        = dot (nth i (nth bi h []) []) (map (tok t) (seq 0 dim)).
Proof.
  intros self He Hx Hlayers Hnorm.
  destruct (embed_shape (m := ident) num_tokens max_seq_len dim b n
              (pure_sublayer layers) layer_norm tok pos x He Hx) as (e & Ee & Hshape).
  fold self in Ee.
  unfold TransformerWrapper.forward. rewrite Ee.
  cbn [bind ret Monad_ident unIdent pure_sublayer TransformerWrapper.attn_layers
       TransformerWrapper.init self].
  set (h := map (map (TransformerWrapper.norm self)) (layers e kw)).
  assert (Hh : has_shape3 b n dim h).
  { destruct (Hlayers e Hshape) as [Hb F]. subst h. split; [now rewrite length_map |].
    apply Forall_map. eapply Forall_impl; [| exact F]. intros yb [Hn Fr]. split.
    - now rewrite length_map.
    - apply Forall_map. eapply Forall_impl; [| exact Fr]. intros r Hr.
      now apply Hnorm. }
  exists h, (TransformerWrapper.to_logits self h).
  split; [reflexivity |]. split; [reflexivity |]. split; [exact Hh |]. split.
  - destruct Hh as [Hb F]. unfold TransformerWrapper.to_logits.
    split; [now rewrite length_map |].
    apply Forall_map. eapply Forall_impl; [| exact F]. intros yb [Hn Fr]. split.
    + now rewrite length_map.
    + apply Forall_map, Forall_forall. intros r _.
      subst self. unfold TransformerWrapper.init. cbn [TransformerWrapper.token_emb].
      now rewrite !length_map, length_seq.
  - intros bi i t Hbi Hi Ht. unfold TransformerWrapper.to_logits.
    pose proof (has_shape3_nth _ _ _ _ bi Hh Hbi) as H2.
    rewrite (nth_map_lt _ h bi _ []) by (destruct Hh; lia).
    rewrite (nth_map_lt _ _ i _ []) by (destruct H2; lia).
    subst self. unfold TransformerWrapper.init. cbn [TransformerWrapper.token_emb].
    rewrite (nth_map_lt _ _ t _ []) by (rewrite length_map, length_seq; lia).
    rewrite (nth_map_lt _ _ t _ 0) by (rewrite length_seq; lia).
    now rewrite seq_nth by lia.
Qed.

Lemma run_bind_state {S A B : Type} (c : state S A) (k : A -> state S B) (s : S) :
  runState (bind c k) s = runState (k (fst (runState c s))) (snd (runState c s)).
Proof. simpl. destruct (runState c s). reflexivity. Qed.

Lemma run_wrapper (self : TransformerWrapper.t (state (list (call (list (list (list R))) Mask RelPos))) Mask RelPos)
      (x : list (list Z)) (e : list (list (list R))) (return_embeddings : bool)
      (kw : kwargs (list (list (list R))) Mask RelPos)
      (log : list (call (list (list (list R))) Mask RelPos)) :
  TransformerWrapper.embed self x = Some e ->
  runState (TransformerWrapper.forward self x return_embeddings kw) log
  = (Some (let h := map (map (TransformerWrapper.norm self))
                        (fst (runState (TransformerWrapper.attn_layers self e kw) log)) in
           if return_embeddings then h else TransformerWrapper.to_logits self h),
     snd (runState (TransformerWrapper.attn_layers self e kw) log)).
Proof.
  intros E. unfold TransformerWrapper.forward. rewrite E, run_bind_state.
  destruct return_embeddings; reflexivity.
Qed.

Lemma run_encoder_layers (dim depth : nat) (rel_pos_bias : bool) (rp : RelPos)
      (norm_class : nat -> list (list (list R)) -> list (list (list R)))
      (attention feed_forward
       : nat -> list (list (list R)) -> kwargs (list (list (list R))) Mask RelPos
         -> list (list (list R)))
      (x : list (list (list R))) (kw : kwargs (list (list (list R))) Mask RelPos)
      (log : list (call (list (list (list R))) Mask RelPos)) :
  snd (runState (encoder_layers
                   (Encoder.init dim depth rel_pos_bias rp norm_class
                      (fun l => recorded SelfAttn (attention l))
                      (fun l => recorded FF (feed_forward l)))
                   x kw) log)
  = log ++ concat (repeat (encoder_layer_calls (if rel_pos_bias then Some rp else None)
                                               (kw_mask kw)) depth).
Proof.
  unfold encoder_layers, Encoder.forward, Encoder.init.
  cbn [Encoder.layers Encoder.rel_pos]. apply encoder_loop_calls.
Qed.

Lemma run_decoder_layers (dim depth : nat) (cross_attend rel_pos_bias : bool) (rp : RelPos)
      (norm_class : nat -> list (list (list R)) -> list (list (list R)))
      (attention cross_attention feed_forward
       : nat -> list (list (list R)) -> kwargs (list (list (list R))) Mask RelPos
         -> list (list (list R)))
      (x : list (list (list R))) (kw : kwargs (list (list (list R))) Mask RelPos)
      (log : list (call (list (list (list R))) Mask RelPos)) :
  snd (runState (decoder_layers
                   (Decoder.init dim depth cross_attend rel_pos_bias rp norm_class
                      (fun l => recorded SelfAttn (attention l))
                      (fun l => recorded CrossAttn (cross_attention l))
                      (fun l => recorded FF (feed_forward l)))
                   x kw) log)
  = log ++ concat (repeat (decoder_layer_calls cross_attend
                             (if rel_pos_bias then Some rp else None)
                             (kw_context kw) (kw_mask kw) (kw_context_mask kw)) depth).
Proof.
  unfold decoder_layers, Decoder.forward, Decoder.init.
  cbn [Decoder.layers Decoder.rel_pos]. apply decoder_loop_calls.
Qed.

(** X17.  Mask routing in [XTransformer.forward], for embeddable [src] and
    [tgt].  The encoder's self-attention calls receive [src_mask] as
    [mask]; the decoder's self-attention calls receive no mask; its
    cross-attention calls receive the encoder's normalised output as
    [context], [tgt_mask] as [mask] and [src_mask] as [context_mask]; no
    call receives a relative position bias.  The calls are made in this
    order: all encoder layers, then all decoder layers. *)
Theorem xtransformer_mask_routing
        (num_tokens dim depth max_seq_len heads : nat) (no_rel_pos : RelPos)
        (layer_norm : nat -> list R -> list R)
        (enc_attention dec_attention cross_attention enc_feed_forward dec_feed_forward
         : nat -> list (list (list R)) -> kwargs (list (list (list R))) Mask RelPos
           -> list (list (list R)))
        (enc_tok enc_pos dec_tok dec_pos : nat -> nat -> R)
        (src tgt : list (list Z)) (src_mask tgt_mask : option Mask) :
  let self := XTransformer.init num_tokens dim depth max_seq_len heads no_rel_pos layer_norm
                (fun _ _ _ _ l => recorded SelfAttn (enc_attention l))
                (fun _ _ _ _ l => recorded SelfAttn (dec_attention l))
                (fun _ _ _ _ l => recorded CrossAttn (cross_attention l))
                (fun _ l => recorded FF (enc_feed_forward l))
                (fun _ l => recorded FF (dec_feed_forward l))
                enc_tok enc_pos dec_tok dec_pos in
  embeddable num_tokens max_seq_len src ->
  embeddable num_tokens max_seq_len tgt ->
  exists enc logits,
    fst (runState (TransformerWrapper.forward (XTransformer.encoder self) src true
                     (mk_kwargs None src_mask None None)) [])
    = Some enc
    /\ runState (XTransformer.forward self src tgt src_mask tgt_mask) []
       = (Some logits,
          concat (repeat (encoder_layer_calls None src_mask) depth)
          ++ concat (repeat (decoder_layer_calls true None (Some enc) tgt_mask src_mask)
                            depth)).
Proof.
  intros self Hsrc Htgt.
  pose proof (embed_entries num_tokens max_seq_len dim
                (TransformerWrapper.attn_layers (XTransformer.encoder self))
                layer_norm enc_tok enc_pos src Hsrc) as Ee.
  pose proof (embed_entries num_tokens max_seq_len dim
                (TransformerWrapper.attn_layers (XTransformer.decoder self))
                layer_norm dec_tok dec_pos tgt Htgt) as Ed.
  match type of Ee with _ = Some ?v => set (e := v) in Ee end.
  match type of Ed with _ = Some ?v => set (d := v) in Ed end.
  change (TransformerWrapper.embed (XTransformer.encoder self) src = Some e) in Ee.
  change (TransformerWrapper.embed (XTransformer.decoder self) tgt = Some d) in Ed.
  unfold XTransformer.forward.
  rewrite run_bind_state, (run_wrapper _ src e true _ [] Ee). cbn [fst snd].
  do 2 eexists. split; [reflexivity |].
  rewrite (run_wrapper _ tgt d false _ _ Ed). f_equal.
  subst self. unfold XTransformer.init.
  cbn [XTransformer.encoder XTransformer.decoder TransformerWrapper.attn_layers
       TransformerWrapper.init].
  rewrite run_decoder_layers, run_encoder_layers. reflexivity.
Qed.

End WrapperRuns.

Lemma transformer_wrapper_index_errors_witness :
  let self := TransformerWrapper.init (m := ident) (Mask := unit) (RelPos := unit)
                3 2 1 (fun x _ => ret x) (fun _ r => r)
                (fun t d => INR t) (fun i d => INR i) in
  (exists e, TransformerWrapper.embed self [[0; 2]%Z] = Some e)
  /\ TransformerWrapper.forward self [[5%Z]] false no_kwargs = ret None
  /\ TransformerWrapper.forward self [[0; 1; 2]%Z] false no_kwargs = ret None.
Proof.
  intros self.
  destruct (transformer_wrapper_index_errors (m := ident) (Mask := unit) (RelPos := unit)
              3 2 1 (fun x _ => ret x) (fun _ r => r) (fun t d => INR t) (fun i d => INR i)
              [[0; 2]%Z]) as [Hok _].
  destruct (transformer_wrapper_index_errors (m := ident) (Mask := unit) (RelPos := unit)
              3 2 1 (fun x _ => ret x) (fun _ r => r) (fun t d => INR t) (fun i d => INR i)
              [[5%Z]]) as [_ Htok].
  destruct (transformer_wrapper_index_errors (m := ident) (Mask := unit) (RelPos := unit)
              3 2 1 (fun x _ => ret x) (fun _ r => r) (fun t d => INR t) (fun i d => INR i)
              [[0; 1; 2]%Z]) as [_ Hlen].
  split; [| split].
  - apply Hok. split; [repeat constructor; lia | simpl; lia].
  - apply Htok. intros [Ht _]. inversion Ht as [| ? ? Hrow _]. inversion Hrow. lia.
  - apply Hlen. intros [_ Hn]. simpl in Hn. lia.
Defined.

Lemma transformer_wrapper_tied_logits_witness :
  let self := TransformerWrapper.init (m := ident) (Mask := unit) (RelPos := unit)
                3 2 1 (pure_sublayer (fun x _ => x)) (fun _ r => r)
                (fun t d => INR t) (fun i d => INR i) in
  exists h logits,
    unIdent (TransformerWrapper.forward self [[0; 2]%Z] true no_kwargs) = Some h
    /\ unIdent (TransformerWrapper.forward self [[0; 2]%Z] false no_kwargs) = Some logits
    /\ has_shape3 1 2 3 logits.
Proof.
  intros self.
  destruct (transformer_wrapper_tied_logits (Mask := unit) (RelPos := unit)
              3 2 1 1 2 (fun x _ => x) (fun _ r => r) (fun t d => INR t) (fun i d => INR i)
              [[0; 2]%Z] no_kwargs) as (h & logits & Eh & El & _ & Hs & _).
  - split; [repeat constructor; lia | simpl; lia].
  - repeat constructor.
  - intros y Hy. exact Hy.
  - intros r Hr. exact Hr.
  - exists h, logits. split; [exact Eh | split; [exact El | exact Hs]].
Defined.

Lemma xtransformer_mask_routing_witness :
  let id3 := fun (_ : nat) (x : list (list (list R)))
                 (_ : kwargs (list (list (list R))) bool unit) => x in
  let self := XTransformer.init 3 1 2 4 8 tt (fun _ r => r)
                (fun _ _ _ _ l => recorded SelfAttn (id3 l))
                (fun _ _ _ _ l => recorded SelfAttn (id3 l))
                (fun _ _ _ _ l => recorded CrossAttn (id3 l))
                (fun _ l => recorded FF (id3 l))
                (fun _ l => recorded FF (id3 l))
                (fun t d => INR t) (fun i d => INR i)
                (fun t d => INR t) (fun i d => INR i) in
  exists enc logits,
    runState (XTransformer.forward self [[0; 1]%Z] [[2%Z]] (Some true) (Some false)) []
    = (Some logits,
       concat (repeat (encoder_layer_calls None (Some true)) 2)
       ++ concat (repeat (decoder_layer_calls true None (Some enc) (Some false) (Some true))
                         2)).
Proof.
  intros id3 self.
  destruct (xtransformer_mask_routing (Mask := bool) (RelPos := unit)
              3 1 2 4 8 tt (fun _ r => r) id3 id3 id3 id3 id3
              (fun t d => INR t) (fun i d => INR i) (fun t d => INR t) (fun i d => INR i)
              [[0; 1]%Z] [[2%Z]] (Some true) (Some false))
    as (enc & logits & _ & E).
  - split; [repeat constructor; lia | simpl; lia].
  - split; [repeat constructor; lia | simpl; lia].
  - exists enc, logits. exact E.
Defined.

(** ** Independence of batch elements *)

Local Open Scope nat_scope.

Section BatchFacts.





End BatchFacts.

(** ** Cross-attention, query by query *)

Local Open Scope nat_scope.

Section QueryFacts.









End QueryFacts.

(** ** The image wrapper *)

Local Open Scope nat_scope.

Section ImageFacts.

Context {m : Type -> Type} {Mask RelPos : Type}.

Lemma length_flat_map_const {A B : Type} (f : A -> list B) (k : nat) (l : list A) :
  (forall a, length (f a) = k) -> length (flat_map f l) = length l * k.
Proof.
  intros Hf. induction l as [| a l IH]; [reflexivity |].
  cbn [flat_map length]. rewrite length_app, IH, Hf. lia.
Qed.

Lemma Forall_flat_map_all {A B : Type} (P : B -> Prop) (f : A -> list B) (l : list A) :
  (forall a, Forall P (f a)) -> Forall P (flat_map f l).
Proof.
  intros Hf. induction l as [| a l IH]; [constructor |].
  cbn [flat_map]. apply Forall_app. split; [apply Hf | exact IH].
Qed.

Lemma patches_shape (p b s : nat) (img : list (list (list (list R)))) :
  p <> 0 -> s mod p = 0 -> has_shape4 b 3 s s img ->
  exists pa,
    patches p img = Some pa
    /\ has_shape3 b ((s / p) ^ 2) (3 * p ^ 2) pa.
Proof.
  intros Hp Hs [Hb F]. unfold patches.
  assert (E : (Nat.eqb p 0 || negb (Nat.eqb (length (hd [] (hd [] img)) mod p) 0)
               || negb (Nat.eqb (length (hd [] (hd [] (hd [] img))) mod p) 0)) = false).
  { destruct img as [| ib img].
    - cbn [hd length]. rewrite Nat.Div0.mod_0_l.
      apply Nat.eqb_neq in Hp. rewrite Hp. reflexivity.
    - inversion F as [| ? ? [Hc Fc] _]. cbn [hd].
      destruct ib as [| ic ib]; [discriminate |].
      inversion Fc as [| ? ? [Hh Fh] _]. cbn [hd]. rewrite Hh.
      destruct ic as [| ir ic].
      + cbn [hd length]. cbn [length] in Hh. subst s.
        apply Nat.eqb_neq in Hp. rewrite Hp, Nat.Div0.mod_0_l. reflexivity.
      + inversion Fh as [| ? ? Hw _]. cbn [hd]. rewrite Hw, Hs.
        apply Nat.eqb_neq in Hp. rewrite Hp. reflexivity. }
  rewrite E. eexists. split; [reflexivity |].
  split; [now rewrite length_map |].
  apply Forall_map. rewrite Forall_forall. intros ib Hin.
  rewrite Forall_forall in F. pose proof (F ib Hin) as [Hc Fc].
  assert (Hh0 : length (hd [] (hd [] img)) = s /\ length (hd [] (hd [] (hd [] img))) = s
                /\ length (hd [] img) = 3).
  { destruct img as [| ib0 img]; [destruct Hin |].
    cbn [hd]. pose proof (F ib0 (or_introl eq_refl)) as [Hc0 Fc0].
    destruct ib0 as [| ic ib0]; [discriminate |].
    inversion Fc0 as [| ? ? [Hh Fh] _]. cbn [hd]. split; [exact Hh |]. split; [| exact Hc0].
    destruct ic as [| ir ic].
    - cbn [length] in Hh. cbn [hd length]. exact Hh.
    - inversion Fh as [| ? ? Hw _]. exact Hw. }
  destruct Hh0 as (Hh & Hw & Hc3). rewrite Hh, Hw, Hc3.
  split.
  - rewrite (length_flat_map_const _ (s / p)).
    + rewrite length_seq. cbn [Nat.pow]. lia.
    + intros hi. now rewrite length_map, length_seq.
  - apply Forall_flat_map_all. intros hi. apply Forall_map. rewrite Forall_forall.
    intros wi _.
    rewrite (length_flat_map_const _ (p * 3)).
    + rewrite length_seq. cbn [Nat.pow]. lia.
    + intros p1. rewrite (length_flat_map_const _ 3).
      * now rewrite length_seq.
      * intros p2. now rewrite length_map, length_seq.
Qed.

Lemma vit_init_inv (image_size patch_size dim : nat)
      (layers : sublayer m (list (list (list R))) Mask RelPos)
      (num_classes : option nat) (dropout : R) (layer_norm : nat -> list R -> list R)
      (pos w : nat -> nat -> R) (bias cls : nat -> R)
      (w1 : nat -> nat -> R) (b1 : nat -> R) (w2 : nat -> nat -> R) (b2 : nat -> R)
      (self : ViTransformerWrapper.t m Mask RelPos) :
  ViTransformerWrapper.init image_size patch_size dim layers num_classes dropout
    layer_norm pos w bias cls w1 b1 w2 b2 = Some self ->
  patch_size <> 0 /\ image_size mod patch_size = 0
  /\ ViTransformerWrapper.patch_size self = patch_size
  /\ ViTransformerWrapper.pos_embedding self
     = map (fun k => map (pos k) (seq 0 dim)) (seq 0 ((image_size / patch_size) ^ 2 + 1))
  /\ ViTransformerWrapper.patch_to_embedding self
     = Linear.init (3 * patch_size ^ 2) dim w (Some bias)
  /\ ViTransformerWrapper.cls_token self = map cls (seq 0 dim).
Proof.
  unfold ViTransformerWrapper.init.
  destruct (Nat.eqb patch_size 0) eqn:Ep; [discriminate |].
  destruct (Nat.eqb (image_size mod patch_size) 0) eqn:Em; [| discriminate].
  cbn [negb]. intros E. injection E as <-.
  apply Nat.eqb_neq in Ep. apply Nat.eqb_eq in Em.
  cbn [ViTransformerWrapper.patch_size ViTransformerWrapper.pos_embedding
       ViTransformerWrapper.patch_to_embedding ViTransformerWrapper.cls_token].
  repeat split; assumption.
Qed.

Lemma vit_embed_rows (self : ViTransformerWrapper.t m Mask RelPos) (b n d : nat)
      (img : list (list (list (list R)))) (pa : list (list (list R))) :
  patches (ViTransformerWrapper.patch_size self) img = Some pa ->
  has_shape3 b n d pa ->
  ViTransformerWrapper.embed self img
  = Some (map (fun pb =>
                 zipWith (zipWith Rplus)
                   (ViTransformerWrapper.cls_token self
                    :: map (Linear.forward (ViTransformerWrapper.patch_to_embedding self)) pb)
                   (firstn (n + 1) (ViTransformerWrapper.pos_embedding self)))
              pa).
Proof.
  intros E Hs. unfold ViTransformerWrapper.embed. rewrite E. f_equal.
  rewrite zipWith_repeat_l, !map_map.
  destruct pa as [| pb pa]; [reflexivity |].
  cbn [map hd]. rewrite length_map.
  destruct Hs as [_ F]. inversion F as [| ? ? [Hn _] _]. rewrite Hn. reflexivity.
Qed.

Lemma image_embed_shape (image_size patch_size dim b : nat)
      (layers : sublayer m (list (list (list R))) Mask RelPos)
      (num_classes : option nat) (dropout : R) (layer_norm : nat -> list R -> list R)
      (pos w : nat -> nat -> R) (bias cls : nat -> R)
      (w1 : nat -> nat -> R) (b1 : nat -> R) (w2 : nat -> nat -> R) (b2 : nat -> R)
      (self : ViTransformerWrapper.t m Mask RelPos)
      (img : list (list (list (list R)))) :
  ViTransformerWrapper.init image_size patch_size dim layers num_classes dropout
    layer_norm pos w bias cls w1 b1 w2 b2 = Some self ->
  has_shape4 b 3 image_size image_size img ->
  exists pa,
    patches patch_size img = Some pa
    /\ has_shape3 b ((image_size / patch_size) ^ 2) (3 * patch_size ^ 2) pa
    /\ ViTransformerWrapper.embed self img
       = Some (map (fun pb =>
                      zipWith (zipWith Rplus)
                        (map cls (seq 0 dim)
                         :: map (Linear.forward
                                   (Linear.init (3 * patch_size ^ 2) dim w (Some bias))) pb)
                        (map (fun k => map (pos k) (seq 0 dim))
                             (seq 0 ((image_size / patch_size) ^ 2 + 1))))
                   pa)
    /\ has_shape3 b ((image_size / patch_size) ^ 2 + 1) dim
         (map (fun pb =>
                 zipWith (zipWith Rplus)
                   (map cls (seq 0 dim)
                    :: map (Linear.forward
                              (Linear.init (3 * patch_size ^ 2) dim w (Some bias))) pb)
                   (map (fun k => map (pos k) (seq 0 dim))
                        (seq 0 ((image_size / patch_size) ^ 2 + 1))))
              pa).
Proof.
  intros Hinit Himg.
  destruct (vit_init_inv _ _ _ _ _ _ _ _ _ _ _ _ _ _ _ _ Hinit)
    as (Hp & Hm & Eps & Epos & Elin & Ecls).
  destruct (patches_shape patch_size b image_size img Hp Hm Himg) as (pa & Epa & Hpa).
  set (N := (image_size / patch_size) ^ 2) in *.
  exists pa. split; [exact Epa |]. split; [exact Hpa |].
  assert (Hfirst : firstn (N + 1) (ViTransformerWrapper.pos_embedding self)
                   = map (fun k => map (pos k) (seq 0 dim)) (seq 0 (N + 1))).
  { rewrite Epos. apply firstn_all2. now rewrite length_map, length_seq. }
  split.
  { rewrite (vit_embed_rows self b N (3 * patch_size ^ 2) img pa);
      [| now rewrite Eps | exact Hpa].
    now rewrite Hfirst, Ecls, Elin. }
  pose proof Hpa as [Hb Fpa].
  split; [now rewrite length_map |].
  apply Forall_map, Forall_forall. intros pb Hin.
  rewrite Forall_forall in Fpa. destruct (Fpa pb Hin) as [Hn _].
  apply has_shape2_zipWith.
  - split; [cbn [length]; rewrite length_map; lia |].
    constructor; [now rewrite length_map, length_seq |].
    apply Forall_map, Forall_forall. intros r _.
    rewrite linear_init_forward. now rewrite length_map, length_seq.
  - split; [now rewrite length_map, length_seq |].
    apply Forall_map, Forall_forall. intros k _. now rewrite length_map, length_seq.
Qed.

Lemma vit_init_fields (image_size patch_size dim : nat)
      (layers : sublayer m (list (list (list R))) Mask RelPos)
      (num_classes : option nat) (dropout : R) (layer_norm : nat -> list R -> list R)
      (pos w : nat -> nat -> R) (bias cls : nat -> R)
      (w1 : nat -> nat -> R) (b1 : nat -> R) (w2 : nat -> nat -> R) (b2 : nat -> R)
      (self : ViTransformerWrapper.t m Mask RelPos) :
  ViTransformerWrapper.init image_size patch_size dim layers num_classes dropout
    layer_norm pos w bias cls w1 b1 w2 b2 = Some self ->
  ViTransformerWrapper.attn_layers self = layers
  /\ ViTransformerWrapper.norm self = layer_norm dim
  /\ ViTransformerWrapper.mlp_head self
     = match num_classes with
       | Some _ => Some (FeedForward.init dim num_classes 4 false dropout w1 b1 w2 b2)
       | None => None
       end
  /\ ViTransformerWrapper.patch_to_embedding self
     = Linear.init (3 * patch_size ^ 2) dim w (Some bias).
Proof.
  unfold ViTransformerWrapper.init.
  destruct (Nat.eqb patch_size 0); [discriminate |].
  destruct (negb (Nat.eqb (image_size mod patch_size) 0)); [discriminate |].
  intros E. injection E as <-. repeat split.
Qed.

(** X20.  For a wrapper built for [image_size] and [patch_size] and a batch
    of [b] images with 3 channels of [image_size] x [image_size] pixels, the
    patches have shape (b, num_patches, patch_dim) with
    [num_patches = (image_size // patch_size) ** 2] and
    [patch_dim = 3 * patch_size ** 2], and the sequence handed to the layers
    has shape (b, num_patches + 1, dim).  Its position 0 is the class token
    plus position embedding 0, the same for every image; position [k + 1]
    is the linear embedding of patch [k] plus position embedding [k + 1]. *)
Theorem vit_embedded_sequence (image_size patch_size dim b : nat)
        (layers : sublayer m (list (list (list R))) Mask RelPos)
        (num_classes : option nat) (dropout : R) (layer_norm : nat -> list R -> list R)
        (pos w : nat -> nat -> R) (bias cls : nat -> R)
        (w1 : nat -> nat -> R) (b1 : nat -> R) (w2 : nat -> nat -> R) (b2 : nat -> R)
        (self : ViTransformerWrapper.t m Mask RelPos)
        (img : list (list (list (list R)))) :
  ViTransformerWrapper.init image_size patch_size dim layers num_classes dropout
    layer_norm pos w bias cls w1 b1 w2 b2 = Some self ->
  has_shape4 b 3 image_size image_size img ->
  exists pa e,
    patches patch_size img = Some pa
    /\ has_shape3 b ((image_size / patch_size) ^ 2) (3 * patch_size ^ 2) pa
    /\ ViTransformerWrapper.embed self img = Some e
    /\ has_shape3 b ((image_size / patch_size) ^ 2 + 1) dim e
    /\ forall bi, bi < b ->
         nth 0 (nth bi e []) [] = map (fun k => (cls k + pos 0%nat k)%R) (seq 0 dim)
         /\ forall k, k < (image_size / patch_size) ^ 2 ->
              nth (S k) (nth bi e []) []
              = zipWith Rplus
                  (Linear.forward (ViTransformerWrapper.patch_to_embedding self)
                                  (nth k (nth bi pa []) []))
                  (map (pos (S k)) (seq 0 dim)).
Proof.
  intros Hinit Himg.
  destruct (image_embed_shape _ _ _ b _ _ _ _ _ _ _ _ _ _ _ _ self img Hinit Himg)
    as (pa & Epa & Hpa & Ee & He).
  destruct (vit_init_fields _ _ _ _ _ _ _ _ _ _ _ _ _ _ _ self Hinit) as (_ & _ & _ & Elin).
  set (N := (image_size / patch_size) ^ 2) in *.
  exists pa. eexists. split; [exact Epa |]. split; [exact Hpa |].
  split; [exact Ee |]. split; [exact He |].
  pose proof Hpa as [Hb _]. rewrite Elin.
  intros bi Hbi.
  rewrite (nth_map_lt _ pa bi [] []) by lia.
  assert (Hn : length (nth bi pa []) = N).
  { destruct (has_shape3_nth _ _ _ _ bi Hpa Hbi) as [Hn _]. exact Hn. }
  split.
  - rewrite (nth_zipWith _ _ _ 0 [] [] []);
      [| cbn [length]; lia | rewrite length_map, length_seq; lia].
    cbn [nth]. replace (N + 1) with (S N) by lia. cbn [seq map nth].
    exact (zipWith_map_same Rplus cls (pos 0) (seq 0 dim)).
  - intros k Hk.
    rewrite (nth_zipWith _ _ _ (S k) [] [] []);
      [| cbn [length]; rewrite length_map; lia | rewrite length_map, length_seq; lia].
    cbn [nth].
    rewrite (nth_map_lt _ (nth bi pa []) k [] []) by lia.
    rewrite (nth_map_lt _ (seq 0 (N + 1)) (S k) [] 0) by (rewrite length_seq; lia).
    rewrite seq_nth by lia. reflexivity.
Qed.

End ImageFacts.

Lemma vit_embedded_sequence_witness :
  exists self : ViTransformerWrapper.t ident unit unit,
    ViTransformerWrapper.init 4 2 2 (fun x _ => ret x) (Some 3) 0%R
      (fun _ r => r) (fun k j => INR (k + j)) (fun _ _ => 1%R) (fun _ => 0%R)
      (fun k => INR k) (fun _ _ => 1%R) (fun _ => 0%R) (fun _ _ => 1%R) (fun _ => 0%R)
    = Some self
    /\ has_shape4 1 3 4 4 [repeat (repeat (repeat 1%R 4) 4) 3]
    /\ exists pa e,
         patches 2 [repeat (repeat (repeat 1%R 4) 4) 3] = Some pa
         /\ has_shape3 1 ((4 / 2) ^ 2) (3 * 2 ^ 2) pa
         /\ ViTransformerWrapper.embed self [repeat (repeat (repeat 1%R 4) 4) 3] = Some e
         /\ has_shape3 1 ((4 / 2) ^ 2 + 1) 2 e
         /\ forall bi, bi < 1 ->
              nth 0 (nth bi e []) []
              = map (fun k => (INR k + INR (0%nat + k))%R) (seq 0 2)
              /\ forall k, k < (4 / 2) ^ 2 ->
                   nth (S k) (nth bi e []) []
                   = zipWith Rplus
                       (Linear.forward (ViTransformerWrapper.patch_to_embedding self)
                                       (nth k (nth bi pa []) []))
                       (map (fun j => INR (S k + j)) (seq 0 2)).
Proof.
  eexists. split; [reflexivity |].
  assert (Hs : has_shape4 1 3 4 4 [repeat (repeat (repeat 1%R 4) 4) 3]).
  { split; [reflexivity |]. constructor; [| constructor].
    split; [reflexivity |]. repeat constructor. }
  split; [exact Hs |].
  apply (vit_embedded_sequence 4 2 2 1 (fun x _ => ret x) (Some 3) 0%R
           (fun _ r => r) (fun k j => INR (k + j)) (fun _ _ => 1%R) (fun _ => 0%R)
           (fun k => INR k) (fun _ _ => 1%R) (fun _ => 0%R) (fun _ _ => 1%R)
           (fun _ => 0%R)); [reflexivity | exact Hs].
Defined.

Section ImageRuns.

Context {Mask RelPos : Type}.

(** X21.  With [num_classes] given, the image wrapper returns one vector of
    [num_classes] values per image: for [b] images of 3 x [image_size] x
    [image_size] pixels and layers that keep the shape
    (b, num_patches + 1, dim), the result has shape (b, num_classes), and
    row [bi] is the classification head applied to the normalised output of
    the layers at position 0, the class token's position.  Without
    [num_classes] the whole normalised sequence is returned. *)
Theorem vit_classifier_output (image_size patch_size dim b : nat)
        (layers : list (list (list R)) -> list (list (list R)))
        (num_classes : option nat) (dropout : R) (layer_norm : nat -> list R -> list R)
        (pos w : nat -> nat -> R) (bias cls : nat -> R)
        (w1 : nat -> nat -> R) (b1 : nat -> R) (w2 : nat -> nat -> R) (b2 : nat -> R)
        (gelu : R -> R)
        (self : ViTransformerWrapper.t ident Mask RelPos)
        (img : list (list (list (list R)))) :
  ViTransformerWrapper.init image_size patch_size dim (fun x _ => ret (layers x))
    num_classes dropout layer_norm pos w bias cls w1 b1 w2 b2 = Some self ->
  has_shape4 b 3 image_size image_size img ->
  (forall x, has_shape3 b ((image_size / patch_size) ^ 2 + 1) dim x ->
             has_shape3 b ((image_size / patch_size) ^ 2 + 1) dim (layers x)) ->
  exists e,
    ViTransformerWrapper.embed self img = Some e
    /\ match num_classes with
       | None =>
           unIdent (ViTransformerWrapper.forward gelu self img)
           = Some (inl (map (map (layer_norm dim)) (layers e)))
       | Some c =>
           exists y,
             unIdent (ViTransformerWrapper.forward gelu self img) = Some (inr y)
             /\ has_shape2 b c y
             /\ forall bi, bi < b ->
                  nth bi y []
                  = FeedForward.forward gelu
                      (FeedForward.init dim (Some c) 4 false dropout w1 b1 w2 b2)
                      (layer_norm dim (nth 0 (nth bi (layers e) []) []))
       end.
Proof.
  intros Hinit Himg Hlayers.
  destruct (image_embed_shape _ _ _ b _ _ _ _ _ _ _ _ _ _ _ _ self img Hinit Himg)
    as (pa & _ & _ & Ee & He).
  destruct (vit_init_fields _ _ _ _ _ _ _ _ _ _ _ _ _ _ _ self Hinit) as (El & En & Eh & _).
  eexists. split; [exact Ee |].
  unfold ViTransformerWrapper.forward. rewrite Ee, El, En, Eh.
  match type of He with has_shape3 _ _ _ ?t => set (e := t) in * end.
  cbn [bind ret Monad_ident unIdent].
  destruct num_classes as [c |]; [| reflexivity].
  pose proof (Hlayers e He) as [Hb F].
  assert (E0 : ViTransformerWrapper.first_position (map (map (layer_norm dim)) (layers e))
               = Some (map (fun x_b => layer_norm dim (nth 0 x_b [])) (layers e))).
  { unfold ViTransformerWrapper.first_position. clear Hb.
    induction F as [| xb l [Hn _] _ IH]; [reflexivity |].
    destruct xb as [| r xb]; [cbn [length] in Hn; lia |].
    cbn [map mapM nth]. now rewrite IH. }
  rewrite E0. cbn [unIdent ret Monad_ident].
  eexists. split; [reflexivity |]. rewrite map_map. split.
  - split; [now rewrite length_map |].
    apply Forall_map, Forall_forall. intros xb _.
    unfold FeedForward.forward, FeedForward.init.
    cbn [FeedForward.project_out default]. rewrite linear_init_forward.
    now rewrite length_map, length_seq.
  - intros bi Hbi.
    rewrite (nth_map_lt _ (layers e) bi [] []) by lia. reflexivity.
Qed.

End ImageRuns.

Lemma vit_classifier_output_witness :
  exists self : ViTransformerWrapper.t ident unit unit,
    ViTransformerWrapper.init 4 2 2 (fun x _ => ret ((fun t => t) x)) (Some 3) 0%R
      (fun _ r => r) (fun k j => INR (k + j)) (fun _ _ => 1%R) (fun _ => 0%R)
      (fun k => INR k) (fun _ _ => 1%R) (fun _ => 0%R) (fun _ _ => 1%R) (fun _ => 0%R)
    = Some self
    /\ has_shape4 1 3 4 4 [repeat (repeat (repeat 1%R 4) 4) 3]
    /\ exists e,
         ViTransformerWrapper.embed self [repeat (repeat (repeat 1%R 4) 4) 3] = Some e
         /\ exists y,
              unIdent (ViTransformerWrapper.forward gelu_sigmoid self
                         [repeat (repeat (repeat 1%R 4) 4) 3]) = Some (inr y)
              /\ has_shape2 1 3 y
              /\ forall bi, bi < 1 ->
                   nth bi y []
                   = FeedForward.forward gelu_sigmoid
                       (FeedForward.init 2 (Some 3) 4 false 0%R (fun _ _ => 1%R)
                          (fun _ => 0%R) (fun _ _ => 1%R) (fun _ => 0%R))
                       (nth 0 (nth bi e []) []).
Proof.
  eexists. split; [reflexivity |].
  assert (Hs : has_shape4 1 3 4 4 [repeat (repeat (repeat 1%R 4) 4) 3]).
  { split; [reflexivity |]. constructor; [| constructor].
    split; [reflexivity |]. repeat constructor. }
  split; [exact Hs |].
  apply (vit_classifier_output 4 2 2 1 (fun t => t) (Some 3) 0%R
           (fun _ r => r) (fun k j => INR (k + j)) (fun _ _ => 1%R) (fun _ => 0%R)
           (fun k => INR k) (fun _ _ => 1%R) (fun _ => 0%R) (fun _ _ => 1%R)
           (fun _ => 0%R) gelu_sigmoid); [reflexivity | exact Hs | intros x Hx; exact Hx].
Defined.

(** ** Shapes through the attention pipeline *)

Local Open Scope nat_scope.

Section AttentionShapes.

Lemma masked_fill_shape (i j : nat) (d : list (list logit)) (mask : list (list bool)) :
  has_shape2 i j d -> has_shape2 i j mask -> has_shape2 i j (masked_fill_ d mask).
Proof. intros Hd Hm. unfold masked_fill_. now apply has_shape2_zipWith. Qed.

Lemma fitting_pad_shape (b h i j : nat) (mask context_mask : option (list (list bool)))
      (D : list (list (list (list logit)))) :
  has_shape4 b h i j D ->
  match mask with Some m => has_shape2 b i m | None => True end ->
  match context_mask with Some m => has_shape2 b j m | None => True end ->
  has_shape4 b h i j (fitting_pad_mask_stage b i j mask context_mask D).
Proof.
  intros HD Hm Hc. unfold fitting_pad_mask_stage.
  destruct (exists_ mask || exists_ context_mask); [| exact HD].
  assert (Hq : has_shape2 b i (default mask (fun _ => repeat (repeat true i) b)))
    by (destruct mask; [exact Hm | apply has_shape2_repeat]).
  assert (Hk : has_shape2 b j (default context_mask (fun _ => repeat (repeat true j) b)))
    by (destruct context_mask; [exact Hc | apply has_shape2_repeat]).
  destruct HD as [Hl F], Hq as [Hlq Fq], Hk as [Hlk Fk].
  split; [rewrite !length_zipWith; lia |].
  apply Forall_zipWith_in. intros db mb Hdb Hmb.
  rewrite Forall_forall in F. destruct (F db Hdb) as [Hh Fh].
  split; [now rewrite length_map |].
  apply Forall_map. eapply Forall_impl; [| exact Fh]. intros d Hd.
  apply masked_fill_shape; [exact Hd |].
  unfold zipWith in Hmb. apply in_map_iff in Hmb as ([qm km] & <- & Hin).
  cbn [fst snd]. rewrite Forall_forall in Fq, Fk.
  pose proof (Fq qm (in_combine_l _ _ _ _ Hin)) as Hqm.
  pose proof (Fk km (in_combine_r _ _ _ _ Hin)) as Hkm.
  split; [now rewrite length_map |].
  apply Forall_map, Forall_forall. intros qv _. now rewrite length_map.
Qed.

Lemma causal_stage_shape (self : Attention.t) (b h n j : nat)
      (D L : list (list (list (list logit)))) :
  has_shape4 b h n j D ->
  Attention.causal_stage self n j D = Some L ->
  has_shape4 b h n j L.
Proof.
  intros HD. unfold Attention.causal_stage.
  assert (Hfill : forall mask, has_shape2 n j mask ->
            has_shape4 b h n j (map (map (fun d => masked_fill_ d mask)) D)).
  { intros mask Hmask. destruct HD as [Hl F]. split; [now rewrite length_map |].
    apply Forall_map. eapply Forall_impl; [| exact F]. intros db [Hh Fh].
    split; [now rewrite length_map |].
    apply Forall_map. eapply Forall_impl; [| exact Fh]. intros d Hd.
    now apply masked_fill_shape. }
  destruct (Attention.causal self); [| intros E; now injection E as <-].
  destruct (Nat.eqb_spec n j) as [<- | Hnj].
  - intros E. injection E as <-. apply Hfill, triu1_shape.
  - destruct (Nat.eqb_spec n 1) as [-> | _]; [| discriminate].
    intros E. injection E as <-. apply Hfill.
    split; [reflexivity |]. repeat constructor. apply repeat_length.
Qed.

Lemma mapM_rows {A B : Type} (f : A -> option B) (n : nat) (l : list (list A)) bs :
  mapM (mapM f) l = Some bs ->
  Forall (fun r => length r = n) l ->
  length bs = length l /\ Forall (fun r => length r = n) bs.
Proof.
  revert bs. induction l as [| r l IH]; intros bs E F; cbn [mapM] in E.
  - injection E as <-. split; [reflexivity | constructor].
  - destruct (mapM f r) as [r' |] eqn:Er; [| discriminate].
    destruct (mapM (mapM f) l) as [bs' |] eqn:El; [| discriminate].
    injection E as <-. inversion F as [| ? ? Hr Fl]. subst.
    destruct (IH bs' eq_refl Fl) as [Hlen Fbs]. split; [cbn [length]; lia |].
    constructor; [| exact Fbs]. now rewrite (mapM_length _ _ _ Er).
Qed.

(** A bias that fits keeps the shape of the logits. *)
Lemma rel_pos_forward_shape (rp : RelativePositionBias.t) (b h i j : nat)
      (D out : list (list (list (list R)))) :
  has_shape4 b h i j D -> 0 < b -> 0 < h ->
  length (hd [] (RelativePositionBias.relative_attention_bias rp)) = h ->
  RelativePositionBias.forward rp D = Some out ->
  has_shape4 b h i j out.
Proof.
  intros HD Hb Hh Hheads. unfold RelativePositionBias.forward.
  rewrite (shape_ij_of_shape b h i j D HD Hb Hh).
  set (j' := if Nat.eqb i 0 then 0 else j).
  unfold RelativePositionBias._relative_position_bucket.
  destruct (_ =? 0)%Z; [discriminate |].
  destruct (_ <=? 0)%Z; [discriminate |].
  destruct (mapM _ _) as [values |] eqn:Ev; [| discriminate].
  intros E. injection E as <-.
  apply (mapM_rows _ j') in Ev.
  2:{ apply Forall_map, Forall_map, Forall_forall. intros q _.
      unfold arange. now rewrite !length_map, length_seq. }
  destruct Ev as [Hlv Fv].
  unfold arange in Hlv. rewrite !length_map, length_seq in Hlv.
  rewrite Hheads.
  assert (Hbias : has_shape3 h i j (RelativePositionBias.rearrange_bias h values)).
  { unfold RelativePositionBias.rearrange_bias.
    split; [now rewrite length_map, length_seq |].
    apply Forall_map, Forall_forall. intros hh _.
    split; [now rewrite length_map |].
    apply Forall_map. subst j'.
    destruct (Nat.eqb_spec i 0) as [-> | _].
    - destruct values; [constructor | discriminate].
    - eapply Forall_impl; [| exact Fv]. intros r Hr. now rewrite length_map. }
  destruct HD as [Hl F]. split; [now rewrite length_map |].
  apply Forall_map. eapply Forall_impl; [| exact F]. intros db Hdb.
  now apply has_shape3_zipWith.
Qed.

Lemma dots_shape (self : Attention.t) (b n j : nat)
      (q k : list (list (list (list R)))) (rel_pos : option RelativePositionBias.t) D :
  heads_shape b (Attention.heads self) n q ->
  heads_shape b (Attention.heads self) j k ->
  0 < b -> 0 < Attention.heads self ->
  bias_fits (Attention.heads self) rel_pos ->
  Attention.dots self q k rel_pos = Some D ->
  has_shape4 b (Attention.heads self) n j D.
Proof.
  intros Hq Hk Hb Hh Hfit. unfold Attention.dots.
  pose proof (raw_dots_shape (Attention.scale self) b _ n j q k Hq Hk) as Hraw.
  destruct rel_pos as [rp |]; [| intros E; now injection E as <-].
  destruct Hfit as ([Hme _] & Htable & Hrows).
  apply (rel_pos_forward_shape rp b _ n j _ D Hraw Hb Hh).
  destruct (RelativePositionBias.relative_attention_bias rp) as [| row tbl].
  - exfalso. cbn [length] in Htable. rewrite <- Htable in Hme.
    unfold RelativePositionBias.half_buckets in Hme.
    destruct (RelativePositionBias.causal rp); cbn in Hme; lia.
  - now inversion Hrows.
Qed.

(** The heads of the queries, keys and values of a call. *)
Lemma qkv_shape (self : Attention.t) (b n j d d' : nat) (x : list (list (list R)))
      (context : option (list (list (list R)))) :
  has_shape3 b n d x ->
  match context with Some c => has_shape3 b j d' c | None => j = n end ->
  let '(q, k, v) := Attention.qkv self x context in
  heads_shape b (Attention.heads self) n q
  /\ heads_shape b (Attention.heads self) j k
  /\ heads_shape b (Attention.heads self) j v.
Proof.
  intros Hx Hc. unfold Attention.qkv.
  assert (Hkv : length (default context (fun _ => x)) = b
                /\ Forall (fun rows => length rows = j) (default context (fun _ => x))).
  { destruct context as [c |]; cbn [default].
    - split; [apply Hc | apply (has_shape3_rows b j d' c Hc)].
    - subst j. split; [apply Hx | apply (has_shape3_rows b n d x Hx)]. }
  destruct Hkv as [Hkl Hkr].
  repeat split; try (unfold Attention.split_heads; rewrite !length_map; (apply Hx || exact Hkl)).
  - apply (split_heads_shape _ _ b n); [rewrite length_map; apply Hx |].
    apply Forall_map. eapply Forall_impl; [| apply (has_shape3_rows b n d x Hx)].
    intros rows Hr. now rewrite length_map.
  - apply (split_heads_shape _ _ b j); [now rewrite !length_map |].
    apply Forall_map, Forall_map. eapply Forall_impl; [| exact Hkr].
    intros rows Hr. now rewrite !length_map.
  - apply (split_heads_shape _ _ b j); [now rewrite !length_map |].
    apply Forall_map, Forall_map. eapply Forall_impl; [| exact Hkr].
    intros rows Hr. now rewrite !length_map.
Qed.

Lemma kv_input_hd (b n j d d' : nat) (x : list (list (list R)))
      (context : option (list (list (list R)))) :
  has_shape3 b n d x ->
  match context with Some c => has_shape3 b j d' c | None => j = n end ->
  0 < b ->
  length (hd [] (default context (fun _ => x))) = j.
Proof.
  intros Hx Hc Hb. destruct context as [c |]; cbn [default].
  - now apply (has_shape3_hd b j d' c).
  - subst j. now apply (has_shape3_hd b n d x).
Qed.

(** The logits of a well-shaped call have shape (b, heads, n, j). *)
Lemma logits_shape (self : Attention.t) (b n j d d' : nat) (x : list (list (list R)))
      (context : option (list (list (list R))))
      (mask context_mask : option (list (list bool)))
      (rel_pos : option RelativePositionBias.t) L :
  has_shape3 b n d x ->
  match context with Some c => has_shape3 b j d' c | None => j = n end ->
  match mask with Some m => has_shape2 b n m | None => True end ->
  match context_mask with Some m => has_shape2 b j m | None => True end ->
  0 < b -> 0 < Attention.heads self ->
  bias_fits (Attention.heads self) rel_pos ->
  Attention.logits self x context mask context_mask rel_pos = Some L ->
  has_shape4 b (Attention.heads self) n j L.
Proof.
  intros Hx Hc Hm Hcm Hb Hh Hfit. unfold Attention.logits.
  pose proof (qkv_shape self b n j d d' x context Hx Hc) as Hqkv.
  destruct (Attention.qkv self x context) as [[q k] v]. destruct Hqkv as (Hq & Hk & _).
  rewrite (has_shape3_hd b n d x Hx Hb), (kv_input_hd b n j d d' x context Hx Hc Hb).
  rewrite (proj1 Hx).
  destruct (Attention.dots self q k rel_pos) as [D |] eqn:ED; [| discriminate].
  apply (dots_shape self b n j q k rel_pos D Hq Hk Hb Hh Hfit) in ED.
  apply map4_Fin_shape in ED.
  rewrite (pad_mask_stage_fits b n j mask context_mask _ Hm Hcm).
  apply causal_stage_shape. now apply fitting_pad_shape.
Qed.

(** Without a bias, a well-shaped call reaches the softmax exactly when
    the causal mask fits. *)
Lemma logits_defined (self : Attention.t) (b n j d d' : nat) (x : list (list (list R)))
      (context : option (list (list (list R))))
      (mask context_mask : option (list (list bool))) :
  has_shape3 b n d x ->
  match context with Some c => has_shape3 b j d' c | None => j = n end ->
  match mask with Some m => has_shape2 b n m | None => True end ->
  match context_mask with Some m => has_shape2 b j m | None => True end ->
  0 < b ->
  (Attention.causal self = true -> j = n \/ n = 1) ->
  exists L, Attention.logits self x context mask context_mask None = Some L.
Proof.
  intros Hx Hc Hm Hcm Hb Hcausal. unfold Attention.logits.
  destruct (Attention.qkv self x context) as [[q k] v].
  rewrite (has_shape3_hd b n d x Hx Hb), (kv_input_hd b n j d d' x context Hx Hc Hb).
  rewrite (proj1 Hx). unfold Attention.dots.
  rewrite (pad_mask_stage_fits b n j mask context_mask _ Hm Hcm).
  unfold Attention.causal_stage.
  destruct (Attention.causal self); [| eexists; reflexivity].
  destruct (Hcausal eq_refl) as [-> | ->].
  - rewrite Nat.eqb_refl. eexists; reflexivity.
  - destruct (Nat.eqb 1 j); eexists; reflexivity.
Qed.

(** A causal mask that does not fit makes the call raise. *)
Lemma logits_causal_misfit (self : Attention.t) (b n j d d' : nat)
      (x : list (list (list R))) (context : option (list (list (list R))))
      (mask context_mask : option (list (list bool)))
      (rel_pos : option RelativePositionBias.t) :
  has_shape3 b n d x ->
  match context with Some c => has_shape3 b j d' c | None => j = n end ->
  0 < b ->
  Attention.causal self = true -> j <> n -> n <> 1 ->
  Attention.logits self x context mask context_mask rel_pos = None.
Proof.
  intros Hx Hc Hb Hcausal Hjn Hn1. unfold Attention.logits.
  destruct (Attention.qkv self x context) as [[q k] v].
  rewrite (has_shape3_hd b n d x Hx Hb), (kv_input_hd b n j d d' x context Hx Hc Hb).
  destruct (Attention.dots self q k rel_pos); [| reflexivity].
  destruct (Attention.pad_mask_stage _ _ _ _ _ _); [| reflexivity].
  unfold Attention.causal_stage. rewrite Hcausal.
  destruct (Nat.eqb_spec n j); [lia |]. destruct (Nat.eqb_spec n 1); [lia | reflexivity].
Qed.

Lemma length_concat_const {A : Type} (d : nat) (ls : list (list A)) :
  Forall (fun l => length l = d) ls -> length (concat ls) = length ls * d.
Proof.
  induction 1 as [| l ls Hl _ IH]; [reflexivity |].
  cbn [concat length]. rewrite length_app, IH, Hl. lia.
Qed.

(** The rows handed to the output projection: one per query position, of
    [h * dv] features. *)
Lemma merged_shape (b h n j dv : nat) (A : list (list (list (list fnum))))
      (v : list (list (list (list R)))) :
  has_shape4 b h n j A -> heads_shape b h j v ->
  has_shape3 b n (h * dv)
    (Attention.merge_heads n (Attention.weighted_values dv A v)).
Proof.
  intros [HlA FA] [Hlv Fv]. unfold Attention.merge_heads, Attention.weighted_values.
  split; [rewrite length_map, length_zipWith; lia |].
  apply Forall_map, Forall_zipWith_in. intros ab vb Hab Hvb.
  rewrite Forall_forall in FA, Fv.
  destruct (FA ab Hab) as [Hah Fah]. destruct (Fv vb Hvb) as [Hvh _].
  split; [now rewrite length_map, length_seq |].
  apply Forall_map, Forall_forall. intros i Hi. apply in_seq in Hi.
  rewrite (length_concat_const dv).
  - rewrite length_map, length_zipWith. f_equal. lia.
  - apply Forall_map, Forall_zipWith_in. intros ah vh Hah' _.
    rewrite Forall_forall in Fah. destruct (Fah ah Hah') as [Hn _].
    rewrite (nth_map_lt _ ah i _ []) by lia.
    now rewrite length_map, length_seq.
Qed.

Lemma softmax_length (row : list logit) : length (softmax row) = length row.
Proof. unfold softmax. destruct (forallb is_neginf row); now rewrite !length_map. Qed.

Lemma weights_shape (b h n j : nat) (L : list (list (list (list logit)))) :
  has_shape4 b h n j L -> has_shape4 b h n j (map (map (map softmax)) L).
Proof.
  intros [Hl F]. split; [now rewrite length_map |].
  apply Forall_map. eapply Forall_impl; [| exact F]. intros Lb [Hh Fh].
  split; [now rewrite length_map |].
  apply Forall_map. eapply Forall_impl; [| exact Fh]. intros Lh [Hn Fn].
  split; [now rewrite length_map |].
  apply Forall_map. eapply Forall_impl; [| exact Fn]. intros r Hr.
  now rewrite softmax_length.
Qed.

Lemma init_fields (dim dim_head heads : nat) (causal : bool)
      (self_mask : option (list (list bool)))
      (wq wkv wout : nat -> nat -> R) (bout : nat -> R) (self : Attention.t) :
  Attention.init dim dim_head heads causal self_mask wq wkv wout bout = Some self ->
  Attention.heads self = heads
  /\ Attention.causal self = causal
  /\ Attention.to_kv self = Linear.init dim (dim_head * heads * 2) wkv None
  /\ Attention.to_out self = Linear.init (dim_head * heads) dim wout (Some bout).
Proof.
  unfold Attention.init. destruct (Nat.eqb dim_head 0); [discriminate |].
  intros E. injection E as <-. repeat split.
Qed.

(** What a well-shaped call returns once it has reached the softmax: the
    merged heads, of [dim_head * heads] features per position, through the
    output projection. *)
Lemma forward_shape_from_logits (dim dim_head heads : nat) (causal : bool)
      (self_mask : option (list (list bool)))
      (wq wkv wout : nat -> nat -> R) (bout : nat -> R) (self : Attention.t)
      (b n j : nat) (x : list (list (list R)))
      (context : option (list (list (list R))))
      (mask context_mask : option (list (list bool)))
      (rel_pos : option RelativePositionBias.t) L :
  Attention.init dim dim_head heads causal self_mask wq wkv wout bout = Some self ->
  0 < heads -> 0 < b ->
  valid_call b n j dim x context mask context_mask ->
  bias_fits heads rel_pos ->
  Attention.logits self x context mask context_mask rel_pos = Some L ->
  exists merged,
    Attention.forward self x context mask context_mask rel_pos
    = Some (map (map (Linear.forward (Attention.to_out self))) merged)
    /\ has_shape3 b n (dim_head * heads) merged
    /\ has_shape3 b n dim (map (map (Linear.forward (Attention.to_out self))) merged).
Proof.
  intros Hinit Hh Hb (Hx & Hc & Hm & Hcm) Hfit HL.
  destruct (init_fields _ _ _ _ _ _ _ _ _ _ Hinit) as (Eh & _ & Ekv & Eout).
  rewrite forward_from_logits, HL. cbv zeta.
  rewrite <- Eh in Hfit, Hh.
  pose proof (logits_shape self b n j dim dim x context mask context_mask rel_pos L
                Hx Hc Hm Hcm Hb Hh Hfit HL) as HLs.
  apply weights_shape in HLs. rewrite Eh in HLs, Hh.
  rewrite Ekv, Eh, (init_value_width dim dim_head heads wkv Hh), Eout.
  rewrite (has_shape3_hd b n dim x Hx Hb).
  eexists. split; [reflexivity |].
  match goal with
  | |- has_shape3 b n _ (Attention.merge_heads n (Attention.weighted_values _ _ ?V)) /\ _ =>
      assert (HV : heads_shape b heads j V)
  end.
  { apply (split_heads_shape _ _ b j).
    - rewrite length_map. destruct context as [c |]; cbn [default]; [apply Hc | apply Hx].
    - apply Forall_map. destruct context as [c |]; cbn [default].
      + eapply Forall_impl; [| apply (has_shape3_rows b j dim c Hc)].
        intros rows Hr. now rewrite length_map.
      + subst j. eapply Forall_impl; [| apply (has_shape3_rows b n dim x Hx)].
        intros rows Hr. now rewrite length_map. }
  pose proof (merged_shape b heads n j dim_head _ _ HLs HV) as Hmerged.
  rewrite (Nat.mul_comm heads dim_head) in Hmerged.
  split; [exact Hmerged |].
  destruct Hmerged as [Hl F]. split; [now rewrite length_map |].
  apply Forall_map. eapply Forall_impl; [| exact F]. intros rows [Hn _].
  split; [now rewrite length_map |].
  apply Forall_map, Forall_forall. intros r _.
  rewrite linear_init_forward. now rewrite length_map, length_seq.
Qed.

(** An empty batch gives an empty result. *)
Lemma forward_empty_batch (self : Attention.t) (n j d : nat)
      (context : option (list (list (list R))))
      (mask context_mask : option (list (list bool)))
      (rel_pos : option RelativePositionBias.t) out :
  match context with Some c => has_shape3 0 j d c | None => True end ->
  Attention.forward self [] context mask context_mask rel_pos = Some out ->
  out = [].
Proof.
  intros Hc. rewrite forward_from_logits.
  destruct (Attention.logits self [] context mask context_mask rel_pos) as [L |];
    [| discriminate].
  cbv zeta. intros E. injection E as <-.
  assert (Hkv : default context (fun _ => @nil (list (list R))) = []).
  { destruct context as [c |]; [| reflexivity]. destruct Hc as [Hl _].
    now destruct c. }
  rewrite Hkv. unfold Attention.weighted_values. cbn [map Attention.split_heads].
  unfold zipWith. rewrite combine_nil. reflexivity.
Qed.

Lemma forward_empty_batch_defined (self : Attention.t) (n j d : nat)
      (context : option (list (list (list R))))
      (mask context_mask : option (list (list bool))) :
  match context with Some c => has_shape3 0 j d c | None => True end ->
  match mask with Some m => has_shape2 0 n m | None => True end ->
  match context_mask with Some m => has_shape2 0 j m | None => True end ->
  Attention.forward self [] context mask context_mask None = Some [].
Proof.
  intros Hc Hm Hcm.
  assert (Hkv : default context (fun _ => @nil (list (list R))) = []).
  { destruct context as [c |]; [| reflexivity]. destruct Hc as [Hl _].
    now destruct c. }
  assert (Hm' : match mask with Some m => has_shape2 0 0 m | None => True end).
  { destruct mask as [m |]; [| exact I]. destruct Hm as [Hl _].
    destruct m; [| discriminate]. split; [reflexivity | constructor]. }
  assert (Hcm' : match context_mask with Some m => has_shape2 0 0 m | None => True end).
  { destruct context_mask as [m |]; [| exact I]. destruct Hcm as [Hl _].
    destruct m; [| discriminate]. split; [reflexivity | constructor]. }
  rewrite forward_from_logits. unfold Attention.logits, Attention.qkv, Attention.dots.
  rewrite Hkv. cbn [map hd length Attention.split_heads].
  change (zipWith _ [] []) with (@nil (list (list (list R)))). cbn [map].
  rewrite (pad_mask_stage_fits 0 0 0 mask context_mask [] Hm' Hcm').
  rewrite causal_stage_fits. cbv zeta.
  assert (E : fitting_causal_stage self 0
                (fitting_pad_mask_stage 0 0 0 mask context_mask []) = []).
  { unfold fitting_causal_stage, fitting_pad_mask_stage.
    destruct (exists_ mask || exists_ context_mask); destruct (Attention.causal self);
      reflexivity. }
  rewrite E. reflexivity.
Qed.

(** C7.  For a module built by [Attention(dim, dim_head, heads, ...)] with
    at least one head, whatever [dim], [dim_head] and [heads] are, and for
    well-shaped arguments with [x] of shape (batch, seq_len, dim).
    - When the causal mask fits (the module is not causal, or there are as
      many keys as queries, or a single query), the call without a bias
      returns.  Its result is the output projection of merged rows of
      [dim_head * heads] features, the input width of [to_out], whether or
      not this equals [dim], and has shape (batch, seq_len, dim).
    - With a relative position bias that fits, whenever the call returns,
      its result has shape (batch, seq_len, dim).
    - A causal module given a context of another length than [x] raises,
      unless there is a single query. *)
Theorem attention_output_shape
        (dim dim_head heads : nat) (causal : bool) (self_mask : option (list (list bool)))
        (wq wkv wout : nat -> nat -> R) (bout : nat -> R) (self : Attention.t)
        (b n j : nat) (x : list (list (list R)))
        (context : option (list (list (list R))))
        (mask context_mask : option (list (list bool))) :
  Attention.init dim dim_head heads causal self_mask wq wkv wout bout = Some self ->
  0 < heads ->
  valid_call b n j dim x context mask context_mask ->
  ((causal = true -> j = n \/ n = 1) ->
   exists merged out,
     Attention.forward self x context mask context_mask None = Some out
     /\ out = map (map (Linear.forward (Attention.to_out self))) merged
     /\ has_shape3 b n (dim_head * heads) merged
     /\ has_shape2 dim (dim_head * heads) (Linear.weight (Attention.to_out self))
     /\ has_shape3 b n dim out)
  /\ (forall rel_pos out,
         bias_fits heads rel_pos ->
         Attention.forward self x context mask context_mask rel_pos = Some out ->
         has_shape3 b n dim out)
  /\ (causal = true -> 0 < b -> j <> n -> n <> 1 ->
      forall rel_pos,
        Attention.forward self x context mask context_mask rel_pos = None).
Proof.
  intros Hinit Hh Hv.
  destruct (init_fields _ _ _ _ _ _ _ _ _ _ Hinit) as (Eh & Ec & Ekv & Eout).
  pose proof Hv as (Hx & Hc & Hm & Hcm).
  assert (Hw : has_shape2 dim (dim_head * heads) (Linear.weight (Attention.to_out self))).
  { rewrite Eout. unfold Linear.init. cbn [Linear.weight].
    split; [now rewrite length_map, length_seq |].
    apply Forall_map, Forall_forall. intros k _. now rewrite length_map, length_seq. }
  assert (Hc' : match context with Some c => has_shape3 b j dim c | None => True end)
    by (destruct context; [exact Hc | exact I]).
  split; [| split].
  - intros Hfit. destruct (Nat.eq_dec b 0) as [-> | Hb].
    + destruct Hx as [Hl _]. destruct x; [| discriminate].
      exists [], []. split.
      * apply (forward_empty_batch_defined self n j dim); assumption.
      * repeat split; try constructor; exact (proj1 Hw) || exact (proj2 Hw).
    + rewrite <- Ec in Hfit.
      destruct (logits_defined self b n j dim dim x context mask context_mask
                  Hx Hc Hm Hcm ltac:(lia) Hfit) as [L HL].
      destruct (forward_shape_from_logits dim dim_head heads causal self_mask wq wkv wout
                  bout self b n j x context mask context_mask None L Hinit Hh
                  ltac:(lia) Hv I HL) as (merged & E & Hmerged & Hout).
      exists merged. eexists. split; [exact E |]. repeat split; try assumption;
        try apply Hmerged; try apply Hout; apply Hw.
  - intros rel_pos out Hfit E. destruct (Nat.eq_dec b 0) as [-> | Hb].
    + destruct Hx as [Hl _]. destruct x; [| discriminate].
      apply (forward_empty_batch self n j dim) in E; [| exact Hc'].
      subst out. split; [reflexivity | constructor].
    + destruct (Attention.logits self x context mask context_mask rel_pos) as [L |] eqn:HL.
      * destruct (forward_shape_from_logits dim dim_head heads causal self_mask wq wkv wout
                    bout self b n j x context mask context_mask rel_pos L Hinit Hh
                    ltac:(lia) Hv Hfit HL) as (merged & E' & _ & Hout).
        rewrite E' in E. injection E as <-. exact Hout.
      * rewrite forward_from_logits, HL in E. discriminate.
  - intros Hcausal Hb Hjn Hn1 rel_pos. rewrite forward_from_logits.
    rewrite <- Ec in Hcausal.
    now rewrite (logits_causal_misfit self b n j dim dim x context mask context_mask
                   rel_pos Hx Hc Hb Hcausal Hjn Hn1).
Qed.

End AttentionShapes.

Lemma attention_output_shape_witness :
  let w := fun k i : nat => INR (k + i) in
  let x := [[[1%R; 2%R; 3%R]; [4%R; 5%R; 6%R]]] in
  exists self,
    Attention.init 3 2 2 false None w w w INR = Some self
    /\ 0 < 2
    /\ valid_call 1 2 2 3 x None None None
    /\ exists merged out,
        Attention.forward self x None None None None = Some out
        /\ out = map (map (Linear.forward (Attention.to_out self))) merged
        /\ has_shape3 1 2 (2 * 2) merged
        /\ has_shape2 3 (2 * 2) (Linear.weight (Attention.to_out self))
        /\ has_shape3 1 2 3 out.
Proof.
  intros w x. eexists. split; [reflexivity |]. split; [lia |].
  assert (Hv : valid_call 1 2 2 3 x None None None)
    by (repeat split; repeat constructor).
  split; [exact Hv |].
  apply (attention_output_shape 3 2 2 false None w w w INR _ 1 2 2 x None None None
           eq_refl ltac:(lia) Hv).
  discriminate.
Defined.

(** ** Causal weights *)

Section CausalWeights.

(** X10.  In a causal module called without padding masks on [x] of shape
    (b, n, d), without context or with a context of the same length, and
    with a relative position bias that fits: whenever the call reaches the
    softmax, the logit of every key after the query is [-inf], in every
    batch element and head, and the attention weight of that key is zero
    (or NaN, when the weights of its row are NaN). *)
Theorem causal_weights_vanish_after_query
        (self : Attention.t) (b n d d' : nat) (x : list (list (list R)))
        (context : option (list (list (list R))))
        (rel_pos : option RelativePositionBias.t)
        (L : list (list (list (list logit)))) (bi hi q k : nat) :
  Attention.causal self = true ->
  has_shape3 b n d x ->
  match context with Some c => has_shape3 b n d' c | None => True end ->
  bias_fits (Attention.heads self) rel_pos ->
  Attention.logits self x context None None rel_pos = Some L ->
  bi < b -> hi < Attention.heads self -> q < k -> k < n ->
  nth k (nth q (nth hi (nth bi L []) []) []) (Fin 0) = NegInf
  /\ exists A,
       Attention.attn self x context None None rel_pos = Some A
       /\ (nth k (nth q (nth hi (nth bi A []) []) []) (Some 1%R) = Some 0%R
           \/ nth k (nth q (nth hi (nth bi A []) []) []) (Some 1%R) = None).
Proof.
  intros Hc Hx Hctx Hfit HL Hbi Hhi Hqk Hk.
  pose proof HL as HL0.
  assert (Hctx' : match context with Some c => has_shape3 b n d' c | None => n = n end)
    by (destruct context; [exact Hctx | reflexivity]).
  unfold Attention.logits in HL.
  pose proof (qkv_shape self b n n d d' x context Hx Hctx') as Hqkv.
  destruct (Attention.qkv self x context) as [[qq kk] v]. destruct Hqkv as (Hq & Hkk & _).
  rewrite (has_shape3_hd b n d x Hx ltac:(lia)),
    (kv_input_hd b n n d d' x context Hx Hctx' ltac:(lia)) in HL.
  destruct (Attention.dots self qq kk rel_pos) as [D |] eqn:ED; [| discriminate].
  apply (dots_shape self b n n qq kk rel_pos D Hq Hkk ltac:(lia) ltac:(lia) Hfit) in ED.
  cbn [Attention.pad_mask_stage exists_ orb] in HL.
  rewrite causal_stage_fits in HL. injection HL as EL.
  pose proof (has_shape4_nth _ _ _ _ _ bi ED Hbi) as H3.
  pose proof (has_shape3_nth _ _ _ _ hi H3 Hhi) as H2.
  pose proof (has_shape2_nth _ _ _ q H2 ltac:(lia)) as H1.
  destruct ED as [HlD _]. destruct H3 as [Hl3 _]. destruct H2 as [Hl2 _].
  set (row := zipWith (fun (l : logit) (m : bool) => if m then NegInf else l)
                (map Fin (nth q (nth hi (nth bi D []) []) []))
                (map (fun j => Nat.leb (q + 1) j) (seq 0 n))).
  assert (Hrow : nth q (nth hi (nth bi L []) []) [] = row).
  { rewrite <- EL. unfold fitting_causal_stage. rewrite Hc.
    rewrite !map_map.
    rewrite (nth_map_lt _ D bi _ []) by lia. rewrite !map_map.
    rewrite (nth_map_lt _ (nth bi D []) hi _ []) by lia.
    unfold masked_fill_.
    rewrite (nth_zipWith _ _ _ q [] [])
      by (unfold triu1; rewrite ?length_map, ?length_seq; lia).
    rewrite nth_map_nil. unfold triu1.
    rewrite (nth_map_lt _ (seq 0 n) q _ 0) by (rewrite length_seq; lia).
    rewrite seq_nth by lia. reflexivity. }
  destruct (causal_row_masked (nth q (nth hi (nth bi D []) []) []) q k n Hqk)
    as [Hopen Hmask].
  fold row in Hopen, Hmask.
  assert (Hlen : k < length row)
    by (unfold row; rewrite length_zipWith, !length_map, length_seq; lia).
  assert (HiL : q < length (nth hi (nth bi L []) []))
    by (apply nth_nonempty; rewrite Hrow; intros E; rewrite E in Hlen; simpl in Hlen; lia).
  assert (HhL : hi < length (nth bi L []))
    by (apply nth_nonempty; intros E; rewrite E in HiL; simpl in HiL; lia).
  assert (HbL : bi < length L)
    by (apply nth_nonempty; intros E; rewrite E in HhL; simpl in HhL; lia).
  split.
  - rewrite Hrow. exact (Hmask Hlen).
  - exists (map (map (map softmax)) L). split.
    + unfold Attention.attn. rewrite HL0. reflexivity.
    + left.
      rewrite (nth_map_lt _ L bi _ []) by exact HbL.
      rewrite (nth_map_lt _ (nth bi L []) hi _ []) by exact HhL.
      rewrite (nth_map_lt _ (nth hi (nth bi L []) []) q _ []) by exact HiL.
      rewrite Hrow.
      rewrite (nth_indep _ (Some 1%R) (Some 0%R)) by (rewrite softmax_length; exact Hlen).
      apply softmax_nth_masked; [exact Hopen | exact (Hmask Hlen)].
Qed.

End CausalWeights.

Lemma causal_weights_vanish_after_query_witness :
  let self := Attention.mk 1 1 true None
                (Linear.mk [[1%R]] None) (Linear.mk [[1%R]; [1%R]] None)
                (Linear.mk [[1%R]] (Some [0%R])) in
  exists L,
    Attention.logits self [[[1%R]; [2%R]]] None None None None = Some L
    /\ nth 1 (nth 0 (nth 0 (nth 0 L []) []) []) (Fin 0) = NegInf.
Proof.
  intros self. eexists. split; [reflexivity |].
  apply (causal_weights_vanish_after_query self 1 2 1 1 [[[1%R]; [2%R]]] None None _ 0 0 0 1).
  - reflexivity.
  - repeat split; repeat constructor.
  - exact I.
  - exact I.
  - reflexivity.
  - lia.
  - cbn. lia.
  - lia.
  - lia.
Defined.
